(** * Hover/emphasis state machine and text-style cascade of [src/util/graphic.js]

    A shallow embedding of the stateful part of [graphic.js] (the hover
    and emphasis handlers installed by [setHoverStyle]) and of its
    text-style resolver ([setLabelStyle], [setTextStyle],
    [setTextStyleCommon], [getRichItemNames], [setTokenTextStyle]),
    of [setText] and [getFont], and of the pixel snapping and clipping
    helpers ([subPixelOptimize], [subPixelOptimizeLine],
    [subPixelOptimizeRect], [clipPointsByRect], [clipRectByRect]),
    followed by the properties established about them.

    JavaScript objects are finite maps from property names to values;
    objects that the code shares between elements (the hover style handed
    to [setHoverStyle]) live in a heap and are referred to by location. *)

From stdpp Require Import gmap strings list fin_maps pretty.
From Stdlib Require Import QArith_base Qround Qminmax Lqa.
Close Scope Q_scope.

Set Warnings "-register-all,-clear-no-such-hyp".

(** ** JavaScript values *)

Inductive value :=
| VUndef
| VNull
| VBool (b : bool)
| VNum (z : Z)
| VStr (s : string)
| VArr (l : list value)
| VObj (o : gmap string value).

Abbreviation obj := (gmap string value).

(** [v == null] *)
Definition nullish (v : value) : bool :=
  match v with VUndef | VNull => true | _ => false end.

(** ToBoolean *)
Definition truthy (v : value) : bool :=
  match v with
  | VUndef | VNull => false
  | VBool b => b
  | VNum z => negb (z =? 0)%Z
  | VStr s => negb (String.eqb s "")
  | VArr _ | VObj _ => true
  end.

(** [a || b] and [a && b] on values *)
Definition jsOr (a b : value) : value := if truthy a then a else b.
Definition jsAnd (a b : value) : value := if truthy a then b else a.

(** [o[k]] on an object known to be one: an own property or [undefined]. *)
Definition get (o : obj) (k : string) : value := default VUndef (o !! k).

(** [v[k]] on an arbitrary non-nullish value. Primitives carry none of the
    properties read by this file. *)
Definition getProp (v : value) (k : string) : value :=
  match v with VObj o => get o k | _ => VUndef end.

Definition isStr (v : value) (s : string) : bool :=
  match v with VStr s' => String.eqb s' s | _ => false end.

(** [zrUtil.retrieve2] of zrender, which is outside this repository:
    [value0 != null ? value0 : value1]. *)
Definition retrieve2 (value0 value1 : value) : value :=
  if nullish value0 then value1 else value0.

(** [zrUtil.extend(target, source)] of zrender: every own property of
    [source] is assigned on [target]. *)
Definition extend (target source : obj) : obj :=
  map_fold (λ key v acc, <[key := v]> acc) target source.

(** ** Heap of shared objects

    The hover style given to [setHoverStyle] is stored by reference on
    every element it is applied to, and [cacheElementStl] writes into it,
    so it is kept in a heap. A property access through an undefined or
    dangling reference raises; a raised exception is [None]. *)

Abbreviation loc := nat.
Abbreviation heap := (list obj).

Definition M (A : Type) : Type := heap → option (A * heap).

#[global] Instance M_ret : MRet M := λ A a h, Some (a, h).
#[global] Instance M_bind : MBind M :=
  λ A B f m h, match m h with Some (a, h') => f a h' | None => None end.

Definition raise {A} : M A := λ _, None.
Definition deref (r : option loc) : M loc :=
  match r with Some l => mret l | None => raise end.
Definition load (l : loc) : M obj :=
  λ h, match h !! l with Some o => Some (o, h) | None => None end.
Definition store (l : loc) (o : obj) : M unit :=
  λ h, match h !! l with Some _ => Some (tt, <[l := o]> h) | None => None end.
(** a fresh object literal *)
Definition alloc (o : obj) : M loc := λ h, Some (length h, h ++ [o]).

(** *** Elements *)

(** State of the hover layer of the renderer ([el.__zr]) for one element:
    [addHover(el, style)] registers a hover style, [removeHover(el)]
    drops it. *)
Inductive overlay := NoOverlay | Overlay (delta : option loc).

(** The four handlers [setHoverStyle] subscribes. *)
Inductive handler :=
| HMouseOver      (* onElementMouseOver *)
| HMouseOut       (* onElementMouseOut *)
| HEnterEmphasis  (* enterEmphasis *)
| HLeaveEmphasis. (* leaveEmphasis *)

#[global] Instance handler_eq_dec : EqDecision handler.
Proof. solve_decision. Defined.

(** The fields of a zrender element this file reads or writes. [style]
    holds the own properties of [el.style]; [z2] is an integer z-level. *)
Record elData := ElData {
  style : obj;
  hoverStyle : option loc;
  __hoverStl : option loc;
  __normalStl : option obj;
  __hoverStlDirty : bool;
  __isHover : bool;
  __isEmphasis : bool;
  __hoverSilentOnTouch : bool;
  useHoverLayer : bool;
  __zr : option overlay;
  z2 : Z;
  __dirty : bool;
  _handlers : gmap string (list handler) }.

Definition set_style (v : obj) (e : elData) : elData :=
  ElData v (hoverStyle e) (__hoverStl e) (__normalStl e) (__hoverStlDirty e)
    (__isHover e) (__isEmphasis e) (__hoverSilentOnTouch e) (useHoverLayer e)
    (__zr e) (z2 e) (__dirty e) (_handlers e).
Definition set_hoverStl (v : option loc) (e : elData) : elData :=
  ElData (style e) (hoverStyle e) v (__normalStl e) (__hoverStlDirty e)
    (__isHover e) (__isEmphasis e) (__hoverSilentOnTouch e) (useHoverLayer e)
    (__zr e) (z2 e) (__dirty e) (_handlers e).
Definition set_normalStl (v : option obj) (e : elData) : elData :=
  ElData (style e) (hoverStyle e) (__hoverStl e) v (__hoverStlDirty e)
    (__isHover e) (__isEmphasis e) (__hoverSilentOnTouch e) (useHoverLayer e)
    (__zr e) (z2 e) (__dirty e) (_handlers e).
Definition set_hoverStlDirty (v : bool) (e : elData) : elData :=
  ElData (style e) (hoverStyle e) (__hoverStl e) (__normalStl e) v
    (__isHover e) (__isEmphasis e) (__hoverSilentOnTouch e) (useHoverLayer e)
    (__zr e) (z2 e) (__dirty e) (_handlers e).
Definition set_isHover (v : bool) (e : elData) : elData :=
  ElData (style e) (hoverStyle e) (__hoverStl e) (__normalStl e) (__hoverStlDirty e)
    v (__isEmphasis e) (__hoverSilentOnTouch e) (useHoverLayer e)
    (__zr e) (z2 e) (__dirty e) (_handlers e).
Definition set_isEmphasis (v : bool) (e : elData) : elData :=
  ElData (style e) (hoverStyle e) (__hoverStl e) (__normalStl e) (__hoverStlDirty e)
    (__isHover e) v (__hoverSilentOnTouch e) (useHoverLayer e)
    (__zr e) (z2 e) (__dirty e) (_handlers e).
Definition set_hoverSilentOnTouch (v : bool) (e : elData) : elData :=
  ElData (style e) (hoverStyle e) (__hoverStl e) (__normalStl e) (__hoverStlDirty e)
    (__isHover e) (__isEmphasis e) v (useHoverLayer e)
    (__zr e) (z2 e) (__dirty e) (_handlers e).
Definition set_zr (v : option overlay) (e : elData) : elData :=
  ElData (style e) (hoverStyle e) (__hoverStl e) (__normalStl e) (__hoverStlDirty e)
    (__isHover e) (__isEmphasis e) (__hoverSilentOnTouch e) (useHoverLayer e)
    v (z2 e) (__dirty e) (_handlers e).
Definition set_z2 (v : Z) (e : elData) : elData :=
  ElData (style e) (hoverStyle e) (__hoverStl e) (__normalStl e) (__hoverStlDirty e)
    (__isHover e) (__isEmphasis e) (__hoverSilentOnTouch e) (useHoverLayer e)
    (__zr e) v (__dirty e) (_handlers e).
Definition set_dirty (v : bool) (e : elData) : elData :=
  ElData (style e) (hoverStyle e) (__hoverStl e) (__normalStl e) (__hoverStlDirty e)
    (__isHover e) (__isEmphasis e) (__hoverSilentOnTouch e) (useHoverLayer e)
    (__zr e) (z2 e) v (_handlers e).
Definition set_handlers (v : gmap string (list handler)) (e : elData) : elData :=
  ElData (style e) (hoverStyle e) (__hoverStl e) (__normalStl e) (__hoverStlDirty e)
    (__isHover e) (__isEmphasis e) (__hoverSilentOnTouch e) (useHoverLayer e)
    (__zr e) (z2 e) (__dirty e) v.

(** An element is a displayable shape or a group ([el.type === 'group'])
    with children. *)
Inductive element :=
| Shape (d : elData)
| Group (d : elData) (children : list element).

Definition data (el : element) : elData :=
  match el with Shape d | Group d _ => d end.
Definition with_data (f : elData → elData) (el : element) : element :=
  match el with Shape d => Shape (f d) | Group d cs => Group (f d) cs end.

(** *** Collaborators from zrender

    zrender is a separate library; the functions of it that [graphic.js]
    calls are embedded from their contracts. *)

Class ZRender := {
  (** [colorTool.lift(color, level)] *)
  lift : string → QArith_base.Q → value;
  (** what a read of [el.style] finds on [Style.prototype] when the
      property is not an own one *)
  styleProto : string → value }.

(** Modelled from the spec: [Style.extendFrom(otherStyle, overwrite)] of
    zrender. Without [overwrite] it is the merge of the spec (only keys
    with a non-null value in the delta are overwritten); with [overwrite]
    every own key of [otherStyle] is assigned. A missing [otherStyle] is
    ignored. *)
Definition extendFrom (this : obj) (otherStyle : option obj) (overwrite : bool) : obj :=
  match otherStyle with
  | Some other =>
      map_fold (λ name v acc,
                  if overwrite || negb (nullish v) then <[name := v]> acc else acc)
               this other
  | None => this
  end.

(** Modelled from the spec: [el.setStyle(obj)] of zrender, the plain
    replace of the spec: [style.extendFrom(obj, true)], then [dirty(false)]. *)
Definition setStyle (normalStl : obj) (el : elData) : elData :=
  set_dirty true (set_style (extendFrom (style el) (Some normalStl) true) el).

(** Modelled from the spec: [Eventful.on(event, handler)] of zrender,
    which ignores a handler already subscribed to the event. *)
Definition on (event : string) (h : handler) (hs : gmap string (list handler))
  : gmap string (list handler) :=
  let subscribed := default [] (hs !! event) in
  if bool_decide (h ∈ subscribed) then hs else <[event := subscribed ++ [h]]> hs.

(** [for (i ...) { cb(child); if (child.type === 'group') child.traverse(cb) }]
    of zrender's [Group.traverse], threaded through the heap. *)
Definition forEach {A} (f : A → M A) : list A → M (list A) :=
  fix go l :=
    match l with
    | [] => mret []
    | x :: rest => x' ← f x; rest' ← go rest; mret (x' :: rest')
    end.

(** One step of [Group.traverse] with a callback guarded by
    [child.type !== 'group'], as all three callbacks of this file are. *)
Fixpoint visit (cb : elData → M elData) (child : element) : M element :=
  match child with
  | Shape d => d' ← cb d; mret (Shape d')
  | Group d children => children' ← forEach (visit cb) children; mret (Group d children')
  end.

Definition traverse (cb : elData → M elData) (children : list element) : M (list element) :=
  forEach (visit cb) children.

(** The pointer event handed to the handlers. *)
Record event := { zrByTouch : bool }.

(** Options of [setHoverStyle]. *)
Record hoverOpt := { opt_hoverSilentOnTouch : bool }.

(** *** The hover functions of [graphic.js] *)

Section hover.
Context `{ZRender}.

(** [el.style[name]] *)
Definition readStyle (st : obj) (name : string) : value :=
  match st !! name with Some v => v | None => styleProto name end.

Definition hasFillOrStroke (fillOrStroke : value) : bool :=
  negb (nullish fillOrStroke) && negb (isStr fillOrStroke "none").

Definition liftColor (color : value) : value :=
  match color with
  | VStr s => lift s (QArith_base.Qmake (-1) 10)
  | _ => color
  end.

(** [hoverStyle.fill || (hasFillOrStroke(fill) ? liftColor(fill) : null)] *)
Definition defaultFillOrStroke (hoverValue live : value) : value :=
  jsOr hoverValue (if hasFillOrStroke live then liftColor live else VNull).

(** The [for (name in hoverStyle)] loop of [cacheElementStl]. *)
Definition captureNormalStyle (st hoverStyle : obj) : obj :=
  map_fold (λ name v normalStyle,
              if negb (nullish v) then <[name := readStyle st name]> normalStyle
              else normalStyle)
           ∅ hoverStyle.

(** The hover style object as [cacheElementStl] leaves it. *)
Definition hoverStyleOnCapture (st hoverStyle : obj) : obj :=
  <["stroke" := defaultFillOrStroke (get (<["fill" := defaultFillOrStroke
                                                (get hoverStyle "fill")
                                                (readStyle st "fill")]> hoverStyle)
                                         "stroke")
                                    (readStyle st "stroke")]>
    (<["fill" := defaultFillOrStroke (get hoverStyle "fill") (readStyle st "fill")]>
       hoverStyle).

Definition cacheElementStl (el : elData) : M elData :=
  if __hoverStlDirty el then
    let stroke := readStyle (style el) "stroke" in
    let fill := readStyle (style el) "fill" in
    l ← deref (__hoverStl el);
    hoverStyle ← load l;
    let hoverStyle :=
      <["fill" := defaultFillOrStroke (get hoverStyle "fill") fill]> hoverStyle in
    let hoverStyle :=
      <["stroke" := defaultFillOrStroke (get hoverStyle "stroke") stroke]> hoverStyle in
    _ ← store l hoverStyle;
    let normalStyle := captureNormalStyle (style el) hoverStyle in
    mret (set_hoverStlDirty false (set_normalStl (Some normalStyle) el))
  else mret el.

Definition doSingleEnterHover (el : elData) : M elData :=
  if __isHover el then mret el
  else
    el ← cacheElementStl el;
    el ← (if useHoverLayer el then
            mret (match __zr el with
                  | Some _ => set_zr (Some (Overlay (__hoverStl el))) el
                  | None => el
                  end)
          else
            hoverStl ← match __hoverStl el with
                       | Some l => o ← load l; mret (Some o)
                       | None => mret None
                       end;
            let el := set_style (extendFrom (style el) hoverStl false) el in
            let el := set_dirty true el in
            mret (set_z2 (z2 el + 1) el));
    mret (set_isHover true el).

Definition doSingleLeaveHover (el : elData) : M elData :=
  if negb (__isHover el) then mret el
  else
    let normalStl := __normalStl el in
    let el :=
      if useHoverLayer el then
        match __zr el with
        | Some _ => set_zr (Some NoOverlay) el
        | None => el
        end
      else
        let el := match normalStl with
                  | Some normalStl => setStyle normalStl el
                  | None => el
                  end in
        set_z2 (z2 el - 1) el in
    mret (set_isHover false el).

(** The state of a not yet hovering element after [doSingleEnterHover],
    from the state [elc] its capture step has left: the overlay branch
    and the style branch. *)
Definition enterOverlay (elc : elData) : elData :=
  set_isHover true
    (match __zr elc with
     | Some _ => set_zr (Some (Overlay (__hoverStl elc))) elc
     | None => elc
     end).

Definition enterStyle (delta : option obj) (elc : elData) : elData :=
  set_isHover true
    (set_z2 (z2 elc + 1)
       (set_dirty true (set_style (extendFrom (style elc) delta false) elc))).

(** The element [doSingleLeaveHover] returns; it does not read or write
    the heap. *)
Definition leaveResult (el : elData) : elData :=
  if negb (__isHover el) then el
  else
    set_isHover false
      (if useHoverLayer el then
         match __zr el with
         | Some _ => set_zr (Some NoOverlay) el
         | None => el
         end
       else
         let el := match __normalStl el with
                   | Some normalStl => setStyle normalStl el
                   | None => el
                   end in
         set_z2 (z2 el - 1) el).

Definition doEnterHover (el : element) : M element :=
  match el with
  | Group d children =>
      children' ← traverse doSingleEnterHover children; mret (Group d children')
  | Shape d => d' ← doSingleEnterHover d; mret (Shape d')
  end.

Definition doLeaveHover (el : element) : M element :=
  match el with
  | Group d children =>
      children' ← traverse doSingleLeaveHover children; mret (Group d children')
  | Shape d => d' ← doSingleLeaveHover d; mret (Shape d')
  end.

Definition setElementHoverStl (el : elData) (hoverStl : option loc) : M elData :=
  l ← match hoverStyle el with
      | Some l => mret l
      | None => match hoverStl with
                | Some l => mret l
                | None => alloc ∅
                end
      end;
  let el := set_hoverStl (Some l) el in
  let el := set_hoverStlDirty true el in
  if __isHover el then cacheElementStl el else mret el.

(** The handlers; [this] is the element they are subscribed on. *)
Definition onElementMouseOver (this : element) (e : event) : M element :=
  if __hoverSilentOnTouch (data this) && zrByTouch e then mret this
  else if negb (__isEmphasis (data this)) then doEnterHover this
  else mret this.

Definition onElementMouseOut (this : element) (e : event) : M element :=
  if __hoverSilentOnTouch (data this) && zrByTouch e then mret this
  else if negb (__isEmphasis (data this)) then doLeaveHover this
  else mret this.

Definition enterEmphasis (this : element) : M element :=
  let this := with_data (set_isEmphasis true) this in
  doEnterHover this.

Definition leaveEmphasis (this : element) : M element :=
  let this := with_data (set_isEmphasis false) this in
  doLeaveHover this.

Definition setHoverStyle (el : element) (hoverStyle : option loc) (opt : option hoverOpt)
  : M element :=
  let el := with_data (set_hoverSilentOnTouch
                         (match opt with
                          | Some opt => opt_hoverSilentOnTouch opt
                          | None => false
                          end)) el in
  el ← match el with
       | Group d children =>
           children' ← traverse (λ child, setElementHoverStl child hoverStyle) children;
           mret (Group d children')
       | Shape d => d' ← setElementHoverStl d hoverStyle; mret (Shape d')
       end;
  let el := with_data (λ d, set_handlers (on "mouseover" HMouseOver (_handlers d)) d) el in
  let el := with_data (λ d, set_handlers (on "mouseout" HMouseOut (_handlers d)) d) el in
  let el := with_data (λ d, set_handlers (on "emphasis" HEnterEmphasis (_handlers d)) d) el in
  let el := with_data (λ d, set_handlers (on "normal" HLeaveEmphasis (_handlers d)) d) el in
  mret el.

(** Running a subscribed handler, and zrender's [el.trigger(eventName, e)]:
    the handlers subscribed to the event run in subscription order with
    [this] bound to the element. *)
Definition invoke (h : handler) (e : event) (this : element) : M element :=
  match h with
  | HMouseOver => onElementMouseOver this e
  | HMouseOut => onElementMouseOut this e
  | HEnterEmphasis => enterEmphasis this
  | HLeaveEmphasis => leaveEmphasis this
  end.

Fixpoint invokeAll (hs : list handler) (e : event) (this : element) : M element :=
  match hs with
  | [] => mret this
  | h :: rest => this ← invoke h e this; invokeAll rest e this
  end.

Definition trigger (eventName : string) (e : event) (this : element) : M element :=
  invokeAll (default [] (_handlers (data this) !! eventName)) e this.

(** A sequence of triggered events. *)
Fixpoint triggerAll (evs : list (string * event)) (this : element) : M element :=
  match evs with
  | [] => mret this
  | (eventName, e) :: rest => this ← trigger eventName e this; triggerAll rest this
  end.

(** [setHoverStyle] invoked once for each item of [calls], in order. *)
Fixpoint setHoverStyleAll (calls : list (option loc * option hoverOpt)) (el : element)
  : M element :=
  match calls with
  | [] => mret el
  | (hoverStyle, opt) :: rest =>
      el ← setHoverStyle el hoverStyle opt; setHoverStyleAll rest el
  end.

End hover.

(** References held by an element point into the heap, and a pending
    capture ([__hoverStlDirty]) has a hover style to read: the states in
    which no property access raises. *)
Definition validRef (h : heap) (r : option loc) : bool :=
  match r with Some l => bool_decide (l < length h) | None => true end.

Definition wfRefs (h : heap) (el : elData) : bool :=
  validRef h (hoverStyle el) && validRef h (__hoverStl el)
  && (if __hoverStlDirty el then bool_decide (is_Some (__hoverStl el)) else true).

(** The z-level of an element whose level in the normal state is [z0]:
    bumped by one exactly while the hover style is applied on the element
    itself. *)
Definition bumpedOnce (z0 : Z) (d : elData) : Prop :=
  z2 d = (z0 + if __isHover d && negb (useHoverLayer d) then 1 else 0)%Z.

(** A colour library and an empty style prototype to run examples with,
    and an element fresh from its constructor. *)
Definition exampleZRender : ZRender :=
  {| lift := λ color _, VStr ("lift(" +:+ color +:+ ")");
     styleProto := λ _, VUndef |}.

Definition newElement (st : obj) : elData :=
  ElData st None None None false false false false false None 0 false ∅.

(** The element of the end-to-end scenario of the specification, live
    style [{fill: '#336699', stroke: 'none'}], and a heap holding the
    hover style [{}] at location 0 and [{fill: 'red'}] at location 1. *)
Definition exampleLeaf : elData :=
  newElement (<["stroke" := VStr "none"]> {["fill" := VStr "#336699"]}).

Definition exampleHeap : heap := [∅; {["fill" := VStr "red"]}].

(** The same element after [setElementHoverStl] with the hover style at
    location 0. *)
Definition exampleConfigured : elData :=
  set_hoverStlDirty true (set_hoverStl (Some 0) exampleLeaf).

(** A group holding the element of the scenario and a nested group. *)
Definition exampleGroup : element :=
  Group (newElement ∅)
        [Shape exampleLeaf; Group (newElement ∅) [Shape exampleLeaf]].

(** Every displayable (non-group) element below or at [el], in traversal
    order. *)
Fixpoint leaves (el : element) : list elData :=
  match el with
  | Shape d => [d]
  | Group _ children => concat (map leaves children)
  end.

(** Every element below [el], groups included, with [el] itself. *)
Fixpoint nodes (el : element) : list elData :=
  match el with
  | Shape d => [d]
  | Group d children => d :: concat (map nodes children)
  end.

(** The elements strictly below [el]. *)
Definition descendants (el : element) : list elData :=
  match el with
  | Shape _ => []
  | Group _ children => concat (map nodes children)
  end.

(** The four subscriptions of [setHoverStyle], and the table they make of
    an element nothing is subscribed on. *)
Definition hoverSubscriptions (hs : gmap string (list handler))
  : gmap string (list handler) :=
  on "normal" HLeaveEmphasis
     (on "emphasis" HEnterEmphasis
         (on "mouseout" HMouseOut (on "mouseover" HMouseOver hs))).

Definition subscribedOnce : gmap string (list handler) :=
  <["normal" := [HLeaveEmphasis]]>
    (<["emphasis" := [HEnterEmphasis]]>
       (<["mouseout" := [HMouseOut]]> {["mouseover" := [HMouseOver]]})).

(** What a traversal with the callback [cb] makes of the element [el]
    when every displayable element satisfies [P]: the traversal returns,
    the tree is the same with its groups untouched, and every displayable
    element is related to its new state by [R] and satisfies [P] again. *)
Definition traversed (cb : elData → M elData) (P : heap → elData → Prop)
    (R : elData → elData → Prop) (h : heap) (el : element) : Prop :=
  ∃ el' h',
    visit cb el h = Some (el', h') ∧ length h ≤ length h' ∧
    match el with
    | Shape _ => ∃ d', el' = Shape d'
    | Group d _ => ∃ children', el' = Group d children'
    end ∧
    Forall2 R (leaves el) (leaves el') ∧
    Forall2 (λ a b, R a b ∨ b = a) (nodes el) (nodes el') ∧
    Forall (P h') (leaves el').

(** ** Text styles *)

(** *** Style models

    [echarts/model/Model] is not part of this file's source; [graphic.js]
    reads its fields [option], [parentModel] and [ecModel] and calls
    [getShallow] and [getModel]. [isEcModel] records whether the node is
    its own [ecModel] (the test [textStyleModel !== textStyleModel.ecModel]). *)

Record EcModel := { ecOption : obj }.

Inductive Model := mkModel {
  modelOption : value;
  parentModel : option Model;
  ecModel : option EcModel;
  isEcModel : bool }.

(** Modelled from the spec: [Model.getShallow(key)], the hierarchical
    lookup of the spec: the node's own value for [key], and when that is
    null or undefined the value found up the parent chain. *)
Fixpoint getShallow (m : Model) (key : string) : value :=
  match m with
  | mkModel option parent _ _ =>
      let val := if nullish option then option else getProp option key in
      if nullish val then
        match parent with
        | Some parent => getShallow parent key
        | None => val
        end
      else val
  end.

(** Modelled from the spec: the path lookup behind [Model.getModel]; empty
    path items are skipped and the walk stops at the first null. *)
Fixpoint doGet (o : value) (pathArr : list string) : value :=
  match pathArr with
  | [] => o
  | p :: rest =>
      if String.eqb p "" then doGet o rest
      else
        let o := match o with VObj _ | VArr _ => getProp o p | _ => VNull end in
        if nullish o then o else doGet o rest
  end.

(** Modelled from the spec: [Model.getModel(path)], a fresh node for the
    sub-path whose parent is the same sub-path of the parent, so that the
    cascade of [getShallow] runs along the original chain. *)
Fixpoint getModel (m : Model) (path : list string) : Model :=
  match m with
  | mkModel option parent ec _ =>
      mkModel (doGet option path)
              (match parent with
               | Some parent => Some (getModel parent path)
               | None => None
               end)
              ec false
  end.

(** The nodes from [m] up its parent chain. *)
Fixpoint chain (m : Model) : list Model :=
  match m with
  | mkModel _ parent _ _ =>
      m :: match parent with Some parent => chain parent | None => [] end
  end.

(** The names [for (name in v) if (v.hasOwnProperty(name))] runs over. *)
Definition ownNames (v : value) : list string :=
  match v with
  | VObj o => (map_to_list o).*1
  | VArr l => pretty <$> seq 0 (length l)
  | VStr s => pretty <$> seq 0 (String.length s)
  | _ => []
  end.

(** *** Options of the resolver *)

(** [opt.checkInside]: unset, [false], or a function, which may raise. *)
Inductive checkInsideOpt :=
| CheckInsideUnset
| CheckInsideFalse
| CheckInsideFn (f : Model → value → option value).

Record Opt := mkOpt {
  disableBox : bool;
  isRectText : bool;
  autoColor : value;
  checkInside : checkInsideOpt;
  forceRich : bool;
  opt_textStyle : value;
  defaultText : value;
  (** [labelFetcher.getFormattedLabel(labelDataIndex, state, null, labelDimIndex)] *)
  labelFetcher : option (value → string → value → value);
  labelDataIndex : value;
  labelDimIndex : value }.

Definition EMPTY_OBJ : Opt :=
  mkOpt false false VUndef CheckInsideUnset false VUndef VUndef None VUndef VUndef.

Definition set_textStyle (v : value) (opt : Opt) : Opt :=
  mkOpt (disableBox opt) (isRectText opt) (autoColor opt) (checkInside opt)
        (forceRich opt) v (defaultText opt) (labelFetcher opt)
        (labelDataIndex opt) (labelDimIndex opt).

(** [labelRotate *= Math.PI / 180], a floating-point product. *)
Class Radians := { degToRad : value → value }.

(** *** The resolver of [graphic.js] *)

(** [textPosition && textPosition.indexOf('inside') >= 0]; a truthy value
    without [indexOf] raises. *)
Definition defaultCheckInside (labelModel : Model) (textPosition : value) : option value :=
  if truthy textPosition then
    match textPosition with
    | VStr s => Some (VBool (bool_decide (is_Some (String.index 0 "inside" s))))
    | VArr l => Some (VBool (existsb (λ v, isStr v "inside") l))
    | _ => None
    end
  else Some textPosition.

Definition getAutoColor (color : value) (opt : Opt) : value :=
  if negb (isStr color "auto") then color
  else if truthy (autoColor opt) then autoColor opt
  else VNull.

(** The [while] loop of [getRichItemNames], from the node
    [textStyleModel] with the names collected so far. *)
Fixpoint collectRichItemNames (textStyleModel : Model) (richItemNameMap : option obj)
  : option obj :=
  match textStyleModel with
  | mkModel option parent _ isEc =>
      if isEc then richItemNameMap
      else
        let rich := getProp (jsOr option (VObj ∅)) "rich" in
        let richItemNameMap :=
          if truthy rich then
            Some (foldr (λ name acc, <[name := VNum 1]> acc)
                        (default ∅ richItemNameMap) (ownNames rich))
          else richItemNameMap in
        match parent with
        | Some parent => collectRichItemNames parent richItemNameMap
        | None => richItemNameMap
        end
  end.

Definition getRichItemNames (textStyleModel : Model) : option obj :=
  collectRichItemNames textStyleModel None.

(** The fill, stroke and stroke width of [setTokenTextStyle] in default
    mode ([!noDefault]); [textPosition] is [textStyle.textPosition]. *)
Definition defaultFillStroke (textStyleModel : Model) (globalTextStyle : value) (opt : Opt)
    (textPosition textFill textStroke textLineWidth : value)
  : option (value * value * value) :=
  let textFill := if nullish textFill then getProp globalTextStyle "color" else textFill in
  let textStroke :=
    if nullish textStroke then getProp globalTextStyle "textBorderColor" else textStroke in
  let textLineWidth :=
    if nullish textLineWidth then getProp globalTextStyle "textBorderWidth"
    else textLineWidth in
  let checkInside :=
    match checkInside opt with
    | CheckInsideUnset =>
        if isRectText opt then CheckInsideFn defaultCheckInside else CheckInsideUnset
    | c => c
    end in
  inside ← (if nullish textFill then
              match checkInside with
              | CheckInsideFn f => truthy <$> f textStyleModel textPosition
              | _ => Some false
              end
            else Some false);
  let '(textFill, textStroke, textLineWidth) :=
    if inside : bool then
      if nullish textStroke then
        (VStr "#fff", autoColor opt,
         if nullish textLineWidth then VNum 2 else textLineWidth)
      else (VStr "#fff", textStroke, textLineWidth)
    else (textFill, textStroke, textLineWidth) in
  let textFill := if nullish textFill then autoColor opt else textFill in
  Some (textFill, textStroke, textLineWidth).

(** The assignments of [setTokenTextStyle], from the fill, stroke and
    stroke width it has resolved; [globalTextStyle] is the global text
    style or [EMPTY_OBJ]. *)
Definition writeTokenTextStyle (textStyle : obj) (textStyleModel : Model)
    (globalTextStyle : value) (opt : Opt) (isBlock : bool)
    (textFill textStroke textLineWidth : value) : obj :=
  let textStyle := <["textFill" := textFill]> textStyle in
  let textStyle := <["textStroke" := textStroke]> textStyle in
  let textStyle := <["textLineWidth" := textLineWidth]> textStyle in
  let textStyle := <["fontStyle" := jsOr (getShallow textStyleModel "fontStyle")
                                         (getProp globalTextStyle "fontStyle")]> textStyle in
  let textStyle := <["fontWeight" := jsOr (getShallow textStyleModel "fontWeight")
                                          (getProp globalTextStyle "fontWeight")]> textStyle in
  let textStyle := <["fontSize" := jsOr (getShallow textStyleModel "fontSize")
                                        (getProp globalTextStyle "fontSize")]> textStyle in
  let textStyle := <["fontFamily" := jsOr (getShallow textStyleModel "fontFamily")
                                          (getProp globalTextStyle "fontFamily")]> textStyle in
  let textStyle := <["textAlign" := getShallow textStyleModel "align"]> textStyle in
  let textStyle := <["textVerticalAlign" := jsOr (getShallow textStyleModel "verticalAlign")
                                                 (getShallow textStyleModel "baseline")]>
                     textStyle in
  let textStyle := <["textLineHeight" := getShallow textStyleModel "lineHeight"]> textStyle in
  let textStyle := <["textWidth" := getShallow textStyleModel "width"]> textStyle in
  let textStyle := <["textHeight" := getShallow textStyleModel "height"]> textStyle in
  let textStyle := <["textTag" := getShallow textStyleModel "tag"]> textStyle in
  let textStyle :=
    if negb isBlock || negb (disableBox opt) then
      let textStyle :=
        <["textBackgroundColor" :=
            getAutoColor (getShallow textStyleModel "backgroundColor") opt]> textStyle in
      let textStyle := <["textPadding" := getShallow textStyleModel "padding"]> textStyle in
      let textStyle :=
        <["textBorderColor" :=
            getAutoColor (getShallow textStyleModel "borderColor") opt]> textStyle in
      let textStyle :=
        <["textBorderWidth" := getShallow textStyleModel "borderWidth"]> textStyle in
      let textStyle :=
        <["textBorderRadius" := getShallow textStyleModel "borderRadius"]> textStyle in
      let textStyle :=
        <["textBoxShadowColor" := getShallow textStyleModel "shadowColor"]> textStyle in
      let textStyle :=
        <["textBoxShadowBlur" := getShallow textStyleModel "shadowBlur"]> textStyle in
      let textStyle :=
        <["textBoxShadowOffsetX" := getShallow textStyleModel "shadowOffsetX"]> textStyle in
      <["textBoxShadowOffsetY" := getShallow textStyleModel "shadowOffsetY"]> textStyle
    else textStyle in
  let textStyle :=
    <["textShadowColor" := jsOr (getShallow textStyleModel "textShadowColor")
                                (getProp globalTextStyle "textShadowColor")]> textStyle in
  let textStyle :=
    <["textShadowBlur" := jsOr (getShallow textStyleModel "textShadowBlur")
                               (getProp globalTextStyle "textShadowBlur")]> textStyle in
  let textStyle :=
    <["textShadowOffsetX" := jsOr (getShallow textStyleModel "textShadowOffsetX")
                                  (getProp globalTextStyle "textShadowOffsetX")]> textStyle in
  let textStyle :=
    <["textShadowOffsetY" := jsOr (getShallow textStyleModel "textShadowOffsetY")
                                  (getProp globalTextStyle "textShadowOffsetY")]> textStyle in
  textStyle.


Definition setTokenTextStyle (textStyle : obj) (textStyleModel : Model)
    (globalTextStyle : value) (opt : Opt) (noDefault isBlock : bool) : option obj :=
  let globalTextStyle :=
    if negb noDefault && truthy globalTextStyle then globalTextStyle else VObj ∅ in
  let textFill := getAutoColor (getShallow textStyleModel "color") opt in
  let textStroke := getAutoColor (getShallow textStyleModel "textBorderColor") opt in
  let textLineWidth := getShallow textStyleModel "textBorderWidth" in
  '(textFill, textStroke, textLineWidth) ←
    (if negb noDefault then
       defaultFillStroke textStyleModel globalTextStyle opt
                         (get textStyle "textPosition") textFill textStroke textLineWidth
     else Some (textFill, textStroke, textLineWidth));
  Some (writeTokenTextStyle textStyle textStyleModel globalTextStyle opt isBlock
                            textFill textStroke textLineWidth).

(** The box properties of a resolved style and the model value each is
    read from. *)
Definition boxProperties (textStyleModel : Model) (opt : Opt) : list (string * value) :=
  [("textBackgroundColor", getAutoColor (getShallow textStyleModel "backgroundColor") opt);
   ("textPadding", getShallow textStyleModel "padding");
   ("textBorderColor", getAutoColor (getShallow textStyleModel "borderColor") opt);
   ("textBorderWidth", getShallow textStyleModel "borderWidth");
   ("textBorderRadius", getShallow textStyleModel "borderRadius");
   ("textBoxShadowColor", getShallow textStyleModel "shadowColor");
   ("textBoxShadowBlur", getShallow textStyleModel "shadowBlur");
   ("textBoxShadowOffsetX", getShallow textStyleModel "shadowOffsetX");
   ("textBoxShadowOffsetY", getShallow textStyleModel "shadowOffsetY")].

(** [checkInside], the default one included, returns on the model and
    position it is called with by the block resolution, and on every call
    when it is supplied by the caller. *)
Definition checkInsideReturns (opt : Opt) (textStyleModel : Model) (textPosition : value)
  : Prop :=
  match checkInside opt with
  | CheckInsideFn f => ∀ m position, is_Some (f m position)
  | CheckInsideFalse => True
  | CheckInsideUnset =>
      isRectText opt = true → is_Some (defaultCheckInside textStyleModel textPosition)
  end.

(** [ecModel && ecModel.option.textStyle] *)
Definition globalTextStyleOf (textStyleModel : Model) : value :=
  match ecModel textStyleModel with
  | Some ecModel => get (ecOption ecModel) "textStyle"
  | None => VUndef
  end.

(** The nodes [getRichItemNames] visits: from the node up its parent
    chain, stopping before a node that is its own [ecModel]. *)
Fixpoint chainToRoot (m : Model) : list Model :=
  match m with
  | mkModel _ parent _ isEc =>
      if isEc then []
      else m :: match parent with Some parent => chainToRoot parent | None => [] end
  end.

(** The [rich] option a node declares, the token names declared along the
    chain, and whether any node of the chain declares a (truthy) [rich]. *)
Definition declaredRich (n : Model) : value :=
  getProp (jsOr (modelOption n) (VObj ∅)) "rich".

Definition richNames (m : Model) : gset string :=
  ⋃ ((λ n, list_to_set (ownNames (declaredRich n))) <$> chainToRoot m).

Definition declaresRich (m : Model) : bool :=
  existsb (λ n, truthy (declaredRich n)) (chainToRoot m).

(** Example models: a label model with a box background and a rich token
    [a], and options that disable the box. *)
Definition exampleLabelModel : Model :=
  mkModel (VObj (<["rich" := VObj {["a" := VObj {["backgroundColor" := VStr "red"]}]}]>
                   {["backgroundColor" := VStr "blue"]}))
          None None false.

Definition exampleTokenModel : Model :=
  mkModel (VObj {["backgroundColor" := VStr "red"]}) None None false.

Definition optDisableBox : Opt :=
  mkOpt true false VUndef CheckInsideUnset false VUndef VUndef None VUndef VUndef.

(** The properties [setTextStyleCommon] writes on the block node, each
    with the model keys it is read from: the rect-text ones under
    [isRectText], the box ones unless [disableBox]. *)
Definition resolvedFrom (opt : Opt) : list (string * list string) :=
  (if isRectText opt then
     [("textPosition", ["position"]); ("textOffset", ["offset"]);
      ("textRotation", ["rotate"]); ("textDistance", ["distance"])]
   else [])
  ++ [("textFill", ["color"]); ("textStroke", ["textBorderColor"]);
      ("textLineWidth", ["textBorderWidth"]);
      ("fontStyle", ["fontStyle"]); ("fontWeight", ["fontWeight"]);
      ("fontSize", ["fontSize"]); ("fontFamily", ["fontFamily"]);
      ("textAlign", ["align"]); ("textVerticalAlign", ["verticalAlign"; "baseline"]);
      ("textLineHeight", ["lineHeight"]); ("textWidth", ["width"]);
      ("textHeight", ["height"]); ("textTag", ["tag"]);
      ("textShadowColor", ["textShadowColor"]); ("textShadowBlur", ["textShadowBlur"]);
      ("textShadowOffsetX", ["textShadowOffsetX"]);
      ("textShadowOffsetY", ["textShadowOffsetY"])]
  ++ (if disableBox opt then []
      else
        [("textBackgroundColor", ["backgroundColor"]); ("textPadding", ["padding"]);
         ("textBorderColor", ["borderColor"]); ("textBorderWidth", ["borderWidth"]);
         ("textBorderRadius", ["borderRadius"]); ("textBoxShadowColor", ["shadowColor"]);
         ("textBoxShadowBlur", ["shadowBlur"]);
         ("textBoxShadowOffsetX", ["shadowOffsetX"]);
         ("textBoxShadowOffsetY", ["shadowOffsetY"])]).

(** Whether the node itself declares a (non-null) value for [key]. *)
Definition declaresKey (n : Model) (key : string) : bool :=
  negb (nullish (getProp (modelOption n) key)).

(** An emphasis label model that shows the label and declares no colour,
    under a global model whose theme has a text colour; options with an
    auto colour for a label in a rectangle. *)
Definition exampleEmphasisModel : Model :=
  mkModel (VObj {["show" := VBool true]}) None
          (Some {| ecOption := {["textStyle" := VObj {["color" := VStr "#333"]}]} |})
          false.

Definition optRectText : Opt :=
  mkOpt false true (VStr "#123456") CheckInsideUnset false VUndef VUndef None VUndef VUndef.

(** The text content [setLabelStyle] computes for one state: [null] when
    the model does not show the label, else the formatted label, or
    [fallback] when there is no formatter or it gives nothing. *)
Definition labelText (opt : Opt) (model : Model) (state : string) (fallback : value)
  : value :=
  if truthy (getShallow model "show") then
    retrieve2 (match labelFetcher opt with
               | Some getFormattedLabel =>
                   getFormattedLabel (labelDataIndex opt) state (labelDimIndex opt)
               | None => VNull
               end)
              fallback
  else VNull.

(** Label models that hide the label, and options with a formatter. *)
Definition exampleHiddenModel : Model :=
  mkModel (VObj {["show" := VBool false]}) None None false.

Definition optWithFormatter : Opt :=
  mkOpt false true VUndef CheckInsideUnset false VUndef (VStr "default")
        (Some (λ _ state _, VStr state)) (VNum 0) VUndef.

(** A model whose only declaration is an empty [rich], and a child with no
    declaration of its own under the label model of the example. *)
Definition exampleEmptyRichModel : Model :=
  mkModel (VObj {["rich" := VObj ∅]}) None None false.

Definition exampleChildModel : Model :=
  mkModel (VObj ∅) (Some exampleLabelModel) None false.

(** A stand-in for the conversion to radians; no example rotates a label. *)
Definition exampleRadians : Radians := {| degToRad := λ v, v |}.

Section text.
Context `{Radians}.

(** [textStyle.textPosition] as the block resolution of
    [setTextStyleCommon] reads it. *)
Definition blockTextPosition (textStyle : obj) (textStyleModel : Model) (opt : Opt)
    (noDefault : bool) : value :=
  if isRectText opt then
    let textPosition :=
      jsOr (getShallow textStyleModel "position")
           (if noDefault then VNull else VStr "inside") in
    if isStr textPosition "outside" then VStr "top" else textPosition
  else get textStyle "textPosition".

(** The [if (opt.isRectText)] block of [setTextStyleCommon]. *)
Definition writeRectText (textStyle : obj) (textStyleModel : Model) (opt : Opt)
    (noDefault : bool) : obj :=
  if isRectText opt then
    let textPosition :=
      jsOr (getShallow textStyleModel "position")
           (if noDefault then VNull else VStr "inside") in
    let textPosition :=
      if isStr textPosition "outside" then VStr "top" else textPosition in
    let textStyle := <["textPosition" := textPosition]> textStyle in
    let textStyle := <["textOffset" := getShallow textStyleModel "offset"]> textStyle in
    let labelRotate := getShallow textStyleModel "rotate" in
    let labelRotate :=
      if negb (nullish labelRotate) then degToRad labelRotate else labelRotate in
    let textStyle := <["textRotation" := labelRotate]> textStyle in
    <["textDistance" := retrieve2 (getShallow textStyleModel "distance")
                                  (if noDefault then VNull else VNum 5)]> textStyle
  else textStyle.

(** The [for (name in richItemNames)] loop of [setTextStyleCommon]. *)
Definition resolveRichItems (textStyleModel : Model) (globalTextStyle : value)
    (opt : Opt) (noDefault : bool) (richItemNames : obj) : option obj :=
  map_fold (λ name _ (richResult : option obj),
              richResult ← richResult;
              let richTextStyle := getModel textStyleModel ["rich"; name] in
              token ← setTokenTextStyle ∅ richTextStyle globalTextStyle
                                        opt noDefault false;
              Some (<[name := VObj token]> richResult))
           (Some ∅) richItemNames.

Definition setTextStyleCommon (textStyle : obj) (textStyleModel : Model)
    (opt : option Opt) (noDefault : bool) : option (obj * Opt) :=
  let opt := default EMPTY_OBJ opt in
  let textStyle := writeRectText textStyle textStyleModel opt noDefault in
  let globalTextStyle := globalTextStyleOf textStyleModel in
  let richItemNames := getRichItemNames textStyleModel in
  richResult ←
    match richItemNames with
    | Some richItemNames =>
        VObj <$> resolveRichItems textStyleModel globalTextStyle opt noDefault richItemNames
    | None => Some VUndef
    end;
  let textStyle := <["rich" := richResult]> textStyle in
  textStyle ← setTokenTextStyle textStyle textStyleModel globalTextStyle opt noDefault true;
  let opt :=
    if forceRich opt && negb (truthy (opt_textStyle opt))
    then set_textStyle (VObj ∅) opt else opt in
  Some (textStyle, opt).

(** [textStyle.host.dirty(false)], a repaint request on the host element,
    writes nothing the resolver returns and is left out. *)
Definition setTextStyle (textStyle : obj) (textStyleModel : Model)
    (specifiedTextStyle : option obj) (opt : option Opt) (noDefault : bool)
  : option (obj * Opt) :=
  '(textStyle, opt) ← setTextStyleCommon textStyle textStyleModel opt noDefault;
  let textStyle :=
    match specifiedTextStyle with
    | Some specifiedTextStyle => extend textStyle specifiedTextStyle
    | None => textStyle
    end in
  Some (textStyle, opt).

(** The calls [setLabelStyle] makes, in order. *)
Inductive call :=
| CallGetFormattedLabel (state : string)
| CallSetTextStyle (noDefault : bool).

(** [setLabelStyle] returns the two style records it has written and the
    calls it has made. [getRichItemNames] is reached through [setTextStyle]
    only. *)
Definition setLabelStyle (normalStyle emphasisStyle : obj)
    (normalModel emphasisModel : Model) (opt : option Opt)
    (normalSpecified emphasisSpecified : option obj)
  : option (obj * obj * list call) :=
  let opt := default EMPTY_OBJ opt in
  let '(normalStyleText, calls) :=
    if truthy (getShallow normalModel "show") then
      match labelFetcher opt with
      | Some getFormattedLabel =>
          (retrieve2 (getFormattedLabel (labelDataIndex opt) "normal" (labelDimIndex opt))
                     (defaultText opt),
           [CallGetFormattedLabel "normal"])
      | None => (retrieve2 VNull (defaultText opt), [])
      end
    else (VNull, []) in
  let '(emphasisStyleText, calls) :=
    if truthy (getShallow emphasisModel "show") then
      match labelFetcher opt with
      | Some getFormattedLabel =>
          (retrieve2 (getFormattedLabel (labelDataIndex opt) "emphasis" (labelDimIndex opt))
                     normalStyleText,
           calls ++ [CallGetFormattedLabel "emphasis"])
      | None => (retrieve2 VNull normalStyleText, calls)
      end
    else (VNull, calls) in
  '(normalStyle, emphasisStyle, calls) ←
    (if negb (nullish normalStyleText) || negb (nullish emphasisStyleText) then
       '(normalStyle, opt) ← setTextStyle normalStyle normalModel normalSpecified
                                           (Some opt) false;
       '(emphasisStyle, _) ← setTextStyle emphasisStyle emphasisModel emphasisSpecified
                                           (Some opt) true;
       Some (normalStyle, emphasisStyle,
             calls ++ [CallSetTextStyle false; CallSetTextStyle true])
     else Some (normalStyle, emphasisStyle, calls));
  let normalStyle := <["text" := normalStyleText]> normalStyle in
  let emphasisStyle := <["text" := emphasisStyleText]> emphasisStyle in
  Some (normalStyle, emphasisStyle, calls).

End text.

(** *** Further vocabulary of the text-style functions *)

(** [checkInside] as [setTokenTextStyle] calls it in default mode: the
    caller's function, the default one for a label in a rectangle when the
    option is unset, none when it is [false]. *)
Definition effectiveCheckInside (opt : Opt) : option (Model → value → option value) :=
  match checkInside opt with
  | CheckInsideFn f => Some f
  | CheckInsideFalse => None
  | CheckInsideUnset => if isRectText opt then Some defaultCheckInside else None
  end.

(** The properties [setTokenTextStyle] can write, and the rect-text ones
    [setTextStyleCommon] writes before it. *)
Definition tokenStyleKeys : list string :=
  ["textFill"; "textStroke"; "textLineWidth"; "fontStyle"; "fontWeight"; "fontSize";
   "fontFamily"; "textAlign"; "textVerticalAlign"; "textLineHeight"; "textWidth";
   "textHeight"; "textTag"; "textBackgroundColor"; "textPadding"; "textBorderColor";
   "textBorderWidth"; "textBorderRadius"; "textBoxShadowColor"; "textBoxShadowBlur";
   "textBoxShadowOffsetX"; "textBoxShadowOffsetY"; "textShadowColor"; "textShadowBlur";
   "textShadowOffsetX"; "textShadowOffsetY"].

Definition rectTextKeys : list string :=
  ["textPosition"; "textOffset"; "textRotation"; "textDistance"].

(** The fill, stroke and stroke width of a node before the positional
    default: the declared value, with ['auto'] resolved for the colours,
    else the one of the global text style [g]. *)
Definition themedFill (m : Model) (g : value) (opt : Opt) : value :=
  let declared := getAutoColor (getShallow m "color") opt in
  if nullish declared then getProp (if truthy g then g else VObj ∅) "color" else declared.

Definition themedStroke (m : Model) (g : value) (opt : Opt) : value :=
  let declared := getAutoColor (getShallow m "textBorderColor") opt in
  if nullish declared then getProp (if truthy g then g else VObj ∅) "textBorderColor"
  else declared.

Definition themedLineWidth (m : Model) (g : value) : value :=
  let declared := getShallow m "textBorderWidth" in
  if nullish declared then getProp (if truthy g then g else VObj ∅) "textBorderWidth"
  else declared.

(** The [opt] and [noDefault] that [graphic.setText] passes on. *)
Definition setTextOpt (defaultColor : value) : Opt * bool :=
  let opt := mkOpt false true VUndef CheckInsideUnset false VUndef VUndef None VUndef VUndef in
  match defaultColor with
  | VBool false => (opt, true)
  | _ =>
      (mkOpt false true defaultColor (CheckInsideFn defaultCheckInside) false
             VUndef VUndef None VUndef VUndef, false)
  end.

Section setText_def.
Context `{Radians}.

(** [graphic.setText] (deprecated): a label in a rectangle, resolved in
    no-default mode when [defaultColor === false], else with
    [defaultColor] as auto colour and the default [checkInside]. The
    repaint request on the host is left out, as in [setTextStyle]. *)
Definition setText (textStyle : obj) (labelModel : Model) (defaultColor : value)
  : option obj :=
  let '(opt, noDefault) := setTextOpt defaultColor in
  fst <$> setTextStyleCommon textStyle labelModel (Some opt) noDefault.

End setText_def.

(** *** Further examples *)

(** Elements of further examples: one drawn on the hover layer of its
    renderer, one holding an old snapshot with the dirty flag clear, and
    one that is hovering. *)
Definition exampleLayerLeaf : elData :=
  ElData (style exampleLeaf) None (Some 1) None true false false false true
         (Some NoOverlay) 0 false ∅.

Definition exampleStaleLeaf : elData :=
  set_normalStl (Some {["fill" := VStr "black"]}) (set_hoverStl (Some 1) exampleLeaf).

Definition exampleHoveringLeaf : elData := set_isHover true exampleLeaf.

(** A label model with its colours left to the caller, and options with
    a default text. *)
Definition exampleAutoModel : Model :=
  mkModel (VObj (<["textBorderColor" := VStr "auto"]> {["color" := VStr "auto"]}))
          None None false.

Definition optDefaultText : Opt :=
  mkOpt false true VUndef CheckInsideUnset false VUndef (VStr "default") None VUndef VUndef.

(** ** Fonts *)

(** ToString on the values of this file; a number is an integer and
    prints in decimal, an array prints its items separated by commas, an
    object is a plain one. *)
Fixpoint toString (v : value) : string :=
  match v with
  | VUndef => "undefined"
  | VNull => "null"
  | VBool b => if b then "true" else "false"
  | VNum z => pretty z
  | VStr s => s
  | VArr l =>
      (fix items (l : list value) : string :=
         match l with
         | [] => ""
         | [v] => if nullish v then "" else toString v
         | v :: l => (if nullish v then "" else toString v) +:+ "," +:+ items l
         end) l
  | VObj _ => "[object Object]"
  end.

(** [array.join(separator)]: a null or undefined item prints as the empty
    string. *)
Fixpoint join (array : list value) (separator : string) : string :=
  match array with
  | [] => ""
  | [v] => if nullish v then "" else toString v
  | v :: array =>
      (if nullish v then "" else toString v) +:+ separator +:+ join array separator
  end.

(** [graphic.getFont]. [ecModel || ecModel.getModel('textStyle')] is
    [ecModel] when there is one and raises when there is none, the call
    being on [undefined]. *)
Definition getFont (opt : obj) (ecModel : option Model) : option string :=
  match ecModel with
  | None => None
  | Some gTextStyleModel =>
      Some (join
        [jsOr (jsOr (get opt "fontStyle") (getShallow gTextStyleModel "fontStyle"))
              (VStr "");
         jsOr (jsOr (get opt "fontWeight") (getShallow gTextStyleModel "fontWeight"))
              (VStr "");
         VStr (toString
                 (jsOr (jsOr (get opt "fontSize") (getShallow gTextStyleModel "fontSize"))
                       (VNum 12))
               +:+ "px");
         jsOr (jsOr (get opt "fontFamily") (getShallow gTextStyleModel "fontFamily"))
              (VStr "sans-serif")]
        " ")
  end.

(** A global model whose text style sets a font, and one that sets the
    font size at top level. *)
Definition exampleGlobalModel : Model :=
  mkModel (VObj {["textStyle" := VObj {["fontSize" := VNum 18]}]}) None None true.

(** ** Pixel snapping

    Positions are rationals, as every finite double is; doubling,
    rounding to an integer, adding one and halving are exact on doubles. *)

(** [Math.round]: the nearest integer, a tie going up. *)
Definition round (x : Q) : Z := Qfloor (x + (1 # 2))%Q.

(** [subPixelOptimize]. [lineWidth] is [None] when it is [undefined]: its
    rounding is [NaN] then and the parity test fails. *)
Definition subPixelOptimize (position : Q) (lineWidth : option Q)
    (positiveOrNegative : bool) : Q :=
  let doubledPosition := round (position * 2)%Q in
  if match lineWidth with
     | Some lineWidth => (Z.rem (doubledPosition + round lineWidth) 2 =? 0)%Z
     | None => false
     end
  then (inject_Z doubledPosition / 2)%Q
  else (inject_Z (doubledPosition + (if positiveOrNegative then 1 else -1)) / 2)%Q.

Module LineShape.
Record t := make { x1 : Q; y1 : Q; x2 : Q; y2 : Q }.
End LineShape.

Module RectShape.
Record t := make { x : Q; y : Q; width : Q; height : Q }.
End RectShape.

(** [subPixelOptimizeLine], on the shape of [param]; [lineWidth] is
    [param.style.lineWidth]. *)
Definition subPixelOptimizeLine (shape : LineShape.t) (lineWidth : option Q)
  : LineShape.t :=
  let shape :=
    if (round (LineShape.x1 shape * 2)%Q =? round (LineShape.x2 shape * 2)%Q)%Z then
      let x := subPixelOptimize (LineShape.x1 shape) lineWidth true in
      LineShape.make x (LineShape.y1 shape) x (LineShape.y2 shape)
    else shape in
  if (round (LineShape.y1 shape * 2)%Q =? round (LineShape.y2 shape * 2)%Q)%Z then
    let y := subPixelOptimize (LineShape.y1 shape) lineWidth true in
    LineShape.make (LineShape.x1 shape) y (LineShape.x2 shape) y
  else shape.

Section subPixelOptimizeRect_def.
(** The sum of two doubles, which is rounded. *)
Variable add : Q → Q → Q.

(** [subPixelOptimizeRect], on the shape of [param]. The difference it
    takes is one of two half-integers and is exact. *)
Definition subPixelOptimizeRect (shape : RectShape.t) (lineWidth : option Q)
  : RectShape.t :=
  let originX := RectShape.x shape in
  let originY := RectShape.y shape in
  let originWidth := RectShape.width shape in
  let originHeight := RectShape.height shape in
  let x := subPixelOptimize originX lineWidth true in
  let y := subPixelOptimize originY lineWidth true in
  RectShape.make x y
    (Qmax (subPixelOptimize (add originX originWidth) lineWidth false - x)%Q
          (if Qeq_bool originWidth 0 then 0 else 1)%Q)
    (Qmax (subPixelOptimize (add originY originHeight) lineWidth false - y)%Q
          (if Qeq_bool originHeight 0 then 0 else 1)%Q).

End subPixelOptimizeRect_def.

(** A position whose stroke of the given width has its edges on pixel
    borders: with half the rounded width it makes an integer. *)
Definition onPixelBorder (lineWidth position : Q) : Prop :=
  ∃ k : Z, (position + inject_Z (round lineWidth) / 2 == inject_Z k)%Q.

(** ** Clipping

    Coordinates are integers, as the numbers of this file are; sums and
    differences of integers are exact in the source. *)

Module Rect.
Record t := make { x : Z; y : Z; width : Z; height : Z }.
End Rect.

Definition clipPointsByRect (points : list (Z * Z)) (rect : Rect.t) : list (Z * Z) :=
  map (λ point,
         let x := point.1 in
         let x := Z.max x (Rect.x rect) in
         let x := Z.min x (Rect.x rect + Rect.width rect) in
         let y := point.2 in
         let y := Z.max y (Rect.y rect) in
         let y := Z.min y (Rect.y rect + Rect.height rect) in
         (x, y))
      points.

(** [clipRectByRect] returns [undefined], here [None], when the
    rectangles do not meet. *)
Definition clipRectByRect (targetRect rect : Rect.t) : option Rect.t :=
  let x := Z.max (Rect.x targetRect) (Rect.x rect) in
  let x2 := Z.min (Rect.x targetRect + Rect.width targetRect)
                  (Rect.x rect + Rect.width rect) in
  let y := Z.max (Rect.y targetRect) (Rect.y rect) in
  let y2 := Z.min (Rect.y targetRect + Rect.height targetRect)
                  (Rect.y rect + Rect.height rect) in
  if (x2 >=? x)%Z && (y2 >=? y)%Z
  then Some (Rect.make x y (x2 - x) (y2 - y))
  else None.

(** The points of a rectangle, its border included. *)
Definition contains (rect : Rect.t) (point : Z * Z) : Prop :=
  (Rect.x rect ≤ point.1 ≤ Rect.x rect + Rect.width rect)%Z ∧
  (Rect.y rect ≤ point.2 ≤ Rect.y rect + Rect.height rect)%Z.

(** * Properties *)

(** ** Values and objects *)

Lemma nullish_not_truthy v : nullish v = true → truthy v = false.
Proof. by destruct v. Qed.

Lemma jsOr_nullish a b : nullish a = true → jsOr a b = b.
Proof. intros Ha. unfold jsOr. by rewrite nullish_not_truthy. Qed.

Lemma jsOr_falsy_nullish a b :
  nullish b = true → truthy (jsOr a b) = false → nullish (jsOr a b) = true.
Proof. unfold jsOr. destruct (truthy a) eqn:Ha; [congruence | done]. Qed.

Lemma extend_union target source : extend target source = source ∪ target.
Proof.
  unfold extend.
  apply (map_fold_weak_ind (λ r m, r = m ∪ target)).
  - by rewrite (left_id_L ∅ (∪)).
  - intros i x m r _ ->. by rewrite insert_union_l.
Qed.

Lemma get_extend target source k :
  get (extend target source) k =
  match source !! k with Some v => v | None => get target k end.
Proof.
  unfold get. rewrite extend_union, lookup_union.
  destruct (source !! k), (target !! k); done.
Qed.

Lemma lookup_extendFrom this other overwrite k :
  extendFrom this (Some other) overwrite !! k =
  match other !! k with
  | Some v => if overwrite || negb (nullish v) then Some v else this !! k
  | None => this !! k
  end.
Proof.
  unfold extendFrom.
  apply (map_fold_weak_ind (λ r (m : obj),
    r !! k = match m !! k with
             | Some v => if overwrite || negb (nullish v) then Some v else this !! k
             | None => this !! k
             end)).
  - by rewrite lookup_empty.
  - intros i x m r Hi IH. destruct (decide (i = k)) as [->|Hne].
    + rewrite lookup_insert_eq. rewrite Hi in IH.
      destruct (overwrite || negb (nullish x)); [by rewrite lookup_insert_eq | done].
    + rewrite (lookup_insert_ne m) by done.
      destruct (overwrite || negb (nullish x)); [by rewrite lookup_insert_ne | done].
Qed.

(** ** Hover: the snapshot *)

Ltac munfold :=
  unfold mbind, mret, M_bind, M_ret, deref, load, store, alloc, raise in *.

Section hover_facts.
Context `{ZRender}.

Lemma lookup_captureNormalStyle st hoverStyle k :
  captureNormalStyle st hoverStyle !! k =
  match hoverStyle !! k with
  | Some v => if negb (nullish v) then Some (readStyle st k) else None
  | None => None
  end.
Proof.
  unfold captureNormalStyle.
  apply (map_fold_weak_ind (λ r (m : obj),
    r !! k = match m !! k with
             | Some v => if negb (nullish v) then Some (readStyle st k) else None
             | None => None
             end)).
  - by rewrite !lookup_empty.
  - intros i x m r Hi IH. destruct (decide (i = k)) as [->|Hne].
    + rewrite lookup_insert_eq. rewrite Hi in IH.
      destruct (negb (nullish x)); [by rewrite lookup_insert_eq | done].
    + rewrite (lookup_insert_ne m) by done.
      destruct (negb (nullish x)); [by rewrite lookup_insert_ne | done].
Qed.

(** Merging a hover style and then replacing with the snapshot captured
    before the merge reads back the style before the merge, at every key. *)
Lemma readStyle_restore st hoverStyle k :
  readStyle (extendFrom (extendFrom st (Some hoverStyle) false)
                        (Some (captureNormalStyle st hoverStyle)) true) k
  = readStyle st k.
Proof.
  unfold readStyle.
  rewrite lookup_extendFrom, lookup_captureNormalStyle, lookup_extendFrom. simpl.
  destruct (hoverStyle !! k) as [v|]; [|done].
  destruct (negb (nullish v)); [|done].
  reflexivity.
Qed.

(** *** Equations of the leaf operations *)

Lemma validRef_lookup (h : heap) l : validRef h (Some l) = true → is_Some (h !! l).
Proof. simpl. intros Hl%bool_decide_eq_true. by apply lookup_lt_is_Some. Qed.

Lemma validRef_mono (h h' : heap) r :
  length h ≤ length h' → validRef h r = true → validRef h' r = true.
Proof.
  destruct r as [l|]; [|done]. simpl. intros Hle Hl%bool_decide_eq_true.
  apply bool_decide_eq_true. lia.
Qed.

Lemma wfRefs_mono (h h' : heap) el :
  length h ≤ length h' → wfRefs h el = true → wfRefs h' el = true.
Proof.
  unfold wfRefs. intros Hle [[H1 H2]%andb_prop H3]%andb_prop.
  rewrite (validRef_mono h h' _ Hle H1), (validRef_mono h h' _ Hle H2). done.
Qed.

Lemma cacheElementStl_clean el h :
  __hoverStlDirty el = false → cacheElementStl el h = Some (el, h).
Proof. intros Hd. unfold cacheElementStl. by rewrite Hd. Qed.

Lemma cacheElementStl_dirty el h l hs :
  __hoverStlDirty el = true → __hoverStl el = Some l → h !! l = Some hs →
  cacheElementStl el h =
  Some (set_hoverStlDirty false
          (set_normalStl
             (Some (captureNormalStyle (style el) (hoverStyleOnCapture (style el) hs))) el),
        <[l := hoverStyleOnCapture (style el) hs]> h).
Proof.
  intros Hd Hl Hh. unfold cacheElementStl. rewrite Hd, Hl. munfold. simpl.
  rewrite Hh. simpl. rewrite Hh. reflexivity.
Qed.

Lemma cacheElementStl_total el h :
  wfRefs h el = true → is_Some (cacheElementStl el h).
Proof.
  unfold wfRefs. intros [[_ H2]%andb_prop H3]%andb_prop.
  destruct (__hoverStlDirty el) eqn:Hd.
  - apply bool_decide_eq_true in H3 as [l Hl]. rewrite Hl in H2.
    destruct (validRef_lookup _ _ H2) as [hs Hh].
    by rewrite (cacheElementStl_dirty el h l hs).
  - by rewrite cacheElementStl_clean.
Qed.

Lemma cacheElementStl_inv el h el' h' :
  cacheElementStl el h = Some (el', h') →
  (__hoverStlDirty el = false ∧ el' = el ∧ h' = h) ∨
  (∃ l hs, __hoverStlDirty el = true ∧ __hoverStl el = Some l ∧ h !! l = Some hs ∧
     el' = set_hoverStlDirty false
             (set_normalStl
                (Some (captureNormalStyle (style el) (hoverStyleOnCapture (style el) hs)))
                el) ∧
     h' = <[l := hoverStyleOnCapture (style el) hs]> h).
Proof.
  intros Hc. destruct (__hoverStlDirty el) eqn:Hd.
  - right. destruct (__hoverStl el) as [l|] eqn:Hl.
    + destruct (h !! l) as [hs|] eqn:Hh.
      * rewrite (cacheElementStl_dirty el h l hs) in Hc by done.
        injection Hc as <- <-. by exists l, hs.
      * unfold cacheElementStl in Hc. rewrite Hd, Hl in Hc. munfold. simpl in Hc.
        by rewrite Hh in Hc.
    + unfold cacheElementStl in Hc. rewrite Hd, Hl in Hc. done.
  - left. rewrite cacheElementStl_clean in Hc by done. by injection Hc as <- <-.
Qed.

Lemma doSingleEnterHover_hovering el h :
  __isHover el = true → doSingleEnterHover el h = Some (el, h).
Proof. intros Hh. unfold doSingleEnterHover. by rewrite Hh. Qed.

Lemma doSingleEnterHover_inv el h el1 h1 :
  doSingleEnterHover el h = Some (el1, h1) →
  (__isHover el = true ∧ el1 = el ∧ h1 = h) ∨
  (__isHover el = false ∧ ∃ elc,
     cacheElementStl el h = Some (elc, h1) ∧
     ((useHoverLayer elc = true ∧ el1 = enterOverlay elc) ∨
      (useHoverLayer elc = false ∧ ∃ delta,
         match __hoverStl elc with
         | Some l => h1 !! l = delta
         | None => delta = None
         end ∧
         (is_Some (__hoverStl elc) → is_Some delta) ∧
         el1 = enterStyle delta elc))).
Proof.
  intros He. destruct (__isHover el) eqn:Hh.
  - left. rewrite doSingleEnterHover_hovering in He by done. by injection He as <- <-.
  - right. split; [done|]. unfold doSingleEnterHover in He. rewrite Hh in He.
    munfold. destruct (cacheElementStl el h) as [[elc hc]|] eqn:Hc; [|done].
    exists elc. destruct (useHoverLayer elc) eqn:Hu.
    + simpl in He. injection He as <- <-. split; [done|]. by left.
    + destruct (__hoverStl elc) as [l|] eqn:Hl.
      * destruct (hc !! l) as [d|] eqn:Hd; simpl in He; [|done].
        injection He as <- <-. split; [done|]. right. split; [done|].
        exists (Some d). by eauto.
      * simpl in He. injection He as <- <-. split; [done|]. right. split; [done|].
        exists None. split; [done|]. split; [by intros [? ?]|done].
Qed.

Lemma doSingleEnterHover_total el h :
  wfRefs h el = true → is_Some (doSingleEnterHover el h).
Proof.
  intros Hwf. destruct (__isHover el) eqn:Hh.
  - by rewrite doSingleEnterHover_hovering.
  - destruct (cacheElementStl_total el h Hwf) as [[elc hc] Hc].
    unfold doSingleEnterHover. rewrite Hh. munfold. rewrite Hc.
    destruct (useHoverLayer elc); [done|].
    assert (__hoverStl elc = __hoverStl el ∧ length hc = length h) as [Hl Hlen].
    { destruct (cacheElementStl_inv _ _ _ _ Hc) as [(_ & -> & ->)|(l & hs & _ & _ & _ & -> & ->)];
        [done|]. by rewrite length_insert. }
    rewrite Hl. destruct (__hoverStl el) as [l|] eqn:Hl'; [|done].
    assert (is_Some (hc !! l)) as [d Hd].
    { apply lookup_lt_is_Some. rewrite Hlen. unfold wfRefs in Hwf. rewrite Hl' in Hwf.
      simpl in Hwf. apply andb_prop in Hwf as [[_ Hv%bool_decide_eq_true]%andb_prop _].
      done. }
    by rewrite Hd.
Qed.

Lemma doSingleLeaveHover_eq el h : doSingleLeaveHover el h = Some (leaveResult el, h).
Proof.
  unfold doSingleLeaveHover, leaveResult. by destruct (negb (__isHover el)).
Qed.

Lemma setElementHoverStl_normal el hoverStl h :
  __isHover el = false →
  setElementHoverStl el hoverStl h =
  match hoverStyle el, hoverStl with
  | Some l, _ | None, Some l =>
      Some (set_hoverStlDirty true (set_hoverStl (Some l) el), h)
  | None, None =>
      Some (set_hoverStlDirty true (set_hoverStl (Some (length h)) el), h ++ [∅])
  end.
Proof.
  intros Hh. unfold setElementHoverStl. munfold.
  destruct (hoverStyle el) as [l|]; [|destruct hoverStl as [l|]]; simpl; by rewrite Hh.
Qed.

(** Entering from the normal state with a pending capture, then leaving. *)
Lemma enter_leave_dirty el h l hs :
  __isHover el = false → __hoverStlDirty el = true →
  __hoverStl el = Some l → h !! l = Some hs →
  ∃ el1 el2,
    doSingleEnterHover el h = Some (el1, <[l := hoverStyleOnCapture (style el) hs]> h) ∧
    doSingleLeaveHover el1 (<[l := hoverStyleOnCapture (style el) hs]> h)
      = Some (el2, <[l := hoverStyleOnCapture (style el) hs]> h) ∧
    __isHover el1 = true ∧ __isHover el2 = false ∧
    z2 el2 = z2 el ∧
    (∀ k, readStyle (style el2) k = readStyle (style el) k) ∧
    (useHoverLayer el = false →
       style el1 = extendFrom (style el) (Some (hoverStyleOnCapture (style el) hs)) false ∧
       z2 el1 = (z2 el + 1)%Z) ∧
    (useHoverLayer el = true → style el1 = style el ∧ z2 el1 = z2 el).
Proof.
  intros Hh Hd Hl Hs.
  assert (l < length h) as Hlt by (by eapply lookup_lt_Some).
  unfold doSingleEnterHover. rewrite Hh. munfold.
  rewrite (cacheElementStl_dirty el h l hs) by done. simpl.
  destruct (useHoverLayer el) eqn:Hu; simpl.
  - eexists _, _. split; [reflexivity|]. rewrite doSingleLeaveHover_eq.
    split; [reflexivity|]. unfold leaveResult.
    destruct (__zr el) eqn:Hz; simpl; rewrite Hu; simpl; rewrite ?Hz; simpl;
      repeat split; (done || congruence).
  - rewrite Hl. rewrite list_lookup_insert_eq by done. simpl.
    eexists _, _. split; [reflexivity|]. rewrite doSingleLeaveHover_eq.
    split; [reflexivity|]. unfold leaveResult. simpl. rewrite Hu. simpl.
    split; [done|]. split; [done|]. split; [lia|]. split; [|by split].
    intros k. apply readStyle_restore.
Qed.

(** *** Round trip *)


End hover_facts.


(** *** What the capture step writes *)

Section capture_footprint.
Context `{ZRender}.

Lemma set_normalStl_dirty_id el :
  set_hoverStlDirty (__hoverStlDirty el) (set_normalStl (__normalStl el) el) = el.
Proof. by destruct el. Qed.

Lemma lookup_hoverStyleOnCapture_ne st hs k :
  k ≠ "fill" → k ≠ "stroke" → hoverStyleOnCapture st hs !! k = hs !! k.
Proof.
  intros Hf Hs. unfold hoverStyleOnCapture. by rewrite !lookup_insert_ne.
Qed.

(** C10, as the code has it. [cacheElementStl] succeeds on a well-formed
    element; of the element it writes the snapshot [__normalStl] and the
    flag [__hoverStlDirty] only, so the rendered style, [z2] and the hover
    and emphasis flags are unchanged; of the heap it writes the [fill] and
    [stroke] entries of the pending hover style only, every other entry of
    that object and every other object being unchanged; with the flag
    clear it writes nothing at all. *)
Theorem cacheElementStl_footprint el h :
  wfRefs h el = true →
  ∃ el' h',
    cacheElementStl el h = Some (el', h') ∧
    (∃ snapshot, el' = set_hoverStlDirty false (set_normalStl snapshot el)) ∧
    style el' = style el ∧ z2 el' = z2 el ∧ __isHover el' = __isHover el ∧
    length h' = length h ∧
    (∀ l, __hoverStl el ≠ Some l → h' !! l = h !! l) ∧
    (∀ l o o' k, h !! l = Some o → h' !! l = Some o' →
       k ≠ "fill" → k ≠ "stroke" → o' !! k = o !! k) ∧
    (__hoverStlDirty el = false → el' = el ∧ h' = h).
Proof.
  intros Hwf. destruct (cacheElementStl_total el h Hwf) as [[el' h'] Hc].
  exists el', h'. split; [done|].
  destruct (cacheElementStl_inv _ _ _ _ Hc)
    as [(Hd & -> & ->)|(l & hs & Hd & Hl & Hs & -> & ->)].
  - split; [exists (__normalStl el); by rewrite <- Hd, set_normalStl_dirty_id|].
    repeat split; try done. intros l o o' k Ho Ho' _ _. congruence.
  - split; [by eexists|]. simpl. repeat split; try done.
    + by rewrite length_insert.
    + intros l' Hne. apply list_lookup_insert_ne. congruence.
    + intros l' o o' k Ho Ho' Hf Hst. destruct (decide (l = l')) as [<-|Hne].
      * rewrite list_lookup_insert_eq in Ho' by (by eapply lookup_lt_Some).
        injection Ho' as <-. rewrite lookup_hoverStyleOnCapture_ne by done. congruence.
      * rewrite list_lookup_insert_ne in Ho' by done. congruence.
    + congruence.
    + congruence.
Qed.

End capture_footprint.

Lemma cacheElementStl_footprint_witness :
  ∃ el' h',
    @cacheElementStl exampleZRender exampleConfigured exampleHeap = Some (el', h') ∧
    (∃ snapshot, el' = set_hoverStlDirty false (set_normalStl snapshot exampleConfigured)) ∧
    style el' = style exampleConfigured ∧ z2 el' = z2 exampleConfigured ∧
    __isHover el' = __isHover exampleConfigured ∧
    length h' = length exampleHeap ∧
    (∀ l, __hoverStl exampleConfigured ≠ Some l → h' !! l = exampleHeap !! l) ∧
    (∀ l o o' k, exampleHeap !! l = Some o → h' !! l = Some o' →
       k ≠ "fill" → k ≠ "stroke" → o' !! k = o !! k) ∧
    (__hoverStlDirty exampleConfigured = false → el' = exampleConfigured ∧ h' = exampleHeap).
Proof.
  apply (@cacheElementStl_footprint exampleZRender exampleConfigured exampleHeap). reflexivity.
Defined.

(** C10, as the claim has it, fails: with a pending capture on the element
    of the scenario and the hover style [{}] at location 0, the capture
    step writes [fill] and [stroke] into the hover style object. *)
Lemma cacheElementStl_alters_hover_style :
  ∃ el' h',
    @cacheElementStl exampleZRender exampleConfigured exampleHeap = Some (el', h') ∧
    exampleHeap !! 0 = Some ∅ ∧
    h' !! 0 = Some (<["stroke" := VNull]> {["fill" := VStr "lift(#336699)"]}) ∧
    h' ≠ exampleHeap.
Proof.
  eexists _, _. split; [vm_compute; reflexivity|].
  split; [reflexivity|]. split; [vm_compute; reflexivity|].
  intros Heq. apply (f_equal (λ h : heap, (h !! 0) ≫= (λ o : obj, o !! "fill"))) in Heq.
  vm_compute in Heq. discriminate.
Qed.

(** *** Default hover fill and stroke *)

Section default_fill.
Context `{ZRender}.

Lemma lookup_hoverStyleOnCapture_fill st hs :
  hoverStyleOnCapture st hs !! "fill"
  = Some (defaultFillOrStroke (get hs "fill") (readStyle st "fill")).
Proof. unfold hoverStyleOnCapture. by rewrite lookup_insert_ne, lookup_insert_eq. Qed.

Lemma lookup_hoverStyleOnCapture_stroke st hs :
  hoverStyleOnCapture st hs !! "stroke"
  = Some (defaultFillOrStroke (get hs "stroke") (readStyle st "stroke")).
Proof.
  unfold hoverStyleOnCapture. rewrite lookup_insert_eq. unfold get at 1.
  by rewrite lookup_insert_ne.
Qed.

Lemma hasFillOrStroke_spec v :
  hasFillOrStroke v = true ↔ v ≠ VUndef ∧ v ≠ VNull ∧ v ≠ VStr "none".
Proof.
  unfold hasFillOrStroke. split.
  - intros [Hn Hs]%andb_prop. repeat split; intros ->; done.
  - intros (Hu & Hn & Hs). destruct v; try done. simpl.
    destruct (String.eqb_spec s "none") as [->|]; done.
Qed.

(** The rule of the capture step for one of the two keys. *)
Lemma capture_default el h l hs key :
  key = "fill" ∨ key = "stroke" →
  __hoverStlDirty el = true → __hoverStl el = Some l → h !! l = Some hs →
  ∃ el' h' hs',
    cacheElementStl el h = Some (el', h') ∧ h' !! l = Some hs' ∧
    get hs' key =
      if truthy (get hs key) then get hs key
      else if hasFillOrStroke (readStyle (style el) key)
           then liftColor (readStyle (style el) key)
           else VNull.
Proof.
  intros Hkey Hd Hl Hs. eexists _, _, _.
  split; [by apply cacheElementStl_dirty|].
  split; [apply list_lookup_insert_eq; by eapply lookup_lt_Some|].
  unfold get at 1.
  destruct Hkey as [-> | ->];
    [rewrite lookup_hoverStyleOnCapture_fill | rewrite lookup_hoverStyleOnCapture_stroke];
    reflexivity.
Qed.

(** The scenario: live style [{fill: '#336699', stroke: 'none'}], hover
    style [{}]. *)
Lemma scenario_336699 el h l :
  style el = <["stroke" := VStr "none"]> {["fill" := VStr "#336699"]} →
  hoverStyle el = None → __isHover el = false → useHoverLayer el = false →
  h !! l = Some ∅ →
  nullish (lift "#336699" (QArith_base.Qmake (-1) 10)) = false →
  ∃ el0 el1 h1 el2 delta,
    setElementHoverStl el (Some l) h = Some (el0, h) ∧
    doSingleEnterHover el0 h = Some (el1, h1) ∧
    doSingleLeaveHover el1 h1 = Some (el2, h1) ∧
    h1 !! l = Some delta ∧
    get delta "fill" = lift "#336699" (QArith_base.Qmake (-1) 10) ∧
    get delta "stroke" = VNull ∧
    readStyle (style el1) "fill" = lift "#336699" (QArith_base.Qmake (-1) 10) ∧
    readStyle (style el1) "stroke" = VStr "none" ∧
    readStyle (style el2) "fill" = VStr "#336699" ∧
    readStyle (style el2) "stroke" = VStr "none".
Proof.
  intros Hst Hown Hh Hu Hl Hlift.
  pose (el0 := set_hoverStlDirty true (set_hoverStl (Some l) el)).
  destruct (enter_leave_dirty el0 h l ∅) as (el1 & el2 & He & Hlv & _ & _ & _ & Hk & Hs & _);
    try done.
  destruct (Hs Hu) as [Hs1 _]. change (style el0) with (style el) in Hs1, Hk.
  assert (hoverStyleOnCapture (style el) ∅ !! "fill"
          = Some (lift "#336699" (QArith_base.Qmake (-1) 10))) as Hf.
  { rewrite lookup_hoverStyleOnCapture_fill, Hst. done. }
  assert (hoverStyleOnCapture (style el) ∅ !! "stroke" = Some VNull) as Hsk.
  { rewrite lookup_hoverStyleOnCapture_stroke, Hst. done. }
  exists el0, el1, (<[l := hoverStyleOnCapture (style el) ∅]> h), el2,
         (hoverStyleOnCapture (style el) ∅).
  split; [rewrite setElementHoverStl_normal, Hown by done; done|].
  split; [exact He|]. split; [exact Hlv|].
  split; [apply list_lookup_insert_eq; by eapply lookup_lt_Some|].
  split; [unfold get; by rewrite Hf|]. split; [unfold get; by rewrite Hsk|].
  split; [|split; [|split]].
  - unfold readStyle. rewrite Hs1, lookup_extendFrom, Hf. simpl. by rewrite Hlift.
  - unfold readStyle. rewrite Hs1, lookup_extendFrom, Hsk. simpl. by rewrite Hst.
  - rewrite Hk. unfold readStyle. by rewrite Hst.
  - rewrite Hk. unfold readStyle. by rewrite Hst.
Qed.

Lemma setElementHoverStl_own_override el hoverStl h el' h' l0 :
  hoverStyle el = Some l0 → setElementHoverStl el hoverStl h = Some (el', h') →
  __hoverStl el' = Some l0 ∧ hoverStyle el' = Some l0.
Proof.
  intros Hown Hset. unfold setElementHoverStl in Hset. rewrite Hown in Hset.
  munfold. simpl in Hset. destruct (__isHover el).
  - apply cacheElementStl_inv in Hset
      as [(_ & -> & _)|(l & hs & _ & _ & _ & -> & _)]; done.
  - by injection Hset as <- <-.
Qed.

(** C4. When the pending hover style has no (truthy) [fill], respectively
    [stroke], the capture step sets it to [liftColor] of the live value if
    that is paintable ([hasFillOrStroke]: neither null, undefined nor
    ['none']) and to [null] otherwise, and keeps an explicit one;
    [liftColor] of a colour string is [lift(color, -0.1)]; the pending
    hover style is the element's own [hoverStyle] whenever it has one. For
    the live style [{fill: '#336699', stroke: 'none'}] and the hover style
    [{}], enter sets [fill] to the lifted ['#336699'] and leaves [stroke]
    at ['none'] (the hover stroke is [null]), and leave sets [fill] back
    to ['#336699']. *)
Theorem default_hover_fill_stroke :
  (∀ el h l hs key,
     key = "fill" ∨ key = "stroke" →
     __hoverStlDirty el = true → __hoverStl el = Some l → h !! l = Some hs →
     ∃ el' h' hs',
       cacheElementStl el h = Some (el', h') ∧ h' !! l = Some hs' ∧
       get hs' key =
         if truthy (get hs key) then get hs key
         else if hasFillOrStroke (readStyle (style el) key)
              then liftColor (readStyle (style el) key)
              else VNull) ∧
  (∀ s, liftColor (VStr s) = lift s (QArith_base.Qmake (-1) 10)) ∧
  (∀ v, hasFillOrStroke v = true ↔ v ≠ VUndef ∧ v ≠ VNull ∧ v ≠ VStr "none") ∧
  (∀ el hoverStl h el' h' l0,
     hoverStyle el = Some l0 → setElementHoverStl el hoverStl h = Some (el', h') →
     __hoverStl el' = Some l0) ∧
  (∀ el h l,
     style el = <["stroke" := VStr "none"]> {["fill" := VStr "#336699"]} →
     hoverStyle el = None → __isHover el = false → useHoverLayer el = false →
     h !! l = Some ∅ →
     nullish (lift "#336699" (QArith_base.Qmake (-1) 10)) = false →
     ∃ el0 el1 h1 el2 delta,
       setElementHoverStl el (Some l) h = Some (el0, h) ∧
       doSingleEnterHover el0 h = Some (el1, h1) ∧
       doSingleLeaveHover el1 h1 = Some (el2, h1) ∧
       h1 !! l = Some delta ∧
       get delta "fill" = lift "#336699" (QArith_base.Qmake (-1) 10) ∧
       get delta "stroke" = VNull ∧
       readStyle (style el1) "fill" = lift "#336699" (QArith_base.Qmake (-1) 10) ∧
       readStyle (style el1) "stroke" = VStr "none" ∧
       readStyle (style el2) "fill" = VStr "#336699" ∧
       readStyle (style el2) "stroke" = VStr "none").
Proof.
  split; [exact capture_default|]. split; [done|].
  split; [exact hasFillOrStroke_spec|].
  split; [|exact scenario_336699].
  intros el hoverStl h el' h' l0 Hown Hset.
  by destruct (setElementHoverStl_own_override _ _ _ _ _ _ Hown Hset).
Qed.

End default_fill.

Lemma default_hover_fill_stroke_witness :
  ∃ el0 el1 h1 el2 delta,
    @setElementHoverStl exampleZRender exampleLeaf (Some 0) exampleHeap
      = Some (el0, exampleHeap) ∧
    @doSingleEnterHover exampleZRender el0 exampleHeap = Some (el1, h1) ∧
    doSingleLeaveHover el1 h1 = Some (el2, h1) ∧
    h1 !! 0 = Some delta ∧
    get delta "fill" = VStr "lift(#336699)" ∧
    get delta "stroke" = VNull ∧
    @readStyle exampleZRender (style el1) "fill" = VStr "lift(#336699)" ∧
    @readStyle exampleZRender (style el1) "stroke" = VStr "none" ∧
    @readStyle exampleZRender (style el2) "fill" = VStr "#336699" ∧
    @readStyle exampleZRender (style el2) "stroke" = VStr "none".
Proof.
  destruct (@default_hover_fill_stroke exampleZRender) as (_ & _ & _ & _ & Hscenario).
  apply (Hscenario exampleLeaf exampleHeap 0); reflexivity.
Defined.

(** *** Frames of enter and leave *)

Section hover_frames.
Context `{ZRender}.

Lemma wfRefs_frame (h h' : heap) el el' :
  length h ≤ length h' →
  hoverStyle el' = hoverStyle el → __hoverStl el' = __hoverStl el →
  (__hoverStlDirty el' = true → __hoverStlDirty el = true) →
  wfRefs h el = true → wfRefs h' el' = true.
Proof.
  intros Hlen Hown Hl Hd Hwf. apply (wfRefs_mono h h' el Hlen) in Hwf.
  unfold wfRefs in *. rewrite Hown, Hl.
  apply andb_prop in Hwf as [-> Hdirty]. simpl.
  destruct (__hoverStlDirty el') eqn:Hd'; [|done]. by rewrite Hd in Hdirty.
Qed.

Lemma doSingleEnterHover_frame el h el1 h1 :
  doSingleEnterHover el h = Some (el1, h1) →
  length h1 = length h ∧
  hoverStyle el1 = hoverStyle el ∧ __hoverStl el1 = __hoverStl el ∧
  useHoverLayer el1 = useHoverLayer el ∧ __isEmphasis el1 = __isEmphasis el ∧
  __hoverSilentOnTouch el1 = __hoverSilentOnTouch el ∧ _handlers el1 = _handlers el ∧
  (__hoverStlDirty el1 = true → __hoverStlDirty el = true) ∧
  __isHover el1 = true ∧
  z2 el1 = (if __isHover el || useHoverLayer el then z2 el else z2 el + 1)%Z.
Proof.
  intros He. apply doSingleEnterHover_inv in He
    as [(Hh & -> & ->)|(Hh & elc & Hc & Hcases)].
  - rewrite Hh. simpl. by repeat split.
  - rewrite Hh. simpl.
    assert (length h1 = length h ∧ ∃ n, elc = set_hoverStlDirty false (set_normalStl n el) ∨
              (elc = el)) as [Hlen [n Helc]].
    { apply cacheElementStl_inv in Hc as [(_ & -> & ->)|(l & hs & _ & _ & _ & -> & ->)].
      - split; [done|]. exists None. by right.
      - rewrite length_insert. split; [done|]. eexists. by left. }
    destruct Hcases as [[Hu ->]|(Hu & delta & _ & _ & ->)];
      destruct Helc as [-> | ->]; simpl in *; rewrite ?Hu;
      try (destruct (__zr el)); simpl; repeat split; try done.
Qed.

Lemma leaveResult_frame el :
  hoverStyle (leaveResult el) = hoverStyle el ∧
  __hoverStl (leaveResult el) = __hoverStl el ∧
  useHoverLayer (leaveResult el) = useHoverLayer el ∧
  __isEmphasis (leaveResult el) = __isEmphasis el ∧
  __hoverSilentOnTouch (leaveResult el) = __hoverSilentOnTouch el ∧
  _handlers (leaveResult el) = _handlers el ∧
  __hoverStlDirty (leaveResult el) = __hoverStlDirty el ∧
  __isHover (leaveResult el) = false ∧
  z2 (leaveResult el)
    = (if __isHover el && negb (useHoverLayer el) then z2 el - 1 else z2 el)%Z.
Proof.
  unfold leaveResult. destruct (__isHover el) eqn:Hh; simpl; [|by rewrite Hh].
  destruct (useHoverLayer el) eqn:Hu; simpl.
  - destruct (__zr el); simpl; by rewrite ?Hu.
  - destruct (__normalStl el); simpl; by rewrite ?Hu.
Qed.

Lemma doSingleEnterHover_step z0 el h :
  wfRefs h el = true → bumpedOnce z0 el →
  ∃ el1 h1,
    doSingleEnterHover el h = Some (el1, h1) ∧
    wfRefs h1 el1 = true ∧ bumpedOnce z0 el1 ∧ __isHover el1 = true ∧
    __isEmphasis el1 = __isEmphasis el ∧
    __hoverSilentOnTouch el1 = __hoverSilentOnTouch el ∧ _handlers el1 = _handlers el.
Proof.
  intros Hwf Hz. destruct (doSingleEnterHover_total el h Hwf) as [[el1 h1] He].
  exists el1, h1. split; [done|].
  destruct (doSingleEnterHover_frame _ _ _ _ He)
    as (Hlen & Hown & Hl & Hu & Hem & Hsil & Hhs & Hd & Hh & Hz2).
  split; [apply (wfRefs_frame h h1 el el1); (done || lia)|].
  split; [|done]. unfold bumpedOnce in *. rewrite Hz2, Hh, Hu, Hz.
  destruct (__isHover el), (useHoverLayer el); simpl; lia.
Qed.

Lemma doSingleLeaveHover_step z0 el h :
  wfRefs h el = true → bumpedOnce z0 el →
  ∃ el1,
    doSingleLeaveHover el h = Some (el1, h) ∧
    wfRefs h el1 = true ∧ bumpedOnce z0 el1 ∧ __isHover el1 = false ∧
    __isEmphasis el1 = __isEmphasis el ∧
    __hoverSilentOnTouch el1 = __hoverSilentOnTouch el ∧ _handlers el1 = _handlers el.
Proof.
  intros Hwf Hz. exists (leaveResult el). split; [apply doSingleLeaveHover_eq|].
  destruct (leaveResult_frame el) as (Hown & Hl & Hu & Hem & Hsil & Hhs & Hd & Hh & Hz2).
  split; [apply (wfRefs_frame h h el (leaveResult el)); (done || congruence)|].
  split; [|done]. unfold bumpedOnce in *. rewrite Hz2, Hh, Hz. simpl.
  destruct (__isHover el), (useHoverLayer el); simpl; lia.
Qed.

End hover_frames.

(** *** The handlers on a displayable element *)

Section hover_handlers.
Context `{ZRender}.

Lemma doEnterHover_shape d h :
  doEnterHover (Shape d) h
  = match doSingleEnterHover d h with
    | Some (d', h') => Some (Shape d', h')
    | None => None
    end.
Proof. unfold doEnterHover. munfold. by destruct (doSingleEnterHover d h) as [[]|]. Qed.

Lemma doLeaveHover_shape d h : doLeaveHover (Shape d) h = Some (Shape (leaveResult d), h).
Proof. unfold doLeaveHover. munfold. by rewrite doSingleLeaveHover_eq. Qed.

Lemma invoke_step z0 hdl e d h :
  wfRefs h d = true → bumpedOnce z0 d →
  ∃ d' h',
    invoke hdl e (Shape d) h = Some (Shape d', h') ∧
    wfRefs h' d' = true ∧ bumpedOnce z0 d' ∧ _handlers d' = _handlers d.
Proof.
  intros Hwf Hz.
  assert (∀ b, wfRefs h (set_isEmphasis b d) = true) as Hwfb by done.
  assert (∀ b, bumpedOnce z0 (set_isEmphasis b d)) as Hzb by done.
  assert (∃ d' h', doEnterHover (Shape d) h = Some (Shape d', h') ∧
            wfRefs h' d' = true ∧ bumpedOnce z0 d' ∧ _handlers d' = _handlers d) as Henter.
  { destruct (doSingleEnterHover_step z0 d h Hwf Hz) as (d' & h' & He & ? & ? & _ & _ & _ & ?).
    exists d', h'. by rewrite doEnterHover_shape, He. }
  assert (∃ d' h', doLeaveHover (Shape d) h = Some (Shape d', h') ∧
            wfRefs h' d' = true ∧ bumpedOnce z0 d' ∧ _handlers d' = _handlers d) as Hleave.
  { destruct (doSingleLeaveHover_step z0 d h Hwf Hz) as (d' & He & ? & ? & _ & _ & _ & ?).
    exists d', h. rewrite doLeaveHover_shape. rewrite doSingleLeaveHover_eq in He.
    by injection He as ->. }
  destruct hdl; simpl.
  - unfold onElementMouseOver. simpl.
    destruct (__hoverSilentOnTouch d && zrByTouch e); [by exists d, h|].
    destruct (negb (__isEmphasis d)); [done | by exists d, h].
  - unfold onElementMouseOut. simpl.
    destruct (__hoverSilentOnTouch d && zrByTouch e); [by exists d, h|].
    destruct (negb (__isEmphasis d)); [done | by exists d, h].
  - unfold enterEmphasis. cbn [with_data].
    destruct (doSingleEnterHover_step z0 (set_isEmphasis true d) h (Hwfb _) (Hzb _))
      as (d' & h' & He & ? & ? & _ & _ & _ & ?).
    exists d', h'. by rewrite doEnterHover_shape, He.
  - unfold leaveEmphasis. cbn [with_data]. rewrite doLeaveHover_shape.
    destruct (doSingleLeaveHover_step z0 (set_isEmphasis false d) h (Hwfb _) (Hzb _))
      as (d' & He & ? & ? & _ & _ & _ & ?).
    rewrite doSingleLeaveHover_eq in He. injection He as <-. by eexists _, _.
Qed.

Lemma invokeAll_step z0 hs e d h :
  wfRefs h d = true → bumpedOnce z0 d →
  ∃ d' h',
    invokeAll hs e (Shape d) h = Some (Shape d', h') ∧
    wfRefs h' d' = true ∧ bumpedOnce z0 d' ∧ _handlers d' = _handlers d.
Proof.
  revert d h. induction hs as [|hdl hs IH]; intros d h Hwf Hz.
  - by exists d, h.
  - destruct (invoke_step z0 hdl e d h Hwf Hz) as (d1 & h1 & He & Hwf1 & Hz1 & Hh1).
    destruct (IH d1 h1 Hwf1 Hz1) as (d2 & h2 & He2 & ? & ? & ?).
    exists d2, h2. simpl. munfold. rewrite He. split; [done|].
    repeat split; (done || congruence).
Qed.

Lemma triggerAll_step z0 evs d h :
  wfRefs h d = true → bumpedOnce z0 d →
  ∃ d' h',
    triggerAll evs (Shape d) h = Some (Shape d', h') ∧
    wfRefs h' d' = true ∧ bumpedOnce z0 d' ∧ _handlers d' = _handlers d.
Proof.
  revert d h. induction evs as [|[name e] evs IH]; intros d h Hwf Hz.
  - by exists d, h.
  - destruct (invokeAll_step z0 (default [] (_handlers d !! name)) e d h Hwf Hz)
      as (d1 & h1 & He & Hwf1 & Hz1 & Hh1).
    destruct (IH d1 h1 Hwf1 Hz1) as (d2 & h2 & He2 & ? & ? & ?).
    exists d2, h2. simpl. unfold trigger. munfold. simpl. rewrite He.
    split; [done|]. repeat split; (done || congruence).
Qed.

(** C2. On a well-formed leaf element [doSingleEnterHover] succeeds and
    applying it again changes nothing, neither on the element (live style,
    [z2], snapshot) nor in the heap; on an element already hovering, the
    pointer handler changes nothing and the emphasis handler sets the
    emphasis flag only; and along any sequence of triggered events,
    whatever handlers are subscribed, [z2] is its normal level plus one
    exactly while the hover style is applied on the element, so that no
    increment is applied twice or left behind. *)
Theorem enter_applied_once :
  (∀ el h, wfRefs h el = true →
     ∃ el1 h1,
       doSingleEnterHover el h = Some (el1, h1) ∧
       doSingleEnterHover el1 h1 = Some (el1, h1)) ∧
  (∀ d h e, __isHover d = true →
     onElementMouseOver (Shape d) e h = Some (Shape d, h) ∧
     enterEmphasis (Shape d) h = Some (Shape (set_isEmphasis true d), h)) ∧
  (∀ d h evs, wfRefs h d = true → __isHover d = false →
     ∃ d' h',
       triggerAll evs (Shape d) h = Some (Shape d', h') ∧
       z2 d' = (z2 d + if __isHover d' && negb (useHoverLayer d') then 1 else 0)%Z).
Proof.
  split; [|split].
  - intros el h Hwf. destruct (doSingleEnterHover_total el h Hwf) as [[el1 h1] He].
    exists el1, h1. split; [done|]. apply doSingleEnterHover_hovering.
    by destruct (doSingleEnterHover_frame _ _ _ _ He) as (_&_&_&_&_&_&_&_&?&_).
  - intros d h e Hh. split.
    + unfold onElementMouseOver. cbn [data].
      destruct (__hoverSilentOnTouch d && zrByTouch e); [done|].
      destruct (negb (__isEmphasis d)); [|done].
      by rewrite doEnterHover_shape, doSingleEnterHover_hovering.
    + unfold enterEmphasis. cbn [with_data].
      by rewrite doEnterHover_shape, doSingleEnterHover_hovering.
  - intros d h evs Hwf Hh.
    destruct (triggerAll_step (z2 d) evs d h Hwf) as (d' & h' & He & _ & Hz & _).
    { unfold bumpedOnce. rewrite Hh. simpl. lia. }
    by exists d', h'.
Qed.

End hover_handlers.

Lemma enter_applied_once_witness :
  ∃ el1 h1,
    @doSingleEnterHover exampleZRender exampleConfigured exampleHeap = Some (el1, h1) ∧
    @doSingleEnterHover exampleZRender el1 h1 = Some (el1, h1).
Proof.
  destruct (@enter_applied_once exampleZRender) as (Honce & _ & _).
  apply (Honce exampleConfigured exampleHeap). reflexivity.
Defined.

(** *** Traversal of a group *)

Lemma element_forall_ind (P : element → Prop) :
  (∀ d, P (Shape d)) →
  (∀ d children, Forall P children → P (Group d children)) →
  ∀ el, P el.
Proof.
  intros HS HG. fix IH 1. intros [d|d children].
  - apply HS.
  - apply HG. induction children as [|c children IHc]; constructor.
    + apply IH.
    + apply IHc.
Qed.

Section traversal.
Variable cb : elData → M elData.
Variable P : heap → elData → Prop.
Variable R : elData → elData → Prop.
Hypothesis P_mono : ∀ d (h h' : heap), P h d → length h ≤ length h' → P h' d.
Hypothesis cb_spec : ∀ d h, P h d →
  ∃ d' h', cb d h = Some (d', h') ∧ R d d' ∧ length h ≤ length h' ∧ P h' d'.

Lemma forEach_visit_spec children :
  Forall (λ el, ∀ h, Forall (P h) (leaves el) → traversed cb P R h el) children →
  ∀ h, Forall (P h) (concat (map leaves children)) →
  ∃ children' h',
    forEach (visit cb) children h = Some (children', h') ∧ length h ≤ length h' ∧
    Forall2 R (concat (map leaves children)) (concat (map leaves children')) ∧
    Forall2 (λ a b, R a b ∨ b = a)
            (concat (map nodes children)) (concat (map nodes children')) ∧
    Forall (P h') (concat (map leaves children')).
Proof.
  induction 1 as [|c children Hc _ IH]; intros h HP.
  - exists [], h. simpl. by repeat split.
  - simpl in HP. apply Forall_app in HP as [HPc HPr].
    destruct (Hc h HPc) as (c' & h1 & Hv & Hlen1 & _ & Hl1 & Hn1 & HP1).
    destruct (IH h1) as (children' & h2 & Hf & Hlen2 & Hl2 & Hn2 & HP2).
    { eapply Forall_impl; [exact HPr|]. intros d Hd. by eapply P_mono. }
    exists (c' :: children'), h2. simpl. munfold. rewrite Hv, Hf.
    split; [done|]. split; [lia|].
    split; [by apply Forall2_app|]. split; [by apply Forall2_app|].
    apply Forall_app. split; [|done].
    eapply Forall_impl; [exact HP1|]. intros d Hd. by eapply P_mono.
Qed.

Lemma visit_spec el h : Forall (P h) (leaves el) → traversed cb P R h el.
Proof.
  revert h. induction el as [d|d children IH] using element_forall_ind; intros h HP.
  - apply Forall_inv in HP. destruct (cb_spec d h HP) as (d' & h' & Hcb & HR & Hlen & HP').
    exists (Shape d'), h'. simpl. munfold. rewrite Hcb.
    split; [done|]. split; [done|]. split; [by eexists|].
    repeat split; try by repeat constructor.
  - destruct (forEach_visit_spec children IH h HP)
      as (children' & h' & Hf & Hlen & Hl & Hn & HP').
    exists (Group d children'), h'. simpl. munfold.
    change (forEach (visit cb) children h) with (forEach (visit cb) children h).
    rewrite Hf. split; [done|]. split; [done|]. split; [by eexists|].
    split; [done|]. split; [|done]. constructor; [by right | done].
Qed.

Lemma traverse_spec children h :
  Forall (P h) (concat (map leaves children)) →
  ∃ children' h',
    traverse cb children h = Some (children', h') ∧ length h ≤ length h' ∧
    Forall2 R (concat (map leaves children)) (concat (map leaves children')) ∧
    Forall2 (λ a b, R a b ∨ b = a)
            (concat (map nodes children)) (concat (map nodes children')) ∧
    Forall (P h') (concat (map leaves children')).
Proof.
  apply forEach_visit_spec. apply Forall_forall. intros el _ h'. apply visit_spec.
Qed.

End traversal.

(** A callback that leaves the heap alone makes a traversal that does. *)
Lemma visit_heap_pure (cb : elData → M elData) :
  (∀ d h d' h', cb d h = Some (d', h') → h' = h) →
  ∀ el h el' h', visit cb el h = Some (el', h') → h' = h.
Proof.
  intros Hcb. induction el as [d|d children IH] using element_forall_ind;
    intros h el' h' Hv.
  - simpl in Hv. munfold. destruct (cb d h) as [[d1 h1]|] eqn:Hd; [|done].
    injection Hv as _ <-. by eapply Hcb.
  - simpl in Hv. munfold.
    destruct (forEach (visit cb) children h) as [[cs1 h1]|] eqn:Hf; [|done].
    injection Hv as _ <-. clear d. revert h cs1 h1 Hf.
    induction IH as [|c children Hc _ IHcs]; intros h cs1 h1 Hf.
    + by injection Hf as _ <-.
    + simpl in Hf. munfold. destruct (visit cb c h) as [[c1 hc]|] eqn:Hvc; [|done].
      destruct (forEach (visit cb) children hc) as [[cs2 h2]|] eqn:Hf2; [|done].
      injection Hf as _ <-. apply Hc in Hvc as ->. by eapply IHcs.
Qed.

Lemma traverse_heap_pure (cb : elData → M elData) :
  (∀ d h d' h', cb d h = Some (d', h') → h' = h) →
  ∀ children h children' h', traverse cb children h = Some (children', h') → h' = h.
Proof.
  intros Hcb children h children' h' Ht.
  apply (visit_heap_pure cb Hcb (Group (newElement ∅) children) h
           (Group (newElement ∅) children') h').
  simpl. munfold. unfold traverse in Ht. by rewrite Ht.
Qed.

(** *** Emphasis masks the pointer *)

Section emphasis.
Context `{ZRender}.

Lemma doSingleEnterHover_cb d h :
  wfRefs h d = true →
  ∃ d' h',
    doSingleEnterHover d h = Some (d', h') ∧
    (__isHover d' = true ∧ __isEmphasis d' = __isEmphasis d) ∧
    length h ≤ length h' ∧ wfRefs h' d' = true.
Proof.
  intros Hwf. destruct (doSingleEnterHover_total d h Hwf) as [[d' h'] He].
  destruct (doSingleEnterHover_frame _ _ _ _ He)
    as (Hlen & Hown & Hl & _ & Hem & _ & _ & Hd & Hh & _).
  exists d', h'. split; [done|]. split; [done|]. split; [lia|].
  apply (wfRefs_frame h h' d d'); (done || lia).
Qed.

Lemma doSingleLeaveHover_cb d h :
  True →
  ∃ d' h',
    doSingleLeaveHover d h = Some (d', h') ∧
    (__isHover d' = false ∧ __isEmphasis d' = __isEmphasis d) ∧
    length h ≤ length h' ∧ True.
Proof.
  intros _. exists (leaveResult d), h. split; [apply doSingleLeaveHover_eq|].
  destruct (leaveResult_frame d) as (_ & _ & _ & Hem & _ & _ & _ & Hh & _). done.
Qed.

Lemma enterEmphasis_spec this h :
  Forall (λ d, wfRefs h d = true) (leaves this) →
  ∃ this' h',
    enterEmphasis this h = Some (this', h') ∧
    __isEmphasis (data this') = true ∧
    Forall (λ d, __isHover d = true) (leaves this').
Proof.
  intros Hwf. unfold enterEmphasis. destruct this as [d|d children]; cbn [with_data].
  - apply Forall_inv in Hwf.
    destruct (doSingleEnterHover_cb (set_isEmphasis true d) h Hwf)
      as (d' & h' & He & [Hh Hem] & _).
    exists (Shape d'), h'. rewrite doEnterHover_shape, He. simpl.
    split; [done|]. split; [by rewrite Hem|]. by constructor.
  - destruct (traverse_spec doSingleEnterHover (λ h d, wfRefs h d = true)
                (λ d d', __isHover d' = true ∧ __isEmphasis d' = __isEmphasis d)
                (λ d h h' Hd Hlen, wfRefs_mono h h' d Hlen Hd)
                doSingleEnterHover_cb children h Hwf)
      as (children' & h' & Ht & _ & Hl & _).
    exists (Group (set_isEmphasis true d) children'), h'.
    unfold doEnterHover. munfold. rewrite Ht. split; [done|]. split; [done|].
    simpl. eapply Forall2_Forall_r; [exact Hl|]. apply Forall_forall. by intros ? _ ? [? _].
Qed.

Lemma leaveEmphasis_spec this h :
  ∃ this',
    leaveEmphasis this h = Some (this', h) ∧
    __isEmphasis (data this') = false ∧
    Forall (λ d, __isHover d = false) (leaves this').
Proof.
  unfold leaveEmphasis. destruct this as [d|d children]; cbn [with_data].
  - exists (Shape (leaveResult (set_isEmphasis false d))).
    rewrite doLeaveHover_shape. split; [done|].
    destruct (leaveResult_frame (set_isEmphasis false d))
      as (_ & _ & _ & Hem & _ & _ & _ & Hh & _).
    simpl. split; [by rewrite Hem|]. by constructor.
  - assert (∀ cs h0, ∃ cs', traverse doSingleLeaveHover cs h0 = Some (cs', h0) ∧
              Forall (λ d, __isHover d = false) (concat (map leaves cs'))) as Htr.
    { intros cs h0.
      destruct (traverse_spec doSingleLeaveHover (λ _ _, True)
                  (λ d d', __isHover d' = false ∧ __isEmphasis d' = __isEmphasis d)
                  (λ _ _ _ _ _, I) doSingleLeaveHover_cb cs h0)
        as (cs' & h' & Ht & _ & Hl & _); [by apply Forall_forall|].
      assert (h' = h0) as ->.
      { eapply traverse_heap_pure; [|exact Ht].
        intros d0 h1 d1 h2. rewrite doSingleLeaveHover_eq. congruence. }
      exists cs'. split; [done|].
      eapply Forall2_Forall_r; [exact Hl|]. apply Forall_forall. by intros ? _ ? [? _]. }
    destruct (Htr children h) as (children' & Ht & Hl).
    exists (Group (set_isEmphasis false d) children').
    unfold doLeaveHover. munfold. rewrite Ht. done.
Qed.

(** C3. While the emphasis flag of the subscribed element is set, the
    pointer handlers [onElementMouseOver] and [onElementMouseOut] return
    the element and the heap as they are, for every event. The emphasis
    handlers are never suppressed: [enterEmphasis] sets the flag and
    leaves every displayable element below hovering, and [leaveEmphasis]
    clears the flag and leaves none of them hovering, whatever pointer
    events came before, so that a pointer still over the element is not
    applied again. *)
Theorem emphasis_masks_pointer :
  (∀ this e h, __isEmphasis (data this) = true →
     onElementMouseOver this e h = Some (this, h) ∧
     onElementMouseOut this e h = Some (this, h)) ∧
  (∀ this h, Forall (λ d, wfRefs h d = true) (leaves this) →
     ∃ this' h',
       enterEmphasis this h = Some (this', h') ∧
       __isEmphasis (data this') = true ∧
       Forall (λ d, __isHover d = true) (leaves this')) ∧
  (∀ this h,
     ∃ this',
       leaveEmphasis this h = Some (this', h) ∧
       __isEmphasis (data this') = false ∧
       Forall (λ d, __isHover d = false) (leaves this')).
Proof.
  split; [|split; [exact enterEmphasis_spec | exact leaveEmphasis_spec]].
  intros this e h Hem. unfold onElementMouseOver, onElementMouseOut. rewrite Hem. simpl.
  by destruct (__hoverSilentOnTouch (data this) && zrByTouch e).
Qed.

End emphasis.

Lemma emphasis_masks_pointer_witness :
  @onElementMouseOver exampleZRender (Shape (set_isEmphasis true exampleConfigured))
     {| zrByTouch := false |} exampleHeap
    = Some (Shape (set_isEmphasis true exampleConfigured), exampleHeap) ∧
  onElementMouseOut (Shape (set_isEmphasis true exampleConfigured))
     {| zrByTouch := false |} exampleHeap
    = Some (Shape (set_isEmphasis true exampleConfigured), exampleHeap).
Proof.
  destruct (@emphasis_masks_pointer exampleZRender) as (Hmask & _ & _).
  apply (Hmask (Shape (set_isEmphasis true exampleConfigured))). reflexivity.
Defined.

(** *** Subscriptions *)

Lemma on_lookup_ne event event' h (hs : gmap string (list handler)) :
  event ≠ event' → on event h hs !! event' = hs !! event'.
Proof.
  intros Hne. unfold on. case_bool_decide; [done|]. by rewrite lookup_insert_ne.
Qed.

Lemma on_elem event h (hs : gmap string (list handler)) :
  h ∈ default [] (on event h hs !! event).
Proof.
  unfold on. case_bool_decide as Hin; [done|].
  rewrite lookup_insert_eq. simpl. apply elem_of_app. right. by apply list_elem_of_singleton.
Qed.

Lemma on_subscribed event h (hs : gmap string (list handler)) :
  h ∈ default [] (hs !! event) → on event h hs = hs.
Proof. intros Hin. unfold on. by rewrite bool_decide_eq_true_2. Qed.

Lemma hoverSubscriptions_idemp hs :
  hoverSubscriptions (hoverSubscriptions hs) = hoverSubscriptions hs.
Proof.
  unfold hoverSubscriptions.
  set (t1 := on "mouseover" HMouseOver hs).
  set (t2 := on "mouseout" HMouseOut t1).
  set (t3 := on "emphasis" HEnterEmphasis t2).
  set (t4 := on "normal" HLeaveEmphasis t3).
  assert (on "mouseover" HMouseOver t4 = t4) as ->.
  { apply on_subscribed. unfold t4, t3, t2. rewrite !on_lookup_ne by done. apply on_elem. }
  assert (on "mouseout" HMouseOut t4 = t4) as ->.
  { apply on_subscribed. unfold t4, t3. rewrite !on_lookup_ne by done. apply on_elem. }
  assert (on "emphasis" HEnterEmphasis t4 = t4) as ->.
  { apply on_subscribed. unfold t4. rewrite !on_lookup_ne by done. apply on_elem. }
  apply on_subscribed. apply on_elem.
Qed.

Lemma hoverSubscriptions_fresh : hoverSubscriptions ∅ = subscribedOnce.
Proof. vm_compute. reflexivity. Qed.

Section configure.
Context `{ZRender}.

(** What [setElementHoverStl] makes of a displayable element. *)
Lemma setElementHoverStl_spec d hoverStl h :
  wfRefs h d = true ∧ validRef h hoverStl = true →
  ∃ d' h',
    setElementHoverStl d hoverStl h = Some (d', h') ∧
    (_handlers d' = _handlers d ∧ style d' = style d ∧ z2 d' = z2 d ∧
     __isHover d' = __isHover d ∧
     __hoverStl d' = Some (match hoverStyle d, hoverStl with
                           | Some l, _ | None, Some l => l
                           | None, None => length h
                           end)) ∧
    length h ≤ length h' ∧
    (wfRefs h' d' = true ∧ validRef h' hoverStl = true).
Proof.
  intros [Hwf Harg].
  set (l := match hoverStyle d, hoverStl with
            | Some l, _ | None, Some l => l
            | None, None => length h
            end).
  set (h0 := match hoverStyle d, hoverStl with
             | Some _, _ | None, Some _ => h
             | None, None => h ++ [∅]
             end).
  set (d0 := set_hoverStlDirty true (set_hoverStl (Some l) d)).
  assert (length h ≤ length h0) as Hlen0.
  { unfold h0. destruct (hoverStyle d), hoverStl; rewrite ?length_app; simpl; lia. }
  assert (l < length h0) as Hl.
  { unfold wfRefs in Hwf. apply andb_prop in Hwf as [[Hown _]%andb_prop _].
    unfold l, h0. destruct (hoverStyle d) as [l0|].
    - simpl in Hown. by apply bool_decide_eq_true in Hown.
    - destruct hoverStl as [l0|].
      + simpl in Harg. by apply bool_decide_eq_true in Harg.
      + rewrite length_app. simpl. lia. }
  assert (wfRefs h0 d0 = true) as Hwf0.
  { unfold wfRefs in *. simpl. apply andb_prop in Hwf as [[Hown _]%andb_prop _].
    rewrite (validRef_mono h h0 _ Hlen0 Hown). simpl.
    by rewrite bool_decide_eq_true_2. }
  assert (setElementHoverStl d hoverStl h
          = if __isHover d then cacheElementStl d0 h0 else Some (d0, h0)) as ->.
  { unfold setElementHoverStl, d0, l, h0. munfold.
    destruct (hoverStyle d), hoverStl; simpl; by destruct (__isHover d). }
  destruct (__isHover d) eqn:Hh.
  - destruct (cacheElementStl_total d0 h0 Hwf0) as [[d' h'] Hc].
    exists d', h'. split; [done|].
    assert (length h' = length h0 ∧
            ∃ n b, d' = set_hoverStlDirty b (set_normalStl n d0) ∧ (b = true → True))
      as (Hlen & n & b & -> & _).
    { apply cacheElementStl_inv in Hc as [(_ & -> & ->)|(l' & hs & _ & _ & _ & -> & ->)].
      - split; [done|]. exists (__normalStl d0), (__hoverStlDirty d0).
        by destruct d.
      - rewrite length_insert. split; [done|]. by eexists _, _. }
    simpl. split; [done|]. split; [lia|]. split.
    + apply (wfRefs_mono h0); [lia|]. unfold wfRefs in *. simpl in *.
      apply andb_prop in Hwf0 as [-> _]. simpl. by destruct b.
    + apply (validRef_mono h); [lia | done].
  - exists d0, h0. split; [done|]. simpl. split; [done|]. split; [done|].
    split; [done|]. by apply (validRef_mono h).
Qed.

Lemma Forall2_fmap_eq {A B} (f : A → B) (l l' : list A) :
  Forall2 (λ a b, f b = f a) l l' → f <$> l' = f <$> l.
Proof.
  induction 1 as [|a b l l' Hab _ IH]; [done|]. by rewrite !fmap_cons, Hab, IH.
Qed.

(** What [setHoverStyle] makes of an element, displayable or group. *)
Lemma setHoverStyle_spec el delta opt h :
  Forall (λ d, wfRefs h d = true) (leaves el) → validRef h delta = true →
  ∃ el' h',
    setHoverStyle el delta opt h = Some (el', h') ∧ length h ≤ length h' ∧
    _handlers (data el') = hoverSubscriptions (_handlers (data el)) ∧
    _handlers <$> descendants el' = _handlers <$> descendants el ∧
    Forall2 (λ d d', is_Some (__hoverStl d') ∧ style d' = style d ∧ z2 d' = z2 d ∧
                     __isHover d' = __isHover d)
            (leaves el) (leaves el') ∧
    Forall (λ d, wfRefs h' d = true) (leaves el').
Proof.
  intros Hwf Harg. unfold setHoverStyle.
  set (silent := match opt with Some opt => opt_hoverSilentOnTouch opt | None => false end).
  destruct el as [d|d children]; cbn [with_data].
  - apply Forall_inv in Hwf.
    destruct (setElementHoverStl_spec (set_hoverSilentOnTouch silent d) delta h)
      as (d' & h' & Hs & (Hh & Hst & Hz & Hhov & Hl) & Hlen & Hwf' & _); [done|].
    munfold. rewrite Hs. eexists _, h'. split; [reflexivity|]. split; [done|].
    simpl. split; [unfold hoverSubscriptions; by rewrite Hh|]. split; [done|].
    split; constructor; try done.
  - destruct (traverse_spec (λ child, setElementHoverStl child delta)
                (λ h d, wfRefs h d = true ∧ validRef h delta = true)
                (λ d d', _handlers d' = _handlers d ∧ is_Some (__hoverStl d') ∧
                         style d' = style d ∧ z2 d' = z2 d ∧ __isHover d' = __isHover d))
      with (children := children) (h := h)
      as (children' & h' & Ht & Hlen & Hl & Hn & HP).
    { intros d0 h0 h1 [? ?] ?.
      split; [by apply (wfRefs_mono h0) | by apply (validRef_mono h0)]. }
    { intros d0 h0 Hd0.
      destruct (setElementHoverStl_spec d0 delta h0 Hd0)
        as (d' & h' & Hs & (Hh & Hst & Hz & Hhov & Hl) & Hlen & Hwf').
      exists d', h'. rewrite Hl. by eauto 10. }
    { eapply Forall_impl; [exact Hwf|]. by intros d0 ?. }
    munfold. rewrite Ht. eexists _, h'. split; [reflexivity|]. split; [done|].
    simpl. split; [done|]. split; [|split].
    + apply Forall2_fmap_eq. eapply Forall2_impl; [exact Hn|].
      intros a b [[-> _]| ->]; done.
    + eapply Forall2_impl; [exact Hl|]. by intros a b (_ & ? & ? & ? & ?).
    + eapply Forall_impl; [exact HP|]. by intros a [? _].
Qed.

Lemma setHoverStyleAll_spec calls el h :
  Forall (λ d, wfRefs h d = true) (leaves el) →
  Forall (λ c : option loc * option hoverOpt, validRef h c.1 = true) calls →
  ∃ el' h',
    setHoverStyleAll calls el h = Some (el', h') ∧
    _handlers (data el')
      = match calls with
        | [] => _handlers (data el)
        | _ => hoverSubscriptions (_handlers (data el))
        end ∧
    _handlers <$> descendants el' = _handlers <$> descendants el ∧
    length (leaves el') = length (leaves el) ∧
    (calls ≠ [] → Forall (λ d, is_Some (__hoverStl d)) (leaves el')).
Proof.
  revert el h. induction calls as [|[delta opt] calls IH]; intros el h Hwf Hcalls.
  - by exists el, h.
  - apply Forall_cons in Hcalls as [Hdelta Hcalls]. simpl in Hdelta.
    destruct (setHoverStyle_spec el delta opt h Hwf Hdelta)
      as (el1 & h1 & Hs & Hlen & Hh1 & Hd1 & Hl1 & Hwf1).
    destruct (IH el1 h1 Hwf1) as (el' & h' & Hall & Hh & Hd & Hn & Hsome).
    { eapply Forall_impl; [exact Hcalls|]. intros c Hc. by apply (validRef_mono h). }
    exists el', h'. simpl. munfold. rewrite Hs. split; [done|].
    split; [|split; [congruence|split]].
    + rewrite Hh, Hh1. destruct calls; [done | apply hoverSubscriptions_idemp].
    + rewrite Hn. symmetry. by eapply Forall2_length.
    + intros _. destruct calls as [|c calls]; [|by apply Hsome].
      injection Hall as <- _. eapply Forall2_Forall_r; [exact Hl1|].
      apply Forall_forall. by intros ? _ ? [? _].
Qed.

(** C9, as the code has it. However many times [setHoverStyle] is invoked
    on an element (at least once), the element itself, the container in
    the case of a group, ends up with the four handlers subscribed as
    after one invocation, exactly once each when nothing was subscribed
    before; no subscription is added on any element below it; and each of
    its N displayable descendants holds a pending hover style. *)
Theorem setHoverStyle_subscribes_container el calls h :
  Forall (λ d, wfRefs h d = true) (leaves el) →
  Forall (λ c : option loc * option hoverOpt, validRef h c.1 = true) calls →
  calls ≠ [] →
  ∃ el' h',
    setHoverStyleAll calls el h = Some (el', h') ∧
    _handlers (data el') = hoverSubscriptions (_handlers (data el)) ∧
    (_handlers (data el) = ∅ → _handlers (data el') = subscribedOnce) ∧
    _handlers <$> descendants el' = _handlers <$> descendants el ∧
    length (leaves el') = length (leaves el) ∧
    Forall (λ d, is_Some (__hoverStl d)) (leaves el').
Proof.
  intros Hwf Hcalls Hne.
  destruct (setHoverStyleAll_spec calls el h Hwf Hcalls)
    as (el' & h' & Hall & Hh & Hd & Hn & Hsome).
  exists el', h'. split; [done|].
  assert (_handlers (data el') = hoverSubscriptions (_handlers (data el))) as Hh'.
  { by destruct calls. }
  split; [done|]. split; [|by auto].
  intros Hfresh. by rewrite Hh', Hfresh, hoverSubscriptions_fresh.
Qed.

End configure.

Lemma setHoverStyle_subscribes_container_witness :
  ∃ el' h',
    @setHoverStyleAll exampleZRender [(Some 0, None); (None, None)] exampleGroup exampleHeap
      = Some (el', h') ∧
    _handlers (data el') = hoverSubscriptions (_handlers (data exampleGroup)) ∧
    (_handlers (data exampleGroup) = ∅ → _handlers (data el') = subscribedOnce) ∧
    _handlers <$> descendants el' = _handlers <$> descendants exampleGroup ∧
    length (leaves el') = length (leaves exampleGroup) ∧
    Forall (λ d, is_Some (__hoverStl d)) (leaves el').
Proof.
  apply (@setHoverStyle_subscribes_container exampleZRender
           exampleGroup [(Some 0, None); (None, None)] exampleHeap).
  - repeat constructor.
  - repeat constructor.
  - discriminate.
Defined.

(** C9, as the claim has it, fails: after [setHoverStyle] on a group with
    one displayable child and nothing subscribed, the four handlers are
    subscribed on the group and none on the child. *)
Lemma setHoverStyle_descendant_not_subscribed :
  ∃ g' c' h',
    @setHoverStyle exampleZRender (Group (newElement ∅) [Shape exampleLeaf])
       (Some 0) None exampleHeap
      = Some (Group g' [Shape c'], h') ∧
    _handlers g' = subscribedOnce ∧
    _handlers c' = ∅ ∧
    _handlers c' !! "mouseover" = None ∧
    __hoverStl c' = Some 0.
Proof.
  eexists _, _, _. split; [vm_compute; reflexivity|].
  repeat split; vm_compute; reflexivity.
Qed.

(** ** Text styles: one node *)

Ltac lookup_stack :=
  unfold get;
  repeat first [ rewrite lookup_insert_ne by done | rewrite lookup_insert_eq ].

Lemma defaultFillStroke_returns m g opt pos fill stroke lw :
  checkInsideReturns opt m pos → is_Some (defaultFillStroke m g opt pos fill stroke lw).
Proof.
  unfold checkInsideReturns, defaultFillStroke. intros Hret.
  destruct (nullish (if nullish fill then getProp g "color" else fill)); simpl; [|done].
  destruct (checkInside opt) as [| |f]; simpl; try done.
  - destruct (isRectText opt); simpl; [|done].
    destruct (Hret eq_refl) as [v ->]. simpl.
    destruct (truthy v); [destruct (nullish _)|]; done.
  - destruct (Hret m pos) as [v ->]. simpl.
    destruct (truthy v); [destruct (nullish _)|]; done.
Qed.

Lemma setTokenTextStyle_inv ts m g opt noDefault isBlock out :
  setTokenTextStyle ts m g opt noDefault isBlock = Some out →
  ∃ textFill textStroke textLineWidth,
    (if noDefault
     then (textFill, textStroke, textLineWidth)
          = (getAutoColor (getShallow m "color") opt,
             getAutoColor (getShallow m "textBorderColor") opt,
             getShallow m "textBorderWidth")
     else defaultFillStroke m (if truthy g then g else VObj ∅) opt (get ts "textPosition")
            (getAutoColor (getShallow m "color") opt)
            (getAutoColor (getShallow m "textBorderColor") opt)
            (getShallow m "textBorderWidth")
          = Some (textFill, textStroke, textLineWidth)) ∧
    out = writeTokenTextStyle ts m (if negb noDefault && truthy g then g else VObj ∅)
            opt isBlock textFill textStroke textLineWidth.
Proof.
  unfold setTokenTextStyle. destruct noDefault; cbn [negb andb].
  - intros [= <-]. by eexists _, _, _.
  - destruct (defaultFillStroke _ _ _ _ _ _ _) as [[[f s] l]|]; [|done].
    intros [= <-]. by eexists _, _, _.
Qed.

Lemma setTokenTextStyle_returns ts m g opt noDefault isBlock :
  noDefault = true ∨ checkInsideReturns opt m (get ts "textPosition") →
  is_Some (setTokenTextStyle ts m g opt noDefault isBlock).
Proof.
  intros Hret. unfold setTokenTextStyle. destruct noDefault; cbn [negb andb]; [done|].
  destruct Hret as [|Hret]; [done|].
  destruct (defaultFillStroke_returns m
              (if truthy g then g else VObj ∅) opt (get ts "textPosition")
              (getAutoColor (getShallow m "color") opt)
              (getAutoColor (getShallow m "textBorderColor") opt)
              (getShallow m "textBorderWidth") Hret) as [[[f s] l] ->].
  done.
Qed.

Lemma setTokenTextStyle_box ts m g opt noDefault isBlock out :
  setTokenTextStyle ts m g opt noDefault isBlock = Some out →
  if negb isBlock || negb (disableBox opt)
  then Forall (λ kv, out !! kv.1 = Some kv.2) (boxProperties m opt)
  else Forall (λ kv, out !! kv.1 = ts !! kv.1) (boxProperties m opt).
Proof.
  intros (f & s & l & _ & ->)%setTokenTextStyle_inv. unfold writeTokenTextStyle.
  destruct (negb isBlock || negb (disableBox opt));
    repeat constructor; cbn [fst snd]; lookup_stack; reflexivity.
Qed.

(** C8, as the code has it. [setTokenTextStyle] writes the box properties
    (background colour, padding, border colour, width and radius, box
    shadow) from the model unless the node is the block node and
    [opt.disableBox] is set, the one case in which it leaves them as they
    were; a rich-text token node always receives them. *)
Theorem box_properties_written ts m g opt noDefault isBlock :
  noDefault = true ∨ checkInsideReturns opt m (get ts "textPosition") →
  ∃ out,
    setTokenTextStyle ts m g opt noDefault isBlock = Some out ∧
    (isBlock = true → disableBox opt = true →
       Forall (λ kv, out !! kv.1 = ts !! kv.1) (boxProperties m opt)) ∧
    (isBlock = false ∨ disableBox opt = false →
       Forall (λ kv, out !! kv.1 = Some kv.2) (boxProperties m opt)).
Proof.
  intros Hret.
  destruct (setTokenTextStyle_returns ts m g opt noDefault isBlock Hret) as [out Hout].
  exists out. split; [done|]. apply setTokenTextStyle_box in Hout.
  split.
  - intros -> Hbox. by rewrite Hbox in Hout.
  - intros [-> | Hbox]; [done|]. rewrite Hbox in Hout. by destruct isBlock.
Qed.

Lemma box_properties_written_witness :
  ∃ out,
    setTokenTextStyle ∅ exampleTokenModel VUndef optDisableBox true true = Some out ∧
    (true = true → disableBox optDisableBox = true →
       Forall (λ kv, out !! kv.1 = (∅ : obj) !! kv.1)
              (boxProperties exampleTokenModel optDisableBox)) ∧
    (true = false ∨ disableBox optDisableBox = false →
       Forall (λ kv, out !! kv.1 = Some kv.2)
              (boxProperties exampleTokenModel optDisableBox)).
Proof.
  apply (box_properties_written ∅ exampleTokenModel VUndef optDisableBox true true).
  left. reflexivity.
Defined.

(** C8, as the claim has it, fails: a rich-text token node (not the block
    node) resolved with [disableBox] set receives the box background of
    its model. *)
Lemma token_receives_box_properties :
  ∃ out,
    setTokenTextStyle ∅ exampleTokenModel VUndef optDisableBox false false = Some out ∧
    disableBox optDisableBox = true ∧
    out !! "textBackgroundColor" = Some (VStr "red").
Proof.
  destruct (setTokenTextStyle_returns ∅ exampleTokenModel VUndef optDisableBox false false)
    as [out Hout]; [right; by intros ?|].
  exists out. split; [done|]. split; [done|].
  apply setTokenTextStyle_box in Hout. cbn [negb orb] in Hout.
  by apply Forall_inv in Hout.
Qed.

(** ** Text styles: rich tokens *)

Lemma Model_parent_ind (P : Model → Prop) :
  (∀ option ec isEc, P (mkModel option None ec isEc)) →
  (∀ option parent ec isEc, P parent → P (mkModel option (Some parent) ec isEc)) →
  ∀ m, P m.
Proof.
  intros Hroot Hchild. fix IH 1. intros [option [parent|] ec isEc].
  - apply Hchild, IH.
  - apply Hroot.
Qed.

Lemma dom_collect_names (names : list string) (base : obj) :
  dom (foldr (λ name acc, <[name := VNum 1]> acc) base names)
  = list_to_set names ∪ dom base.
Proof.
  induction names as [|name names IH]; simpl.
  - set_solver.
  - rewrite dom_insert_L, IH. set_solver.
Qed.

Lemma ownNames_falsy v : truthy v = false → ownNames v = [].
Proof.
  destruct v as [| | | |s| |]; try done. simpl.
  destruct (String.eqb_spec s "") as [->|]; done.
Qed.

(** The loop of [getRichItemNames]: nothing is collected unless a node of
    the chain declares [rich]; the names collected are those declared. *)
Lemma richNames_not_declared m : declaresRich m = false → richNames m = ∅.
Proof.
  unfold declaresRich, richNames.
  induction (chainToRoot m) as [|n ns IH]; [done|].
  rewrite fmap_cons, union_list_cons. cbn [existsb].
  intros [Hn Hns]%orb_false_elim. rewrite ownNames_falsy by done.
  rewrite IH by done. set_solver.
Qed.

Lemma chainToRoot_unfold option parent ec :
  chainToRoot (mkModel option parent ec false)
  = mkModel option parent ec false
    :: match parent with Some parent => chainToRoot parent | None => [] end.
Proof. done. Qed.

Lemma collectRichItemNames_spec m acc :
  (declaresRich m = false → collectRichItemNames m acc = acc) ∧
  (declaresRich m = true →
     ∃ r, collectRichItemNames m acc = Some r ∧
          dom r = dom (default ∅ acc) ∪ richNames m).
Proof.
  revert acc. induction m as [option ec isEc|option parent ec isEc IH]
    using Model_parent_ind; intros acc.
  - destruct isEc; [by split|].
    unfold declaresRich, richNames. rewrite chainToRoot_unfold.
    rewrite fmap_cons, union_list_cons. cbn [existsb collectRichItemNames fmap list_fmap].
    rewrite orb_false_r, union_list_nil.
    change (getProp (jsOr option (VObj ∅)) "rich")
      with (declaredRich (mkModel option None ec false)).
    destruct (truthy (declaredRich (mkModel option None ec false))) eqn:Ht; simpl.
    + split; [discriminate|]. intros _. eexists. split; [reflexivity|].
      rewrite dom_collect_names. set_solver.
    + by split.
  - destruct isEc; [by split|].
    unfold declaresRich, richNames. rewrite chainToRoot_unfold.
    rewrite fmap_cons, union_list_cons. cbn [existsb collectRichItemNames].
    change (getProp (jsOr option (VObj ∅)) "rich")
      with (declaredRich (mkModel option (Some parent) ec false)).
    change (existsb (λ n, truthy (declaredRich n)) (chainToRoot parent))
      with (declaresRich parent).
    change (⋃ ((λ n, list_to_set (ownNames (declaredRich n))) <$> chainToRoot parent))
      with (richNames parent).
    destruct (truthy (declaredRich (mkModel option (Some parent) ec false))) eqn:Ht; simpl.
    + split; [discriminate|]. intros _.
      set (acc1 := Some (foldr (λ name acc0, <[name := VNum 1]> acc0) (default ∅ acc)
                     (ownNames (declaredRich (mkModel option (Some parent) ec false))))).
      destruct (IH acc1) as [IH0 IH1]. destruct (declaresRich parent) eqn:Hp.
      * destruct (IH1 eq_refl) as (r & -> & Hr).
        exists r. split; [done|]. rewrite Hr. simpl. rewrite dom_collect_names. set_solver.
      * rewrite IH0 by done. eexists. split; [reflexivity|]. rewrite dom_collect_names.
        rewrite (richNames_not_declared parent Hp). set_solver.
    + rewrite ownNames_falsy by done.
      destruct (IH acc) as [IH0 IH1]. split; [done|].
      intros Hp. destruct (IH1 Hp) as (r & -> & Hr). exists r. split; [done|].
      rewrite Hr. set_solver.
Qed.

Lemma token_returns m m' g opt noDefault pos :
  noDefault = true ∨ checkInsideReturns opt m pos →
  is_Some (setTokenTextStyle ∅ m' g opt noDefault false).
Proof.
  intros Hret. apply setTokenTextStyle_returns.
  destruct Hret as [->|Hret]; [by left | right].
  unfold checkInsideReturns in *. destruct (checkInside opt); by try intros _.
Qed.

(** The loop over the collected names: one resolved token per name, each
    resolved as a non-block node from the sub-model [rich.<name>] of the
    starting node. *)
Lemma resolveRichItems_spec m g opt noDefault (names : obj) :
  (∀ name, is_Some (setTokenTextStyle ∅ (getModel m ["rich"; name]) g opt noDefault false)) →
  ∃ r,
    resolveRichItems m g opt noDefault names = Some r ∧
    ∀ name,
      r !! name =
        match names !! name with
        | Some _ =>
            VObj <$> setTokenTextStyle ∅ (getModel m ["rich"; name]) g opt noDefault false
        | None => None
        end.
Proof.
  intros Htok. unfold resolveRichItems.
  apply (map_fold_weak_ind (λ (acc : option obj) (ns : obj),
    ∃ r, acc = Some r ∧
      ∀ name, r !! name =
        match ns !! name with
        | Some _ =>
            VObj <$> setTokenTextStyle ∅ (getModel m ["rich"; name]) g opt noDefault false
        | None => None
        end)).
  - exists ∅. split; [done|]. intros name. by rewrite !lookup_empty.
  - intros i x ns acc Hi (r & -> & Hr). destruct (Htok i) as [tok Htoki].
    exists (<[i := VObj tok]> r). split.
    + cbn [mbind option_bind]. by rewrite Htoki.
    + intros name. destruct (decide (i = name)) as [<-|Hne].
      * by rewrite !lookup_insert_eq, Htoki.
      * by rewrite !lookup_insert_ne.
Qed.

Lemma writeTokenTextStyle_rich ts m g opt isBlock f s l :
  writeTokenTextStyle ts m g opt isBlock f s l !! "rich" = ts !! "rich".
Proof.
  unfold writeTokenTextStyle.
  destruct (negb isBlock || negb (disableBox opt)); lookup_stack; reflexivity.
Qed.

Lemma writeTokenTextStyle_textPosition ts m g opt isBlock f s l :
  writeTokenTextStyle ts m g opt isBlock f s l !! "textPosition" = ts !! "textPosition".
Proof.
  unfold writeTokenTextStyle.
  destruct (negb isBlock || negb (disableBox opt)); lookup_stack; reflexivity.
Qed.

Section rich_tokens.
Context `{Radians}.

Lemma writeRectText_textPosition ts m opt noDefault rich :
  get (<["rich" := rich]> (writeRectText ts m opt noDefault)) "textPosition"
  = blockTextPosition ts m opt noDefault.
Proof.
  unfold writeRectText, blockTextPosition, get. rewrite lookup_insert_ne by done.
  destruct (isRectText opt); [|done]. by lookup_stack.
Qed.

(** What [setTextStyleCommon] returns, and the [rich] field of it. *)
Lemma setTextStyleCommon_spec ts m opt noDefault :
  noDefault = true ∨
  checkInsideReturns (default EMPTY_OBJ opt) m
    (blockTextPosition ts m (default EMPTY_OBJ opt) noDefault) →
  ∃ out opt' rich,
    setTextStyleCommon ts m opt noDefault = Some (out, opt') ∧
    setTokenTextStyle (<["rich" := rich]> (writeRectText ts m (default EMPTY_OBJ opt) noDefault))
                      m (globalTextStyleOf m) (default EMPTY_OBJ opt) noDefault true
      = Some out ∧
    out !! "rich" = Some rich ∧
    (declaresRich m = false → rich = VUndef) ∧
    (declaresRich m = true →
       ∃ r, rich = VObj r ∧ dom r = richNames m ∧
         ∀ name,
           r !! name =
             if decide (name ∈ richNames m)
             then VObj <$> setTokenTextStyle ∅ (getModel m ["rich"; name])
                             (globalTextStyleOf m) (default EMPTY_OBJ opt) noDefault false
             else None).
Proof.
  intros Hret. set (o := default EMPTY_OBJ opt) in *.
  assert (∃ rich,
    match getRichItemNames m with
    | Some names => VObj <$> resolveRichItems m (globalTextStyleOf m) o noDefault names
    | None => Some VUndef
    end = Some rich ∧
    (declaresRich m = false → rich = VUndef) ∧
    (declaresRich m = true →
       ∃ r, rich = VObj r ∧ dom r = richNames m ∧
         ∀ name,
           r !! name =
             if decide (name ∈ richNames m)
             then VObj <$> setTokenTextStyle ∅ (getModel m ["rich"; name])
                             (globalTextStyleOf m) o noDefault false
             else None)) as (rich & Hrich & Hnone & Hsome).
  { unfold getRichItemNames.
    destruct (collectRichItemNames_spec m None) as [H0 H1].
    destruct (declaresRich m).
    - destruct (H1 eq_refl) as (names & -> & Hdom).
      destruct (resolveRichItems_spec m (globalTextStyleOf m) o noDefault names)
        as (r & -> & Hr).
      { intros name. by eapply token_returns. }
      exists (VObj r). split; [done|]. split; [done|]. intros _. exists r.
      split; [done|]. change (default ∅ None) with (∅ : obj) in Hdom.
      rewrite dom_empty_L, (left_id_L ∅ (∪)) in Hdom.
      assert (∀ name, r !! name =
                if decide (name ∈ richNames m)
                then VObj <$> setTokenTextStyle ∅ (getModel m ["rich"; name])
                                (globalTextStyleOf m) o noDefault false
                else None) as Hlook.
      { intros name. rewrite Hr, <- Hdom. case_decide as Hin.
        - apply elem_of_dom in Hin as [? ->]. done.
        - apply not_elem_of_dom in Hin as ->. done. }
      split; [|done]. apply set_eq. intros name. rewrite elem_of_dom, Hlook.
      case_decide as Hin.
      + split; [done|]. intros _.
        destruct (token_returns m (getModel m ["rich"; name]) (globalTextStyleOf m) o
                    noDefault _ Hret) as [tok ->]. done.
      + split; [by intros [? ?] | done].
    - rewrite H0 by done. exists VUndef. by repeat split. }
  destruct (setTokenTextStyle_returns
              (<["rich" := rich]> (writeRectText ts m o noDefault)) m
              (globalTextStyleOf m) o noDefault true) as [out Hout].
  { rewrite writeRectText_textPosition. exact Hret. }
  exists out. eexists. exists rich.
  split.
  { unfold setTextStyleCommon. fold o. rewrite Hrich. cbn [mbind option_bind].
    rewrite Hout. reflexivity. }
  split; [done|]. split; [|by split].
  apply setTokenTextStyle_inv in Hout as (f & s & l & _ & ->).
  by rewrite writeTokenTextStyle_rich, lookup_insert_eq.
Qed.

End rich_tokens.

Lemma richNames_inherited m n name :
  n ∈ chainToRoot m → name ∈ ownNames (declaredRich n) →
  name ∈ richNames m ∧ declaresRich m = true.
Proof.
  intros Hn Hname. split.
  - unfold richNames. apply elem_of_union_list.
    exists (list_to_set (ownNames (declaredRich n))). split.
    + apply list_elem_of_fmap. by exists n.
    + by apply elem_of_list_to_set.
  - unfold declaresRich. apply existsb_exists. exists n. split.
    + by apply list_elem_of_In.
    + destruct (truthy (declaredRich n)) eqn:Ht; [done|].
      rewrite ownNames_falsy in Hname by done. by apply elem_of_nil in Hname.
Qed.

Section rich_claim.
Context `{Radians}.

(** C7, as the code has it. The [rich] field [setTextStyleCommon] writes
    is [undefined] when no node of the chain (from the node up its
    parents, stopping before the global model) declares a [rich] option;
    otherwise it is a mapping whose names are exactly those declared on
    the chain, an empty mapping if every declared [rich] is empty. Each
    name is resolved by [setTokenTextStyle] as a non-block node from the
    sub-model [rich.<name>] of the starting node, and so always receives
    its box properties. A name declared on any node of the chain,
    ancestors included, is among the names. *)
Theorem rich_tokens_resolved ts m opt noDefault :
  noDefault = true ∨
  checkInsideReturns (default EMPTY_OBJ opt) m
    (blockTextPosition ts m (default EMPTY_OBJ opt) noDefault) →
  ∃ out opt',
    setTextStyleCommon ts m opt noDefault = Some (out, opt') ∧
    (declaresRich m = false → get out "rich" = VUndef) ∧
    (declaresRich m = true →
       ∃ r, get out "rich" = VObj r ∧ dom r = richNames m ∧
         ∀ name, name ∈ richNames m →
           ∃ token,
             r !! name = Some (VObj token) ∧
             setTokenTextStyle ∅ (getModel m ["rich"; name]) (globalTextStyleOf m)
                               (default EMPTY_OBJ opt) noDefault false = Some token ∧
             Forall (λ kv, token !! kv.1 = Some kv.2)
                    (boxProperties (getModel m ["rich"; name]) (default EMPTY_OBJ opt))) ∧
    (∀ n name, n ∈ chainToRoot m → name ∈ ownNames (declaredRich n) →
       name ∈ richNames m ∧ declaresRich m = true).
Proof.
  intros Hret.
  destruct (setTextStyleCommon_spec ts m opt noDefault Hret)
    as (out & opt' & rich & Hcommon & _ & Hrich & Hnone & Hsome).
  exists out, opt'. split; [done|]. unfold get. rewrite Hrich. simpl.
  split; [done|]. split; [|by apply richNames_inherited].
  intros Hdecl. destruct (Hsome Hdecl) as (r & -> & Hdom & Hlook).
  exists r. split; [done|]. split; [done|]. intros name Hname.
  specialize (Hlook name). rewrite decide_True in Hlook by done.
  destruct (setTokenTextStyle ∅ (getModel m ["rich"; name]) (globalTextStyleOf m)
              (default EMPTY_OBJ opt) noDefault false) as [token|] eqn:Htoken.
  - exists token. split; [done|]. split; [done|].
    by apply setTokenTextStyle_box in Htoken.
  - apply (f_equal is_Some) in Hlook. simpl in Hlook.
    assert (is_Some (r !! name)) as Hin by (apply elem_of_dom; by rewrite Hdom).
    rewrite Hlook in Hin. by destruct Hin.
Qed.

End rich_claim.

Lemma rich_tokens_resolved_witness :
  ∃ out opt',
    @setTextStyleCommon exampleRadians ∅ exampleChildModel None false = Some (out, opt') ∧
    (declaresRich exampleChildModel = false → get out "rich" = VUndef) ∧
    (declaresRich exampleChildModel = true →
       ∃ r, get out "rich" = VObj r ∧ dom r = richNames exampleChildModel ∧
         ∀ name, name ∈ richNames exampleChildModel →
           ∃ token,
             r !! name = Some (VObj token) ∧
             setTokenTextStyle ∅ (getModel exampleChildModel ["rich"; name])
                               (globalTextStyleOf exampleChildModel)
                               (default EMPTY_OBJ None) false false = Some token ∧
             Forall (λ kv, token !! kv.1 = Some kv.2)
                    (boxProperties (getModel exampleChildModel ["rich"; name])
                                   (default EMPTY_OBJ None))) ∧
    (∀ n name, n ∈ chainToRoot exampleChildModel → name ∈ ownNames (declaredRich n) →
       name ∈ richNames exampleChildModel ∧ declaresRich exampleChildModel = true).
Proof.
  apply (@rich_tokens_resolved exampleRadians ∅ exampleChildModel None false).
  right. simpl. discriminate.
Defined.

(** C7, as the claim has it, fails on two counts: a chain that declares no
    token, only an empty [rich], resolves an empty mapping, not an absent
    field; and a token is resolved with its box, the background of
    [rich.a] being written although [disableBox] is set. *)
Lemma rich_empty_mapping_and_token_box :
  richNames exampleEmptyRichModel = ∅ ∧
  (@setTextStyleCommon exampleRadians ∅ exampleEmptyRichModel None false
     ≫= λ r, r.1 !! "rich") = Some (VObj ∅) ∧
  disableBox optDisableBox = true ∧
  ((λ r, getProp (getProp (get r.1 "rich") "a") "textBackgroundColor")
     <$> @setTextStyleCommon exampleRadians ∅ exampleLabelModel (Some optDisableBox) false)
  = Some (VStr "red").
Proof.
  split; [vm_compute; reflexivity|]. split; [vm_compute; reflexivity|].
  split; [reflexivity|]. vm_compute. reflexivity.
Qed.

(** ** Text styles: no-default mode *)

Lemma getShallow_not_declared m key :
  Forall (λ n, declaresKey n key = false) (chain m) → nullish (getShallow m key) = true.
Proof.
  induction m as [option ec isEc|option parent ec isEc IH] using Model_parent_ind;
    simpl; intros Hchain; apply Forall_cons in Hchain as [Hn Hchain];
    unfold declaresKey in Hn; simpl in Hn; apply negb_false_iff in Hn.
  - destruct (nullish option) eqn:Ho; [by rewrite Ho | by rewrite Hn].
  - destruct (nullish option) eqn:Ho; [rewrite Ho | rewrite Hn]; by apply IH.
Qed.

Ltac nullish_sources :=
  repeat match goal with
         | H : Forall _ (_ :: _) |- _ => apply Forall_cons in H as [? H]
         | H : Forall _ [] |- _ => clear H
         end;
  repeat match goal with
         | H : nullish (getShallow ?m ?k) = true |- _ =>
             destruct (getShallow m k); try discriminate H; clear H
         end.

Section no_default.
Context `{Radians}.

(** In no-default mode every property the block resolution writes is null
    or undefined when the model chain gives none of its sources. *)
Lemma noDefault_entries ts m opt rich :
  Forall (λ entry : string * list string,
            Forall (λ src, nullish (getShallow m src) = true) entry.2 →
            nullish (get (writeTokenTextStyle
                            (<["rich" := rich]> (writeRectText ts m opt true))
                            m (VObj ∅) opt true
                            (getAutoColor (getShallow m "color") opt)
                            (getAutoColor (getShallow m "textBorderColor") opt)
                            (getShallow m "textBorderWidth"))
                         entry.1) = true)
         (resolvedFrom opt).
Proof.
  unfold resolvedFrom, writeTokenTextStyle, writeRectText.
  destruct (isRectText opt), (disableBox opt); cbn [negb orb app];
    repeat constructor; cbn [fst snd]; intros Hsrc; lookup_stack;
    nullish_sources; reflexivity.
Qed.

(** C5. In no-default mode ([setTextStyle] with [noDefault], the emphasis
    path of [setLabelStyle]) the resolution always returns, and every
    property it writes that the caller's specified style does not override
    is null or undefined when the model chain gives no value for the keys
    it is read from. In particular [textFill] is the declared colour with
    ['auto'] replaced, whatever the global theme, [checkInside], the
    position and the auto colour are: no theme colour, no white fill for
    an inside label, and no default position or distance. A key no node
    of the chain declares has a null or undefined [getShallow]. *)
Theorem no_default_stays_null ts m specified opt :
  ∃ out opt',
    setTextStyle ts m specified opt true = Some (out, opt') ∧
    Forall (λ entry : string * list string,
              match specified with Some sp => sp !! entry.1 = None | None => True end →
              Forall (λ src, nullish (getShallow m src) = true) entry.2 →
              nullish (get out entry.1) = true)
           (resolvedFrom (default EMPTY_OBJ opt)) ∧
    (match specified with Some sp => sp !! "textFill" = None | None => True end →
     get out "textFill" = getAutoColor (getShallow m "color") (default EMPTY_OBJ opt)) ∧
    (∀ key, Forall (λ n, declaresKey n key = false) (chain m) →
       nullish (getShallow m key) = true).
Proof.
  destruct (setTextStyleCommon_spec ts m opt true (or_introl eq_refl))
    as (out & opt' & rich & Hcommon & Hout & _).
  apply setTokenTextStyle_inv in Hout as (f & s & l & [= -> -> ->] & ->).
  eexists _, opt'. split.
  { unfold setTextStyle. rewrite Hcommon. reflexivity. }
  cbn [negb andb].
  assert (∀ k,
    match specified with Some sp => sp !! k = None | None => True end →
    get match specified with
        | Some sp =>
            extend (writeTokenTextStyle
                      (<["rich" := rich]> (writeRectText ts m (default EMPTY_OBJ opt) true))
                      m (VObj ∅) (default EMPTY_OBJ opt) true
                      (getAutoColor (getShallow m "color") (default EMPTY_OBJ opt))
                      (getAutoColor (getShallow m "textBorderColor") (default EMPTY_OBJ opt))
                      (getShallow m "textBorderWidth")) sp
        | None =>
            writeTokenTextStyle
              (<["rich" := rich]> (writeRectText ts m (default EMPTY_OBJ opt) true))
              m (VObj ∅) (default EMPTY_OBJ opt) true
              (getAutoColor (getShallow m "color") (default EMPTY_OBJ opt))
              (getAutoColor (getShallow m "textBorderColor") (default EMPTY_OBJ opt))
              (getShallow m "textBorderWidth")
        end k
    = get (writeTokenTextStyle
             (<["rich" := rich]> (writeRectText ts m (default EMPTY_OBJ opt) true))
             m (VObj ∅) (default EMPTY_OBJ opt) true
             (getAutoColor (getShallow m "color") (default EMPTY_OBJ opt))
             (getAutoColor (getShallow m "textBorderColor") (default EMPTY_OBJ opt))
             (getShallow m "textBorderWidth")) k) as Hspec.
  { intros k Hk. destruct specified as [sp|]; [|done]. by rewrite get_extend, Hk. }
  split; [|split; [|exact (getShallow_not_declared m)]].
  - eapply Forall_impl; [apply (noDefault_entries ts m (default EMPTY_OBJ opt) rich)|].
    intros entry Hentry Hsp Hsrc. rewrite Hspec by done. by apply Hentry.
  - intros Hsp. rewrite Hspec by done. unfold writeTokenTextStyle.
    destruct (negb true || negb (disableBox (default EMPTY_OBJ opt)));
      by lookup_stack.
Qed.

End no_default.

Lemma no_default_stays_null_witness :
  ∃ out opt',
    @setTextStyle exampleRadians ∅ exampleEmphasisModel None (Some optRectText) true
      = Some (out, opt') ∧
    Forall (λ entry : string * list string,
              True →
              Forall (λ src, nullish (getShallow exampleEmphasisModel src) = true) entry.2 →
              nullish (get out entry.1) = true)
           (resolvedFrom (default EMPTY_OBJ (Some optRectText))) ∧
    (True →
     get out "textFill"
     = getAutoColor (getShallow exampleEmphasisModel "color")
                    (default EMPTY_OBJ (Some optRectText))) ∧
    (∀ key, Forall (λ n, declaresKey n key = false) (chain exampleEmphasisModel) →
       nullish (getShallow exampleEmphasisModel key) = true).
Proof.
  exact (@no_default_stays_null exampleRadians ∅ exampleEmphasisModel None
           (Some optRectText)).
Defined.

(** ** Text styles: the label *)

Section label.
Context `{Radians}.

Lemma setLabelStyle_texts normalStyle emphasisStyle nm em opt nspec espec ns es calls :
  setLabelStyle normalStyle emphasisStyle nm em opt nspec espec = Some (ns, es, calls) →
  get ns "text" = labelText (default EMPTY_OBJ opt) nm "normal"
                            (defaultText (default EMPTY_OBJ opt)) ∧
  get es "text" = labelText (default EMPTY_OBJ opt) em "emphasis"
                    (labelText (default EMPTY_OBJ opt) nm "normal"
                               (defaultText (default EMPTY_OBJ opt))) ∧
  (truthy (getShallow nm "show") = false → CallGetFormattedLabel "normal" ∉ calls) ∧
  (truthy (getShallow em "show") = false → CallGetFormattedLabel "emphasis" ∉ calls).
Proof.
  unfold setLabelStyle, labelText. set (o := default EMPTY_OBJ opt).
  destruct (truthy (getShallow nm "show")), (truthy (getShallow em "show")),
    (labelFetcher o) as [fetch|];
    cbn [app]; intros Hs;
    destruct (negb _ || negb _);
    repeat first
      [ progress cbn [mbind option_bind] in Hs
      | match type of Hs with
        | context [setTextStyle ?a ?b ?c ?d ?e] =>
            destruct (setTextStyle a b c d e) as [[? ?]|]
        end ];
    try discriminate Hs; injection Hs as <- <- <-;
    unfold get; rewrite !lookup_insert_eq;
    (split; [done|]); (split; [done|]);
    split; intros Hshow; try discriminate Hshow; set_solver.
Qed.

Lemma setLabelStyle_short_circuit normalStyle emphasisStyle nm em opt nspec espec :
  nullish (labelText (default EMPTY_OBJ opt) nm "normal"
                     (defaultText (default EMPTY_OBJ opt))) = true →
  nullish (labelText (default EMPTY_OBJ opt) em "emphasis"
             (labelText (default EMPTY_OBJ opt) nm "normal"
                        (defaultText (default EMPTY_OBJ opt)))) = true →
  ∃ calls,
    setLabelStyle normalStyle emphasisStyle nm em opt nspec espec
    = Some (<["text" := labelText (default EMPTY_OBJ opt) nm "normal"
                          (defaultText (default EMPTY_OBJ opt))]> normalStyle,
            <["text" := labelText (default EMPTY_OBJ opt) em "emphasis"
                          (labelText (default EMPTY_OBJ opt) nm "normal"
                                     (defaultText (default EMPTY_OBJ opt)))]> emphasisStyle,
            calls) ∧
    ∀ noDefault, CallSetTextStyle noDefault ∉ calls.
Proof.
  unfold setLabelStyle, labelText. set (o := default EMPTY_OBJ opt).
  destruct (truthy (getShallow nm "show")), (truthy (getShallow em "show")),
    (labelFetcher o) as [fetch|];
    cbn [app]; intros -> Hte; try rewrite Hte;
    cbn [negb orb mbind option_bind];
    (eexists; split; [reflexivity|]; intros noDefault; set_solver).
Qed.

Lemma setTextStyle_returns ts m specified opt noDefault :
  noDefault = true ∨
  checkInsideReturns (default EMPTY_OBJ opt) m
    (blockTextPosition ts m (default EMPTY_OBJ opt) noDefault) →
  is_Some (setTextStyle ts m specified opt noDefault).
Proof.
  intros Hret.
  destruct (setTextStyleCommon_spec ts m opt noDefault Hret) as (out & opt' & _ & Hc & _).
  unfold setTextStyle. rewrite Hc. done.
Qed.

Lemma setLabelStyle_returns normalStyle emphasisStyle nm em opt nspec espec :
  checkInsideReturns (default EMPTY_OBJ opt) nm
    (blockTextPosition normalStyle nm (default EMPTY_OBJ opt) false) →
  is_Some (setLabelStyle normalStyle emphasisStyle nm em opt nspec espec).
Proof.
  intros Hret. unfold setLabelStyle. set (o := default EMPTY_OBJ opt) in *.
  assert (∀ calls ns es,
    is_Some ((if negb (nullish ns) || negb (nullish es)
              then '(normalStyle0, opt0) ← setTextStyle normalStyle nm nspec (Some o) false;
                   '(emphasisStyle0, _) ← setTextStyle emphasisStyle em espec (Some opt0) true;
                   Some (normalStyle0, emphasisStyle0,
                         calls ++ [CallSetTextStyle false; CallSetTextStyle true])
              else Some (normalStyle, emphasisStyle, calls))
             ≫= λ '(normalStyle0, emphasisStyle0, calls0),
                  Some (<["text" := ns]> normalStyle0, <["text" := es]> emphasisStyle0,
                        calls0))) as Hsome.
  { intros calls ns es. destruct (negb (nullish ns) || negb (nullish es)); [|done].
    destruct (setTextStyle_returns normalStyle nm nspec (Some o) false) as [[ns1 o1] ->];
      [by right|].
    cbn [mbind option_bind].
    destruct (setTextStyle_returns emphasisStyle em espec (Some o1) true) as [[es1 o2] ->];
      [by left|].
    done. }
  destruct (truthy (getShallow nm "show")), (truthy (getShallow em "show")),
    (labelFetcher o); apply Hsome.
Qed.

(** C6. When a state's model has a falsy [show], the text content stamped
    on that state's style is [null] and [getFormattedLabel] is not called
    for that state. When both computed text contents are null or
    undefined, [setLabelStyle] returns without any call of [setTextStyle],
    hence without looking at the rich tokens, and the two style records
    are the given ones with [text] set; with both [show] falsy it makes no
    call at all. [setLabelStyle] returns whenever [checkInside] does. *)
Theorem label_text_gate normalStyle emphasisStyle nm em opt nspec espec :
  (∀ ns es calls,
     setLabelStyle normalStyle emphasisStyle nm em opt nspec espec = Some (ns, es, calls) →
     (truthy (getShallow nm "show") = false →
        get ns "text" = VNull ∧ CallGetFormattedLabel "normal" ∉ calls) ∧
     (truthy (getShallow em "show") = false →
        get es "text" = VNull ∧ CallGetFormattedLabel "emphasis" ∉ calls)) ∧
  (nullish (labelText (default EMPTY_OBJ opt) nm "normal"
                      (defaultText (default EMPTY_OBJ opt))) = true →
   nullish (labelText (default EMPTY_OBJ opt) em "emphasis"
              (labelText (default EMPTY_OBJ opt) nm "normal"
                         (defaultText (default EMPTY_OBJ opt)))) = true →
   ∃ calls,
     setLabelStyle normalStyle emphasisStyle nm em opt nspec espec
     = Some (<["text" := labelText (default EMPTY_OBJ opt) nm "normal"
                           (defaultText (default EMPTY_OBJ opt))]> normalStyle,
             <["text" := labelText (default EMPTY_OBJ opt) em "emphasis"
                           (labelText (default EMPTY_OBJ opt) nm "normal"
                                      (defaultText (default EMPTY_OBJ opt)))]> emphasisStyle,
             calls) ∧
     ∀ noDefault, CallSetTextStyle noDefault ∉ calls) ∧
  (truthy (getShallow nm "show") = false → truthy (getShallow em "show") = false →
   setLabelStyle normalStyle emphasisStyle nm em opt nspec espec
   = Some (<["text" := VNull]> normalStyle, <["text" := VNull]> emphasisStyle, [])) ∧
  (checkInsideReturns (default EMPTY_OBJ opt) nm
     (blockTextPosition normalStyle nm (default EMPTY_OBJ opt) false) →
   is_Some (setLabelStyle normalStyle emphasisStyle nm em opt nspec espec)).
Proof.
  split; [|split; [apply setLabelStyle_short_circuit|split; [|apply setLabelStyle_returns]]].
  - intros ns es calls Hs.
    destruct (setLabelStyle_texts _ _ _ _ _ _ _ _ _ _ Hs) as (Hn & He & Hcn & Hce).
    split; intros Hshow.
    + split; [|by apply Hcn]. rewrite Hn. unfold labelText. by rewrite Hshow.
    + split; [|by apply Hce]. rewrite He. unfold labelText at 1. by rewrite Hshow.
  - intros Hn He. unfold setLabelStyle. by rewrite Hn, He.
Qed.

End label.

Lemma label_text_gate_witness :
  @setLabelStyle exampleRadians ∅ ∅ exampleHiddenModel exampleHiddenModel
     (Some optWithFormatter) None None
  = Some (<["text" := VNull]> ∅, <["text" := VNull]> ∅, []).
Proof.
  destruct (@label_text_gate exampleRadians ∅ ∅ exampleHiddenModel exampleHiddenModel
              (Some optWithFormatter) None None) as (_ & _ & Hhidden & _).
  apply Hhidden; reflexivity.
Defined.

(** * Further properties of the hover functions *)

(** A traversal whose callback takes elements satisfying [P] to elements
    satisfying [Q]. *)
Section traversal_pre_post.
Variable cb : elData → M elData.
Variables P Q : heap → elData → Prop.
Variable R : elData → elData → Prop.
Hypothesis P_mono : ∀ d (h h' : heap), P h d → length h ≤ length h' → P h' d.
Hypothesis Q_mono : ∀ d (h h' : heap), Q h d → length h ≤ length h' → Q h' d.
Hypothesis cb_spec : ∀ d h, P h d →
  ∃ d' h', cb d h = Some (d', h') ∧ R d d' ∧ length h ≤ length h' ∧ Q h' d'.

Lemma forEach_visit_pre_post children :
  Forall (λ el, ∀ h, Forall (P h) (leaves el) →
            ∃ el' h', visit cb el h = Some (el', h') ∧ length h ≤ length h' ∧
                      Forall2 R (leaves el) (leaves el') ∧ Forall (Q h') (leaves el'))
         children →
  ∀ h, Forall (P h) (concat (map leaves children)) →
  ∃ children' h',
    forEach (visit cb) children h = Some (children', h') ∧ length h ≤ length h' ∧
    Forall2 R (concat (map leaves children)) (concat (map leaves children')) ∧
    Forall (Q h') (concat (map leaves children')).
Proof.
  induction 1 as [|c children Hc _ IH]; intros h HP.
  - exists [], h. simpl. by repeat split.
  - simpl in HP. apply Forall_app in HP as [HPc HPr].
    destruct (Hc h HPc) as (c' & h1 & Hv & Hlen1 & Hl1 & HQ1).
    destruct (IH h1) as (children' & h2 & Hf & Hlen2 & Hl2 & HQ2).
    { eapply Forall_impl; [exact HPr|]. intros d Hd. by eapply P_mono. }
    exists (c' :: children'), h2. simpl. munfold. rewrite Hv, Hf.
    split; [done|]. split; [lia|]. split; [by apply Forall2_app|].
    apply Forall_app. split; [|done].
    eapply Forall_impl; [exact HQ1|]. intros d Hd. by eapply Q_mono.
Qed.

Lemma visit_pre_post el h :
  Forall (P h) (leaves el) →
  ∃ el' h', visit cb el h = Some (el', h') ∧ length h ≤ length h' ∧
            Forall2 R (leaves el) (leaves el') ∧ Forall (Q h') (leaves el').
Proof.
  revert h. induction el as [d|d children IH] using element_forall_ind; intros h HP.
  - apply Forall_inv in HP. destruct (cb_spec d h HP) as (d' & h' & Hcb & HR & Hlen & HQ).
    exists (Shape d'), h'. simpl. munfold. rewrite Hcb.
    split; [done|]. split; [done|]. split; by repeat constructor.
  - destruct (forEach_visit_pre_post children IH h HP)
      as (children' & h' & Hf & Hlen & Hl & HQ).
    exists (Group d children'), h'. simpl. munfold. rewrite Hf.
    split; [done|]. split; [done|]. done.
Qed.

Lemma traverse_pre_post children h :
  Forall (P h) (concat (map leaves children)) →
  ∃ children' h',
    traverse cb children h = Some (children', h') ∧ length h ≤ length h' ∧
    Forall2 R (concat (map leaves children)) (concat (map leaves children')) ∧
    Forall (Q h') (concat (map leaves children')).
Proof.
  apply forEach_visit_pre_post. apply Forall_forall. intros el _ h'. apply visit_pre_post.
Qed.

End traversal_pre_post.

Section hover_more.
Context `{ZRender}.

(** X1. An element that draws its hover on the hover layer keeps its style and
    [z2] through enter and leave: enter registers the pending hover style
    with the layer when the element is attached to a renderer, and leave
    drops it. *)
Theorem hover_layer_keeps_style el h :
  wfRefs h el = true → useHoverLayer el = true → __isHover el = false →
  ∃ el1 h1 el2,
    doSingleEnterHover el h = Some (el1, h1) ∧
    doSingleLeaveHover el1 h1 = Some (el2, h1) ∧
    style el1 = style el ∧ z2 el1 = z2 el ∧ __isHover el1 = true ∧
    __zr el1 = match __zr el with
               | Some _ => Some (Overlay (__hoverStl el))
               | None => None
               end ∧
    style el2 = style el ∧ z2 el2 = z2 el ∧ __isHover el2 = false ∧
    __zr el2 = match __zr el with Some _ => Some NoOverlay | None => None end.
Proof.
  intros Hwf Hu Hh.
  destruct (doSingleEnterHover_total el h Hwf) as [[el1 h1] He].
  exists el1, h1, (leaveResult el1). split; [done|].
  split; [apply doSingleLeaveHover_eq|].
  apply doSingleEnterHover_inv in He as [(Hh' & _)|(_ & elc & Hc & Hcases)];
    [congruence|].
  assert (∃ n b, elc = set_hoverStlDirty b (set_normalStl n el)) as (n & b & ->).
  { apply cacheElementStl_inv in Hc as [(_ & -> & _)|(l & hs & _ & _ & _ & -> & _)].
    - exists (__normalStl el), (__hoverStlDirty el). by destruct el.
    - by eexists _, _. }
  destruct Hcases as [[_ ->]|(Hu' & _)]; [|simpl in Hu'; congruence].
  unfold leaveResult, enterOverlay. simpl.
  destruct (__zr el) eqn:Hz; simpl; rewrite Hu; simpl; rewrite ?Hz; by repeat split.
Qed.

(** X2. With the dirty flag clear nothing is captured on enter: leave gives
    every key of the old snapshot its snapshot value, whatever the live
    value was before the enter, and a key the hover style sets that the
    snapshot lacks keeps its hover value. *)
Theorem stale_snapshot_restored el h l delta snapshot :
  __isHover el = false → __hoverStlDirty el = false → useHoverLayer el = false →
  __hoverStl el = Some l → h !! l = Some delta → __normalStl el = Some snapshot →
  ∃ el1 el2,
    doSingleEnterHover el h = Some (el1, h) ∧
    doSingleLeaveHover el1 h = Some (el2, h) ∧
    ∀ k, style el2 !! k =
           match snapshot !! k with
           | Some v => Some v
           | None =>
               match delta !! k with
               | Some v => if nullish v then style el !! k else Some v
               | None => style el !! k
               end
           end.
Proof.
  intros Hh Hd Hu Hl Hdelta Hn.
  exists (enterStyle (Some delta) el), (leaveResult (enterStyle (Some delta) el)).
  split.
  { unfold doSingleEnterHover. rewrite Hh. munfold.
    rewrite cacheElementStl_clean by done. rewrite Hu, Hl, Hdelta. reflexivity. }
  split; [apply doSingleLeaveHover_eq|].
  intros k. unfold leaveResult, enterStyle, setStyle. cbn -[extendFrom].
  rewrite Hu, Hn. cbn -[extendFrom]. rewrite !lookup_extendFrom. cbn [orb].
  destruct (snapshot !! k); [done|]. destruct (delta !! k) as [v|]; [|done].
  by destruct (nullish v).
Qed.

Lemma setElementHoverStl_eq d hoverStl h :
  setElementHoverStl d hoverStl h
  = if __isHover d
    then cacheElementStl
           (set_hoverStlDirty true
              (set_hoverStl (Some (match hoverStyle d, hoverStl with
                                   | Some l, _ | None, Some l => l
                                   | None, None => length h
                                   end)) d))
           (match hoverStyle d, hoverStl with
            | Some _, _ | None, Some _ => h
            | None, None => h ++ [∅]
            end)
    else Some (set_hoverStlDirty true
                 (set_hoverStl (Some (match hoverStyle d, hoverStl with
                                      | Some l, _ | None, Some l => l
                                      | None, None => length h
                                      end)) d),
               match hoverStyle d, hoverStl with
               | Some _, _ | None, Some _ => h
               | None, None => h ++ [∅]
               end).
Proof.
  unfold setElementHoverStl. munfold.
  destruct (hoverStyle d), hoverStl; simpl; by destruct (__isHover d).
Qed.

(** X3. Giving a hover style to an element while it is hovering captures the
    snapshot from the style as it is then, hover values included: the
    leave that follows takes [z2] down by one and changes no style read. *)
Theorem reconfigure_while_hovering el hoverStl h :
  wfRefs h el = true → validRef h hoverStl = true →
  __isHover el = true → useHoverLayer el = false →
  ∃ el1 h1 el2,
    setElementHoverStl el hoverStl h = Some (el1, h1) ∧
    doSingleLeaveHover el1 h1 = Some (el2, h1) ∧
    (∀ k, readStyle (style el2) k = readStyle (style el) k) ∧
    z2 el2 = (z2 el - 1)%Z ∧ __isHover el2 = false.
Proof.
  intros Hwf Harg Hh Hu.
  destruct (setElementHoverStl_spec el hoverStl h (conj Hwf Harg))
    as (el1 & h1 & Hs & _).
  exists el1, h1, (leaveResult el1). split; [done|].
  split; [apply doSingleLeaveHover_eq|].
  rewrite setElementHoverStl_eq, Hh in Hs.
  apply cacheElementStl_inv in Hs as [(Hd & _)|(l' & hs & _ & _ & _ & -> & _)];
    [discriminate Hd|].
  unfold leaveResult, setStyle. cbn -[extendFrom captureNormalStyle hoverStyleOnCapture].
  rewrite Hh, Hu. cbn -[extendFrom captureNormalStyle hoverStyleOnCapture].
  split; [|by split]. intros k. unfold readStyle.
  rewrite lookup_extendFrom, lookup_captureNormalStyle. cbn [orb].
  destruct (hoverStyleOnCapture (style el) hs !! k) as [v|]; [|done].
  by destruct (negb (nullish v)).
Qed.

(** X4. One hover style object given to a group is shared by its children, and
    the default fill the first child writes into it is the fill the second
    child takes on hover, whatever its own fill is. *)
Theorem shared_hover_style_leaks g d1 d2 h l c1 opt :
  readStyle (style d1) "fill" = VStr c1 → c1 ≠ "none" →
  truthy (lift c1 (QArith_base.Qmake (-1) 10)) = true →
  hoverStyle d1 = None → hoverStyle d2 = None →
  __isHover d1 = false → __isHover d2 = false →
  useHoverLayer d1 = false → useHoverLayer d2 = false →
  h !! l = Some ∅ →
  ∃ g1 c1' c2' h1 g2 d1' d2' h2,
    setHoverStyle (Group g [Shape d1; Shape d2]) (Some l) opt h
      = Some (Group g1 [Shape c1'; Shape c2'], h1) ∧
    doEnterHover (Group g1 [Shape c1'; Shape c2']) h1
      = Some (Group g2 [Shape d1'; Shape d2'], h2) ∧
    readStyle (style d1') "fill" = lift c1 (QArith_base.Qmake (-1) 10) ∧
    readStyle (style d2') "fill" = lift c1 (QArith_base.Qmake (-1) 10).
Proof.
  intros Hfill Hnone Hlift Hown1 Hown2 Hh1 Hh2 Hu1 Hu2 Hl.
  assert (l < length h) as Hlt by (by eapply lookup_lt_Some).
  set (c1' := set_hoverStlDirty true (set_hoverStl (Some l) d1)).
  set (c2' := set_hoverStlDirty true (set_hoverStl (Some l) d2)).
  set (hs1 := hoverStyleOnCapture (style c1') ∅).
  destruct (enter_leave_dirty c1' h l ∅) as (d1' & _ & He1 & _ & _ & _ & _ & _ & Hs1 & _);
    try done.
  destruct (enter_leave_dirty c2' (<[l := hs1]> h) l hs1)
    as (d2' & _ & He2 & _ & _ & _ & _ & _ & Hs2 & _); try done.
  { by apply list_lookup_insert_eq. }
  eexists _, c1', c2', h, _, d1', d2', _. split; [|split; [|split]].
  - unfold setHoverStyle, traverse. cbn [with_data forEach visit]. munfold.
    rewrite (setElementHoverStl_normal d1) by done. rewrite Hown1.
    rewrite (setElementHoverStl_normal d2) by done. rewrite Hown2. reflexivity.
  - unfold doEnterHover, traverse. cbn [forEach visit]. munfold.
    rewrite He1. fold hs1. cbn [mbind]. rewrite He2. reflexivity.
  - destruct (Hs1 Hu1) as [-> _]. unfold readStyle.
    rewrite lookup_extendFrom, lookup_hoverStyleOnCapture_fill.
    change (readStyle (style c1') "fill") with (readStyle (style d1) "fill").
    rewrite Hfill. unfold defaultFillOrStroke, hasFillOrStroke, liftColor, jsOr. cbn.
    destruct (String.eqb_spec c1 "none") as [?|_]; [done|].
    unfold get. rewrite lookup_empty. cbn.
    destruct (lift c1 _); try done.
  - destruct (Hs2 Hu2) as [-> _]. unfold readStyle.
    rewrite lookup_extendFrom, lookup_hoverStyleOnCapture_fill.
    unfold get, hs1. rewrite lookup_hoverStyleOnCapture_fill.
    change (readStyle (style c1') "fill") with (readStyle (style d1) "fill").
    rewrite Hfill. unfold defaultFillOrStroke, hasFillOrStroke, liftColor, jsOr. cbn.
    destruct (String.eqb_spec c1 "none") as [?|_]; [done|].
    unfold get. rewrite lookup_empty. cbn.
    rewrite Hlift. destruct (lift c1 _); try done.
Qed.

Lemma Forall2_compose {A B C} (R1 : A → B → Prop) (R2 : B → C → Prop) l1 l2 l3 :
  Forall2 R1 l1 l2 → Forall2 R2 l2 l3 →
  Forall2 (λ a c, ∃ b, R1 a b ∧ R2 b c) l1 l3.
Proof.
  intros H12. revert l3. induction H12 as [|a b l1 l2 Hab _ IH]; intros l3 H23.
  - apply Forall2_nil_inv_l in H23 as ->. constructor.
  - apply Forall2_cons_inv_l in H23 as (c & l3' & Hbc & H23 & ->).
    constructor; [by exists b | by apply IH].
Qed.

(** X5. Hover style given to a group, then enter and leave on the group: every
    displayable element below is hovering in between, and afterwards reads
    the style and has the [z2] it had before, also when the children
    share one hover style object. *)
Theorem group_round_trip g children delta opt h :
  Forall (λ d, wfRefs h d = true ∧ __isHover d = false) (concat (map leaves children)) →
  validRef h delta = true →
  ∃ g1 cs1 h1 cs2 h2 cs3,
    setHoverStyle (Group g children) delta opt h = Some (Group g1 cs1, h1) ∧
    doEnterHover (Group g1 cs1) h1 = Some (Group g1 cs2, h2) ∧
    doLeaveHover (Group g1 cs2) h2 = Some (Group g1 cs3, h2) ∧
    Forall (λ d, __isHover d = true) (concat (map leaves cs2)) ∧
    Forall2 (λ d d', (∀ k, readStyle (style d') k = readStyle (style d) k) ∧
                     z2 d' = z2 d ∧ __isHover d' = false)
            (concat (map leaves children)) (concat (map leaves cs3)).
Proof.
  intros Hwf Harg.
  (* configure *)
  destruct (traverse_pre_post (λ child, setElementHoverStl child delta)
              (λ h d, wfRefs h d = true ∧ validRef h delta = true ∧ __isHover d = false)
              (λ h d, wfRefs h d = true ∧ __isHover d = false ∧ __hoverStlDirty d = true)
              (λ d d', style d' = style d ∧ z2 d' = z2 d))
    with (children := children) (h := h)
    as (cs1 & h1 & Ht1 & _ & Hl1 & HQ1).
  { intros d h0 h' (? & ? & ?) ?.
    split; [by apply (wfRefs_mono h0)|]. split; [by apply (validRef_mono h0) | done]. }
  { intros d h0 h' (? & ? & ?) ?. split; [by apply (wfRefs_mono h0) | done]. }
  { intros d h0 (Hd & Hv & Hh).
    destruct (setElementHoverStl_spec d delta h0 (conj Hd Hv))
      as (d' & h' & Hs & (_ & Hst & Hz & Hhov & _) & Hlen & Hwf' & _).
    exists d', h'. split; [done|]. split; [done|]. split; [done|].
    split; [done|]. split; [congruence|].
    rewrite setElementHoverStl_eq, Hh in Hs. by injection Hs as <- _. }
  { eapply Forall_impl; [exact Hwf|]. by intros d [? ?]. }
  (* enter *)
  destruct (traverse_pre_post doSingleEnterHover
              (λ h d, wfRefs h d = true ∧ __isHover d = false ∧ __hoverStlDirty d = true)
              (λ _ _, True)
              (λ d d', __isHover d' = true ∧
                       (∀ k, readStyle (style (leaveResult d')) k = readStyle (style d) k) ∧
                       z2 (leaveResult d') = z2 d))
    with (children := cs1) (h := h1)
    as (cs2 & h2 & Ht2 & _ & Hl2 & _); [| done | | done |].
  { intros d h0 h' (? & ? & ?) ?. split; [by apply (wfRefs_mono h0) | done]. }
  { intros d h0 (Hd & Hh & Hdirty).
    assert (∃ l hs, __hoverStl d = Some l ∧ h0 !! l = Some hs) as (l & hs & Hl & Hhs).
    { unfold wfRefs in Hd. rewrite Hdirty in Hd.
      apply andb_prop in Hd as [[_ Hv]%andb_prop [l Hl]%bool_decide_eq_true].
      rewrite Hl in Hv. destruct (validRef_lookup _ _ Hv) as [hs Hhs]. by exists l, hs. }
    destruct (enter_leave_dirty d h0 l hs Hh Hdirty Hl Hhs)
      as (d1 & d2 & He & Hlv & Hh1 & _ & Hz & Hk & _).
    rewrite doSingleLeaveHover_eq in Hlv. injection Hlv as <-.
    exists d1, (<[l := hoverStyleOnCapture (style d) hs]> h0).
    split; [done|]. split; [done|]. by rewrite length_insert. }
  (* leave *)
  destruct (traverse_pre_post doSingleLeaveHover (λ _ _, True) (λ _ _, True)
              (λ d d', d' = leaveResult d))
    with (children := cs2) (h := h2)
    as (cs3 & h3 & Ht3 & _ & Hl3 & _); [done | done | | by apply Forall_forall |].
  { intros d h0 _. exists (leaveResult d), h0. by rewrite doSingleLeaveHover_eq. }
  assert (h3 = h2) as ->.
  { eapply traverse_heap_pure; [|exact Ht3].
    intros d0 h4 d1 h5. rewrite doSingleLeaveHover_eq. congruence. }
  eexists _, cs1, h1, cs2, h2, cs3. split; [|split; [|split; [|split]]].
  - unfold setHoverStyle. cbn [with_data]. munfold. rewrite Ht1. reflexivity.
  - unfold doEnterHover. munfold. by rewrite Ht2.
  - unfold doLeaveHover. munfold. by rewrite Ht3.
  - eapply Forall2_Forall_r; [exact Hl2|]. apply Forall_forall. by intros ? _ ? [? _].
  - eapply Forall2_impl; [exact (Forall2_compose _ _ _ _ _ Hl1
                                   (Forall2_compose _ _ _ _ _ Hl2 Hl3))|].
    intros d d3 (d1 & [Hst Hz] & d2 & (_ & Hk & Hz2) & ->).
    split; [intros k; by rewrite Hk, Hst|]. split; [congruence|].
    by destruct (leaveResult_frame d2) as (_&_&_&_&_&_&_&?&_).
Qed.

(** X6. Leave on an element that is not hovering changes nothing, so a second
    leave after a leave changes nothing. *)
Theorem leave_applied_once el h :
  (__isHover el = false → doSingleLeaveHover el h = Some (el, h)) ∧
  ∃ el1, doSingleLeaveHover el h = Some (el1, h) ∧
         doSingleLeaveHover el1 h = Some (el1, h).
Proof.
  split.
  - intros Hh. rewrite doSingleLeaveHover_eq. unfold leaveResult. by rewrite Hh.
  - exists (leaveResult el). rewrite !doSingleLeaveHover_eq. split; [done|].
    destruct (leaveResult_frame el) as (_&_&_&_&_&_&_&Hh&_).
    unfold leaveResult at 1. by rewrite Hh.
Qed.

Lemma setElementHoverStl_flags d hoverStl h d' h' :
  setElementHoverStl d hoverStl h = Some (d', h') →
  __hoverSilentOnTouch d' = __hoverSilentOnTouch d ∧ __isEmphasis d' = __isEmphasis d.
Proof.
  rewrite setElementHoverStl_eq. destruct (__isHover d).
  - intros [(_ & -> & _)|(l & hs & _ & _ & _ & -> & _)]%cacheElementStl_inv; done.
  - by intros [= <- _].
Qed.

(** X7. [setHoverStyle] sets the touch policy of the element it is called on
    from its options, clearing it when there are none; under the policy a
    pointer event that comes from a touch changes nothing. *)
Theorem touch_hover_suppressed el delta opt h :
  Forall (λ d, wfRefs h d = true) (leaves el) → validRef h delta = true →
  ∃ el' h',
    setHoverStyle el delta opt h = Some (el', h') ∧
    __hoverSilentOnTouch (data el')
      = match opt with Some opt => opt_hoverSilentOnTouch opt | None => false end ∧
    (__hoverSilentOnTouch (data el') = true →
     ∀ hh, onElementMouseOver el' {| zrByTouch := true |} hh = Some (el', hh) ∧
           onElementMouseOut el' {| zrByTouch := true |} hh = Some (el', hh)).
Proof.
  intros Hwf Harg.
  destruct (setHoverStyle_spec el delta opt h Hwf Harg) as (el' & h' & Hs & _).
  exists el', h'. split; [done|]. split.
  - unfold setHoverStyle in Hs. munfold. destruct el as [d|g children]; cbn [with_data] in Hs.
    + destruct (setElementHoverStl _ delta h) as [[d1 h1]|] eqn:Hd; [|done].
      injection Hs as <- _. apply setElementHoverStl_flags in Hd as [Hsil _]. done.
    + destruct (traverse _ children h) as [[cs1 h1]|]; [|done]. by injection Hs as <- _.
  - intros Hsil hh. unfold onElementMouseOver, onElementMouseOut. by rewrite Hsil.
Qed.

(** X8. However often [setHoverStyle] has been invoked on an element nothing
    was subscribed on before, an event runs its handler once: triggering
    it is the handler, and an event of another name does nothing. *)
Theorem configured_events_run_once el calls h :
  Forall (λ d, wfRefs h d = true) (leaves el) →
  Forall (λ c : option loc * option hoverOpt, validRef h c.1 = true) calls →
  calls ≠ [] → _handlers (data el) = ∅ →
  ∃ el' h',
    setHoverStyleAll calls el h = Some (el', h') ∧
    ∀ e hh,
      trigger "mouseover" e el' hh = onElementMouseOver el' e hh ∧
      trigger "mouseout" e el' hh = onElementMouseOut el' e hh ∧
      trigger "emphasis" e el' hh = enterEmphasis el' hh ∧
      trigger "normal" e el' hh = leaveEmphasis el' hh ∧
      ∀ name, name ∉ ["mouseover"; "mouseout"; "emphasis"; "normal"] →
              trigger name e el' hh = Some (el', hh).
Proof.
  intros Hwf Hcalls Hne Hfresh.
  destruct (setHoverStyleAll_spec calls el h Hwf Hcalls) as (el' & h' & Hall & Hh & _).
  exists el', h'. split; [done|].
  assert (_handlers (data el') = subscribedOnce) as Htable.
  { rewrite Hh, Hfresh. destruct calls; [done|]. apply hoverSubscriptions_fresh. }
  assert (∀ hdl e hh, invokeAll [hdl] e el' hh = invoke hdl e el' hh) as Hone.
  { intros hdl e hh. cbn [invokeAll]. munfold. by destruct (invoke hdl e el' hh) as [[? ?]|]. }
  intros e hh. unfold trigger. rewrite Htable.
  split; [apply (Hone HMouseOver)|]. split; [apply (Hone HMouseOut)|].
  split; [apply (Hone HEnterEmphasis)|]. split; [apply (Hone HLeaveEmphasis)|].
  intros name Hname. unfold subscribedOnce.
  rewrite !lookup_insert_ne by set_solver.
  by rewrite lookup_singleton_ne by set_solver.
Qed.

End hover_more.

Section hover_unconfigured.
Context `{ZRender}.

(** X9. An element that was never given a hover style can still be entered:
    enter raises [z2] by one and marks the element, leave gives back the
    element as it was, the repaint mark apart; no style is read or
    written and nothing raises. *)
Theorem unconfigured_enter_leave el h :
  __hoverStl el = None → __hoverStlDirty el = false → __normalStl el = None →
  __isHover el = false → useHoverLayer el = false →
  doSingleEnterHover el h
    = Some (set_isHover true (set_z2 (z2 el + 1) (set_dirty true el)), h) ∧
  doSingleLeaveHover (set_isHover true (set_z2 (z2 el + 1) (set_dirty true el))) h
    = Some (set_dirty true el, h).
Proof.
  intros Hl Hd Hn Hh Hu. split.
  - unfold doSingleEnterHover. rewrite Hh. munfold.
    rewrite cacheElementStl_clean by done. rewrite Hu, Hl.
    destruct el; cbn in *; subst. reflexivity.
  - rewrite doSingleLeaveHover_eq. unfold leaveResult.
    destruct el as [? ? ? ? ? ? ? ? ? ? z ? ?]; cbn in *; subst. cbn.
    by replace (z + 1 - 1)%Z with z by lia.
Qed.

(** X10. With no hover style given, every child of a group gets an object of
    its own, and on hover each takes the lifted colour of its own fill. *)
Theorem fresh_hover_style_per_child g d1 d2 h c1 c2 opt :
  readStyle (style d1) "fill" = VStr c1 → c1 ≠ "none" →
  readStyle (style d2) "fill" = VStr c2 → c2 ≠ "none" →
  truthy (lift c1 (QArith_base.Qmake (-1) 10)) = true →
  truthy (lift c2 (QArith_base.Qmake (-1) 10)) = true →
  hoverStyle d1 = None → hoverStyle d2 = None →
  __isHover d1 = false → __isHover d2 = false →
  useHoverLayer d1 = false → useHoverLayer d2 = false →
  ∃ g1 c1' c2' h1 g2 d1' d2' h2,
    setHoverStyle (Group g [Shape d1; Shape d2]) None opt h
      = Some (Group g1 [Shape c1'; Shape c2'], h1) ∧
    __hoverStl c1' ≠ __hoverStl c2' ∧
    doEnterHover (Group g1 [Shape c1'; Shape c2']) h1
      = Some (Group g2 [Shape d1'; Shape d2'], h2) ∧
    readStyle (style d1') "fill" = lift c1 (QArith_base.Qmake (-1) 10) ∧
    readStyle (style d2') "fill" = lift c2 (QArith_base.Qmake (-1) 10).
Proof.
  intros Hfill1 Hnone1 Hfill2 Hnone2 Hlift1 Hlift2 Hown1 Hown2 Hh1 Hh2 Hu1 Hu2.
  set (l1 := length h). set (l2 := S (length h)).
  set (c1' := set_hoverStlDirty true (set_hoverStl (Some l1) d1)).
  set (c2' := set_hoverStlDirty true (set_hoverStl (Some l2) d2)).
  set (h1 := (h ++ [∅]) ++ [∅]).
  assert (h1 !! l1 = Some ∅) as Hl1.
  { subst h1 l1. rewrite <- app_assoc. by rewrite lookup_app_r, Nat.sub_diag by lia. }
  assert (l2 = length (h ++ [∅])) as Hlen2.
  { subst l2. rewrite length_app. simpl. lia. }
  set (hs1 := hoverStyleOnCapture (style c1') ∅).
  destruct (enter_leave_dirty c1' h1 l1 ∅) as (d1' & _ & He1 & _ & _ & _ & _ & _ & Hs1 & _);
    try done.
  assert (<[l1 := hs1]> h1 !! l2 = Some ∅) as Hl2.
  { rewrite list_lookup_insert_ne by (subst l1 l2; lia).
    subst h1. rewrite Hlen2. by rewrite lookup_app_r, Nat.sub_diag by lia. }
  destruct (enter_leave_dirty c2' (<[l1 := hs1]> h1) l2 ∅)
    as (d2' & _ & He2 & _ & _ & _ & _ & _ & Hs2 & _); try done.
  eexists _, c1', c2', h1, _, d1', d2', _. split; [|split; [|split; [|split]]].
  - unfold setHoverStyle, traverse. cbn [with_data forEach visit]. munfold.
    rewrite (setElementHoverStl_normal d1) by done. rewrite Hown1.
    rewrite (setElementHoverStl_normal d2) by done. rewrite Hown2.
    rewrite <- Hlen2. reflexivity.
  - subst c1' c2' l1 l2. cbn. intros [=]. lia.
  - unfold doEnterHover, traverse. cbn [forEach visit]. munfold.
    rewrite He1. fold hs1. cbn [mbind]. rewrite He2. reflexivity.
  - destruct (Hs1 Hu1) as [-> _]. unfold readStyle.
    rewrite lookup_extendFrom, lookup_hoverStyleOnCapture_fill.
    change (readStyle (style c1') "fill") with (readStyle (style d1) "fill").
    rewrite Hfill1. unfold defaultFillOrStroke, hasFillOrStroke, liftColor, jsOr. cbn.
    destruct (String.eqb_spec c1 "none") as [?|_]; [done|].
    unfold get. rewrite lookup_empty. cbn.
    destruct (lift c1 _); try done.
  - destruct (Hs2 Hu2) as [-> _]. unfold readStyle.
    rewrite lookup_extendFrom, lookup_hoverStyleOnCapture_fill.
    change (readStyle (style c2') "fill") with (readStyle (style d2) "fill").
    rewrite Hfill2. unfold defaultFillOrStroke, hasFillOrStroke, liftColor, jsOr. cbn.
    destruct (String.eqb_spec c2 "none") as [?|_]; [done|].
    unfold get. rewrite lookup_empty. cbn.
    destruct (lift c2 _); try done.
Qed.

End hover_unconfigured.

(** *** Examples *)

Lemma hover_layer_keeps_style_witness :
  ∃ el1 h1 el2,
    @doSingleEnterHover exampleZRender exampleLayerLeaf exampleHeap = Some (el1, h1) ∧
    doSingleLeaveHover el1 h1 = Some (el2, h1) ∧
    style el1 = style exampleLayerLeaf ∧ z2 el1 = z2 exampleLayerLeaf ∧
    __isHover el1 = true ∧
    __zr el1 = Some (Overlay (Some 1)) ∧
    style el2 = style exampleLayerLeaf ∧ z2 el2 = z2 exampleLayerLeaf ∧
    __isHover el2 = false ∧
    __zr el2 = Some NoOverlay.
Proof.
  apply (@hover_layer_keeps_style exampleZRender exampleLayerLeaf exampleHeap);
    reflexivity.
Defined.

Lemma stale_snapshot_restored_witness :
  ∃ el1 el2,
    @doSingleEnterHover exampleZRender exampleStaleLeaf exampleHeap
      = Some (el1, exampleHeap) ∧
    doSingleLeaveHover el1 exampleHeap = Some (el2, exampleHeap) ∧
    ∀ k, style el2 !! k =
           match ({["fill" := VStr "black"]} : obj) !! k with
           | Some v => Some v
           | None =>
               match ({["fill" := VStr "red"]} : obj) !! k with
               | Some v => if nullish v then style exampleStaleLeaf !! k else Some v
               | None => style exampleStaleLeaf !! k
               end
           end.
Proof.
  apply (@stale_snapshot_restored exampleZRender exampleStaleLeaf exampleHeap 1);
    reflexivity.
Defined.

Lemma reconfigure_while_hovering_witness :
  ∃ el1 h1 el2,
    @setElementHoverStl exampleZRender exampleHoveringLeaf (Some 1) exampleHeap
      = Some (el1, h1) ∧
    doSingleLeaveHover el1 h1 = Some (el2, h1) ∧
    (∀ k, @readStyle exampleZRender (style el2) k
          = @readStyle exampleZRender (style exampleHoveringLeaf) k) ∧
    z2 el2 = (z2 exampleHoveringLeaf - 1)%Z ∧ __isHover el2 = false.
Proof.
  apply (@reconfigure_while_hovering exampleZRender exampleHoveringLeaf (Some 1)
           exampleHeap); reflexivity.
Defined.

Lemma shared_hover_style_leaks_witness :
  ∃ g1 c1' c2' h1 g2 d1' d2' h2,
    @setHoverStyle exampleZRender
       (Group (newElement ∅)
              [Shape exampleLeaf; Shape (newElement {["fill" := VStr "green"]})])
       (Some 0) None exampleHeap
      = Some (Group g1 [Shape c1'; Shape c2'], h1) ∧
    @doEnterHover exampleZRender (Group g1 [Shape c1'; Shape c2']) h1
      = Some (Group g2 [Shape d1'; Shape d2'], h2) ∧
    @readStyle exampleZRender (style d1') "fill" = VStr "lift(#336699)" ∧
    @readStyle exampleZRender (style d2') "fill" = VStr "lift(#336699)".
Proof.
  apply (@shared_hover_style_leaks exampleZRender (newElement ∅) exampleLeaf
           (newElement {["fill" := VStr "green"]}) exampleHeap 0 "#336699" None);
    (reflexivity || discriminate).
Defined.

Lemma group_round_trip_witness :
  ∃ g1 cs1 h1 cs2 h2 cs3,
    @setHoverStyle exampleZRender exampleGroup (Some 1) None exampleHeap
      = Some (Group g1 cs1, h1) ∧
    @doEnterHover exampleZRender (Group g1 cs1) h1 = Some (Group g1 cs2, h2) ∧
    doLeaveHover (Group g1 cs2) h2 = Some (Group g1 cs3, h2) ∧
    Forall (λ d, __isHover d = true) (concat (map leaves cs2)) ∧
    Forall2 (λ d d', (∀ k, @readStyle exampleZRender (style d') k
                           = @readStyle exampleZRender (style d) k) ∧
                     z2 d' = z2 d ∧ __isHover d' = false)
            (leaves exampleGroup) (concat (map leaves cs3)).
Proof.
  apply (@group_round_trip exampleZRender (newElement ∅)
           [Shape exampleLeaf; Group (newElement ∅) [Shape exampleLeaf]]
           (Some 1) None exampleHeap).
  - repeat constructor.
  - reflexivity.
Defined.

Lemma leave_applied_once_witness :
  (__isHover exampleLeaf = false →
     doSingleLeaveHover exampleLeaf exampleHeap
     = Some (exampleLeaf, exampleHeap)) ∧
  ∃ el1, doSingleLeaveHover exampleHoveringLeaf exampleHeap
           = Some (el1, exampleHeap) ∧
         doSingleLeaveHover el1 exampleHeap = Some (el1, exampleHeap).
Proof.
  split.
  - apply (leave_applied_once exampleLeaf exampleHeap).
  - apply (leave_applied_once exampleHoveringLeaf exampleHeap).
Defined.

Lemma touch_hover_suppressed_witness :
  ∃ el' h',
    @setHoverStyle exampleZRender (Shape exampleLeaf) (Some 1)
       (Some {| opt_hoverSilentOnTouch := true |}) exampleHeap = Some (el', h') ∧
    __hoverSilentOnTouch (data el') = true ∧
    (__hoverSilentOnTouch (data el') = true →
     ∀ hh, @onElementMouseOver exampleZRender el' {| zrByTouch := true |} hh = Some (el', hh) ∧
           onElementMouseOut el' {| zrByTouch := true |} hh = Some (el', hh)).
Proof.
  apply (@touch_hover_suppressed exampleZRender (Shape exampleLeaf) (Some 1)
           (Some {| opt_hoverSilentOnTouch := true |}) exampleHeap).
  - repeat constructor.
  - reflexivity.
Defined.

Lemma configured_events_run_once_witness :
  ∃ el' h',
    @setHoverStyleAll exampleZRender [(Some 0, None); (None, None)] exampleGroup exampleHeap
      = Some (el', h') ∧
    ∀ e hh,
      @trigger exampleZRender "mouseover" e el' hh = @onElementMouseOver exampleZRender el' e hh ∧
      @trigger exampleZRender "mouseout" e el' hh = onElementMouseOut el' e hh ∧
      @trigger exampleZRender "emphasis" e el' hh = @enterEmphasis exampleZRender el' hh ∧
      @trigger exampleZRender "normal" e el' hh = leaveEmphasis el' hh ∧
      ∀ name, name ∉ ["mouseover"; "mouseout"; "emphasis"; "normal"] →
              @trigger exampleZRender name e el' hh = Some (el', hh).
Proof.
  apply (@configured_events_run_once exampleZRender exampleGroup
           [(Some 0, None); (None, None)] exampleHeap).
  - repeat constructor.
  - repeat constructor.
  - discriminate.
  - reflexivity.
Defined.

Lemma unconfigured_enter_leave_witness :
  @doSingleEnterHover exampleZRender exampleLeaf exampleHeap
    = Some (set_isHover true (set_z2 1 (set_dirty true exampleLeaf)), exampleHeap) ∧
  doSingleLeaveHover (set_isHover true (set_z2 1 (set_dirty true exampleLeaf))) exampleHeap
    = Some (set_dirty true exampleLeaf, exampleHeap).
Proof.
  apply (@unconfigured_enter_leave exampleZRender exampleLeaf exampleHeap); reflexivity.
Defined.

Lemma fresh_hover_style_per_child_witness :
  ∃ g1 c1' c2' h1 g2 d1' d2' h2,
    @setHoverStyle exampleZRender
       (Group (newElement ∅)
              [Shape exampleLeaf; Shape (newElement {["fill" := VStr "green"]})])
       None None exampleHeap
      = Some (Group g1 [Shape c1'; Shape c2'], h1) ∧
    __hoverStl c1' ≠ __hoverStl c2' ∧
    @doEnterHover exampleZRender (Group g1 [Shape c1'; Shape c2']) h1
      = Some (Group g2 [Shape d1'; Shape d2'], h2) ∧
    @readStyle exampleZRender (style d1') "fill" = VStr "lift(#336699)" ∧
    @readStyle exampleZRender (style d2') "fill" = VStr "lift(green)".
Proof.
  apply (@fresh_hover_style_per_child exampleZRender (newElement ∅) exampleLeaf
           (newElement {["fill" := VStr "green"]}) exampleHeap "#336699" "green" None);
    (reflexivity || discriminate).
Defined.

(** * Further properties of the text-style functions *)

Lemma writeTokenTextStyle_fill ts m g opt isBlock f s l :
  get (writeTokenTextStyle ts m g opt isBlock f s l) "textFill" = f ∧
  get (writeTokenTextStyle ts m g opt isBlock f s l) "textStroke" = s ∧
  get (writeTokenTextStyle ts m g opt isBlock f s l) "textLineWidth" = l.
Proof.
  unfold writeTokenTextStyle.
  destruct (negb isBlock || negb (disableBox opt)); repeat split; by lookup_stack.
Qed.

(** The fill, stroke and stroke width of default mode, case by case. *)
Lemma defaultFillStroke_cases m g opt pos fill stroke lw :
  let base := if nullish fill then getProp g "color" else fill in
  let stroke0 := if nullish stroke then getProp g "textBorderColor" else stroke in
  let lw0 := if nullish lw then getProp g "textBorderWidth" else lw in
  (nullish base = false →
     defaultFillStroke m g opt pos fill stroke lw = Some (base, stroke0, lw0)) ∧
  (nullish base = true → effectiveCheckInside opt = None →
     defaultFillStroke m g opt pos fill stroke lw = Some (autoColor opt, stroke0, lw0)) ∧
  (∀ f, nullish base = true → effectiveCheckInside opt = Some f → f m pos = None →
     defaultFillStroke m g opt pos fill stroke lw = None) ∧
  (∀ f v, nullish base = true → effectiveCheckInside opt = Some f → f m pos = Some v →
     defaultFillStroke m g opt pos fill stroke lw
     = if truthy v then
         Some (VStr "#fff",
               (if nullish stroke0 then autoColor opt else stroke0),
               (if nullish stroke0 then (if nullish lw0 then VNum 2 else lw0) else lw0))
       else Some (autoColor opt, stroke0, lw0)).
Proof.
  intros base stroke0 lw0. unfold defaultFillStroke, effectiveCheckInside.
  fold base stroke0 lw0. repeat split.
  - intros Hb. rewrite Hb. cbn. by rewrite Hb.
  - intros Hb Hc. rewrite Hb.
    destruct (checkInside opt); [destruct (isRectText opt)| |]; try done; cbn;
      by rewrite Hb.
  - intros f Hb Hc Hf. rewrite Hb.
    destruct (checkInside opt); [destruct (isRectText opt)| |]; try done;
      injection Hc as <-; by rewrite Hf.
  - intros f v Hb Hc Hf. rewrite Hb.
    destruct (checkInside opt); [destruct (isRectText opt)| |]; try done;
      injection Hc as <-; rewrite Hf; cbn;
      (destruct (truthy v); [by destruct (nullish stroke0) | cbn; by rewrite Hb]).
Qed.


Lemma setTokenTextStyle_default_eq ts m g opt isBlock :
  setTokenTextStyle ts m g opt false isBlock
  = (λ c : value * value * value,
       writeTokenTextStyle ts m (if truthy g then g else VObj ∅) opt isBlock
                           c.1.1 c.1.2 c.2)
    <$> defaultFillStroke m (if truthy g then g else VObj ∅) opt (get ts "textPosition")
          (getAutoColor (getShallow m "color") opt)
          (getAutoColor (getShallow m "textBorderColor") opt)
          (getShallow m "textBorderWidth").
Proof.
  unfold setTokenTextStyle. cbn [negb andb].
  by destruct (defaultFillStroke _ _ _ _ _ _ _) as [[[f s] l]|].
Qed.

(** Default mode with no fill declared or themed: the outcome of
    [checkInside] decides. *)
Lemma setTokenTextStyle_checked ts m g opt isBlock f :
  nullish (themedFill m g opt) = true → effectiveCheckInside opt = Some f →
  setTokenTextStyle ts m g opt false isBlock
  = (v ← f m (get ts "textPosition");
     Some (if truthy v
           then writeTokenTextStyle ts m (if truthy g then g else VObj ∅) opt isBlock
                  (VStr "#fff")
                  (if nullish (themedStroke m g opt) then autoColor opt
                   else themedStroke m g opt)
                  (if nullish (themedStroke m g opt)
                   then if nullish (themedLineWidth m g) then VNum 2
                        else themedLineWidth m g
                   else themedLineWidth m g)
           else writeTokenTextStyle ts m (if truthy g then g else VObj ∅) opt isBlock
                  (autoColor opt) (themedStroke m g opt) (themedLineWidth m g))).
Proof.
  intros Hb Hc.
  destruct (defaultFillStroke_cases m (if truthy g then g else VObj ∅) opt
              (get ts "textPosition")
              (getAutoColor (getShallow m "color") opt)
              (getAutoColor (getShallow m "textBorderColor") opt)
              (getShallow m "textBorderWidth")) as (_ & _ & H3 & H4).
  rewrite setTokenTextStyle_default_eq.
  fold (themedFill m g opt) (themedStroke m g opt) (themedLineWidth m g) in H3, H4.
  destruct (f m (get ts "textPosition")) as [v|] eqn:Hf.
  - rewrite (H4 f v Hb Hc Hf). cbn [mbind option_bind]. by destruct (truthy v).
  - by rewrite (H3 f Hb Hc Hf).
Qed.

(** X11. In default mode the text fill is the first of: the declared colour
    (with ['auto'] resolved), the colour of the global text style, white
    when [checkInside] says the label is inside, the auto colour. A white
    fill with no stroke declared or themed gets a stroke in the auto
    colour, of width 2 unless a width is given. [checkInside] is only
    called when no fill is declared or themed, and the resolution raises
    if it does. *)
Theorem default_text_fill ts m g opt isBlock :
  (nullish (themedFill m g opt) = false →
     ∃ out, setTokenTextStyle ts m g opt false isBlock = Some out ∧
       get out "textFill" = themedFill m g opt ∧
       get out "textStroke" = themedStroke m g opt ∧
       get out "textLineWidth" = themedLineWidth m g) ∧
  (nullish (themedFill m g opt) = true → effectiveCheckInside opt = None →
     ∃ out, setTokenTextStyle ts m g opt false isBlock = Some out ∧
       get out "textFill" = autoColor opt ∧
       get out "textStroke" = themedStroke m g opt ∧
       get out "textLineWidth" = themedLineWidth m g) ∧
  (∀ f v, nullish (themedFill m g opt) = true → effectiveCheckInside opt = Some f →
     f m (get ts "textPosition") = Some v → truthy v = true →
     ∃ out, setTokenTextStyle ts m g opt false isBlock = Some out ∧
       get out "textFill" = VStr "#fff" ∧
       get out "textStroke"
         = (if nullish (themedStroke m g opt) then autoColor opt else themedStroke m g opt) ∧
       get out "textLineWidth"
         = (if nullish (themedStroke m g opt) && nullish (themedLineWidth m g)
            then VNum 2 else themedLineWidth m g)) ∧
  (∀ f v, nullish (themedFill m g opt) = true → effectiveCheckInside opt = Some f →
     f m (get ts "textPosition") = Some v → truthy v = false →
     ∃ out, setTokenTextStyle ts m g opt false isBlock = Some out ∧
       get out "textFill" = autoColor opt ∧
       get out "textStroke" = themedStroke m g opt ∧
       get out "textLineWidth" = themedLineWidth m g) ∧
  (∀ f, nullish (themedFill m g opt) = true → effectiveCheckInside opt = Some f →
     f m (get ts "textPosition") = None →
     setTokenTextStyle ts m g opt false isBlock = None).
Proof.
  destruct (defaultFillStroke_cases m (if truthy g then g else VObj ∅) opt
              (get ts "textPosition")
              (getAutoColor (getShallow m "color") opt)
              (getAutoColor (getShallow m "textBorderColor") opt)
              (getShallow m "textBorderWidth")) as (H1 & H2 & H3 & H4).
  rewrite setTokenTextStyle_default_eq.
  fold (themedFill m g opt) (themedStroke m g opt) (themedLineWidth m g) in H1, H2, H3, H4.
  split; [|split; [|split; [|split]]].
  - intros Hb. rewrite (H1 Hb). eexists. split; [reflexivity|].
    apply writeTokenTextStyle_fill.
  - intros Hb Hc. rewrite (H2 Hb Hc). eexists. split; [reflexivity|].
    apply writeTokenTextStyle_fill.
  - intros f v Hb Hc Hf Hv. rewrite (H4 f v Hb Hc Hf), Hv. eexists.
    split; [reflexivity|].
    destruct (writeTokenTextStyle_fill ts m (if truthy g then g else VObj ∅) opt isBlock
                (VStr "#fff")
                (if nullish (themedStroke m g opt) then autoColor opt
                 else themedStroke m g opt)
                (if nullish (themedStroke m g opt)
                 then if nullish (themedLineWidth m g) then VNum 2 else themedLineWidth m g
                 else themedLineWidth m g)) as (Hfill & Hstroke & Hlw).
    split; [exact Hfill|]. split; [exact Hstroke|].
    etransitivity; [exact Hlw|].
    by destruct (nullish (themedStroke m g opt)), (nullish (themedLineWidth m g)).
  - intros f v Hb Hc Hf Hv. rewrite (H4 f v Hb Hc Hf), Hv. eexists.
    split; [reflexivity|]. apply writeTokenTextStyle_fill.
  - intros f Hb Hc Hf. by rewrite (H3 f Hb Hc Hf).
Qed.

Lemma defaultFillStroke_declared m g opt pos fill stroke lw f s l :
  defaultFillStroke m g opt pos fill stroke lw = Some (f, s, l) →
  (nullish fill = false → f = fill) ∧ (nullish stroke = false → s = stroke).
Proof.
  unfold defaultFillStroke. intros Hd. split.
  - intros Hf. rewrite Hf in Hd. cbn in Hd. rewrite Hf in Hd. cbn in Hd.
    rewrite Hf in Hd. by injection Hd as <- _ _.
  - intros Hs. rewrite Hs in Hd.
    destruct (nullish (if nullish fill then getProp g "color" else fill)).
    + destruct (match checkInside opt with
                | CheckInsideUnset =>
                    if isRectText opt then CheckInsideFn defaultCheckInside
                    else CheckInsideUnset
                | c => c
                end) as [| |fn]; cbn in Hd; try by injection Hd as _ <- _.
      destruct (fn m pos) as [v|]; [|done]. cbn in Hd.
      destruct (truthy v); rewrite ?Hs in Hd; by injection Hd as _ <- _.
    + cbn in Hd. by injection Hd as _ <- _.
Qed.

(** X12. A colour declared as ['auto'] is the caller's auto colour in the
    resolved fill, stroke, box background and box border, in both modes;
    without an auto colour a fill declared ['auto'] is [null] in
    no-default mode. *)
Theorem auto_color_resolved ts m g opt noDefault isBlock out :
  setTokenTextStyle ts m g opt noDefault isBlock = Some out →
  (truthy (autoColor opt) = true →
     (isStr (getShallow m "color") "auto" = true → get out "textFill" = autoColor opt) ∧
     (isStr (getShallow m "textBorderColor") "auto" = true →
        get out "textStroke" = autoColor opt) ∧
     (isBlock = false ∨ disableBox opt = false →
        (isStr (getShallow m "backgroundColor") "auto" = true →
           get out "textBackgroundColor" = autoColor opt) ∧
        (isStr (getShallow m "borderColor") "auto" = true →
           get out "textBorderColor" = autoColor opt))) ∧
  (truthy (autoColor opt) = false → noDefault = true →
     isStr (getShallow m "color") "auto" = true → get out "textFill" = VNull).
Proof.
  intros Hout.
  pose proof (setTokenTextStyle_box _ _ _ _ _ _ _ Hout) as Hbox.
  apply setTokenTextStyle_inv in Hout as (f & s & l & Hcol & ->).
  destruct (writeTokenTextStyle_fill ts m
              (if negb noDefault && truthy g then g else VObj ∅) opt isBlock f s l)
    as (-> & -> & _).
  assert (∀ key, truthy (autoColor opt) = true → isStr (getShallow m key) "auto" = true →
            getAutoColor (getShallow m key) opt = autoColor opt ∧
            nullish (getAutoColor (getShallow m key) opt) = false) as Hauto.
  { intros key Ha Hk. unfold getAutoColor. rewrite Hk, Ha. cbn. split; [done|].
    by destruct (autoColor opt). }
  split.
  - intros Ha. split; [|split].
    + intros Hk. destruct (Hauto "color" Ha Hk) as [Heq Hnn].
      destruct noDefault; [by injection Hcol as -> _ _|].
      apply defaultFillStroke_declared in Hcol as [Hf _]. by rewrite Hf.
    + intros Hk. destruct (Hauto "textBorderColor" Ha Hk) as [Heq Hnn].
      destruct noDefault; [by injection Hcol as _ -> _|].
      apply defaultFillStroke_declared in Hcol as [_ Hs]. by rewrite Hs.
    + intros Hb.
      assert (negb isBlock || negb (disableBox opt) = true) as Hcond.
      { destruct Hb as [-> | ->]; [done | by destruct isBlock]. }
      rewrite Hcond in Hbox. unfold boxProperties in Hbox.
      apply Forall_cons in Hbox as [Hbg Hbox]. apply Forall_cons in Hbox as [_ Hbox].
      apply Forall_cons in Hbox as [Hbc _]. cbn [fst snd] in Hbg, Hbc.
      unfold get. rewrite Hbg, Hbc. cbn.
      split; intros Hk; by apply Hauto.
  - intros Ha -> Hk. injection Hcol as -> _ _. unfold getAutoColor. by rewrite Hk, Ha.
Qed.

Lemma writeTokenTextStyle_frame ts m g opt isBlock f s l k :
  k ∉ tokenStyleKeys → writeTokenTextStyle ts m g opt isBlock f s l !! k = ts !! k.
Proof.
  unfold tokenStyleKeys. intros Hk.
  repeat (apply not_elem_of_cons in Hk as [? Hk]).
  unfold writeTokenTextStyle.
  destruct (negb isBlock || negb (disableBox opt));
    repeat (rewrite lookup_insert_ne by done); reflexivity.
Qed.

Section text_more.
Context `{Radians}.

Lemma setTextStyleCommon_inv ts m opt noDefault out opt' :
  setTextStyleCommon ts m opt noDefault = Some (out, opt') →
  ∃ rich g f s l,
    out = writeTokenTextStyle
            (<["rich" := rich]> (writeRectText ts m (default EMPTY_OBJ opt) noDefault))
            m g (default EMPTY_OBJ opt) true f s l.
Proof.
  unfold setTextStyleCommon. intros Hc.
  destruct (match getRichItemNames m with
            | Some names => _
            | None => Some VUndef
            end) as [rich|]; [|done].
  cbn [mbind option_bind] in Hc.
  destruct (setTokenTextStyle _ m _ _ noDefault true) as [out0|] eqn:Hout; [|done].
  cbn [mbind option_bind] in Hc. injection Hc as <- _.
  apply setTokenTextStyle_inv in Hout as (f & s & l & _ & ->). by eexists _, _, _, _, _.
Qed.

(** X13. [setTextStyleCommon] writes the resolved properties, [rich], and for a
    label in a rectangle the four rect-text properties; every other
    property of the style record, [text] among them, is left as it was. *)
Theorem resolver_frame ts m opt noDefault out opt' k :
  setTextStyleCommon ts m opt noDefault = Some (out, opt') →
  k ∉ tokenStyleKeys → k ≠ "rich" →
  (isRectText (default EMPTY_OBJ opt) = true → k ∉ rectTextKeys) →
  out !! k = ts !! k.
Proof.
  intros (rich & g & f & s & l & ->)%setTextStyleCommon_inv Hk Hrich Hrect.
  rewrite writeTokenTextStyle_frame by done. rewrite lookup_insert_ne by done.
  unfold writeRectText. destruct (isRectText (default EMPTY_OBJ opt)); [|done].
  specialize (Hrect eq_refl). unfold rectTextKeys in Hrect.
  repeat (apply not_elem_of_cons in Hrect as [? Hrect]).
  by repeat (rewrite lookup_insert_ne by done).
Qed.

(** X14. For a label in a rectangle the position is the declared one, with
    ['outside'] read as ['top'], and ['inside'] when none is declared
    (nothing in no-default mode); the distance is the declared one, else
    5 (nothing in no-default mode). Otherwise the rect-text properties
    are left as they were. *)
Theorem rect_text_defaults ts m opt noDefault out opt' :
  setTextStyleCommon ts m opt noDefault = Some (out, opt') →
  (isRectText (default EMPTY_OBJ opt) = true →
     (isStr (getShallow m "position") "outside" = true →
        get out "textPosition" = VStr "top") ∧
     (truthy (getShallow m "position") = false →
        get out "textPosition" = if noDefault then VNull else VStr "inside") ∧
     (truthy (getShallow m "position") = true →
      isStr (getShallow m "position") "outside" = false →
        get out "textPosition" = getShallow m "position") ∧
     get out "textDistance"
       = (if nullish (getShallow m "distance")
          then if noDefault then VNull else VNum 5
          else getShallow m "distance") ∧
     get out "textOffset" = getShallow m "offset") ∧
  (isRectText (default EMPTY_OBJ opt) = false →
     Forall (λ k, out !! k = ts !! k) rectTextKeys).
Proof.
  intros (rich & g & f & s & l & ->)%setTextStyleCommon_inv.
  assert (∀ k, k ∈ rectTextKeys →
    writeTokenTextStyle
      (<["rich" := rich]> (writeRectText ts m (default EMPTY_OBJ opt) noDefault))
      m g (default EMPTY_OBJ opt) true f s l !! k
    = writeRectText ts m (default EMPTY_OBJ opt) noDefault !! k) as Hframe.
  { intros k Hk. unfold rectTextKeys in Hk.
    repeat (apply elem_of_cons in Hk as [->|Hk]); try (by apply elem_of_nil in Hk);
      (rewrite writeTokenTextStyle_frame by (by apply (bool_decide_unpack _)));
      by rewrite lookup_insert_ne. }
  unfold get. rewrite !Hframe by (by apply (bool_decide_unpack _)).
  unfold writeRectText. split.
  - intros ->. split; [|split; [|split; [|split]]].
    + intros Hp. lookup_stack. unfold jsOr.
      assert (truthy (getShallow m "position") = true) as ->.
      { by destruct (getShallow m "position") as [| | | |[|? ?]| |]. }
      by rewrite Hp.
    + intros Hp. lookup_stack. unfold jsOr. rewrite Hp. by destruct noDefault.
    + intros Hp Ho. lookup_stack. unfold jsOr. by rewrite Hp, Ho.
    + by lookup_stack.
    + by lookup_stack.
  - intros ->. unfold rectTextKeys.
    repeat apply Forall_cons_2; [..|by apply Forall_nil_2]; cbn beta;
      (rewrite writeTokenTextStyle_frame by (by apply (bool_decide_unpack _)));
      by rewrite lookup_insert_ne.
Qed.

(** X15. The caller's specified style wins over everything [setTextStyle]
    resolves: each of its properties is in the result as given, and the
    other properties are those of [setTextStyleCommon]. *)
Theorem specified_style_wins ts m sp opt noDefault out opt' :
  setTextStyle ts m (Some sp) opt noDefault = Some (out, opt') →
  ∃ common,
    setTextStyleCommon ts m opt noDefault = Some (common, opt') ∧
    ∀ k, out !! k = match sp !! k with Some v => Some v | None => common !! k end.
Proof.
  unfold setTextStyle. intros Hs.
  destruct (setTextStyleCommon ts m opt noDefault) as [[common o]|]; [|done].
  cbn [mbind option_bind] in Hs. injection Hs as <- <-.
  exists common. split; [done|]. intros k. rewrite extend_union, lookup_union.
  by destruct (sp !! k), (common !! k).
Qed.

End text_more.

Lemma setTokenTextStyle_total ts m g opt noDefault isBlock :
  (noDefault = false → ∀ f, effectiveCheckInside opt = Some f →
     is_Some (f m (get ts "textPosition"))) →
  is_Some (setTokenTextStyle ts m g opt noDefault isBlock).
Proof.
  intros Hret. destruct noDefault; [by apply setTokenTextStyle_returns; left|].
  rewrite setTokenTextStyle_default_eq.
  destruct (defaultFillStroke_cases m (if truthy g then g else VObj ∅) opt
              (get ts "textPosition")
              (getAutoColor (getShallow m "color") opt)
              (getAutoColor (getShallow m "textBorderColor") opt)
              (getShallow m "textBorderWidth")) as (H1 & H2 & _ & H4).
  destruct (nullish (if nullish (getAutoColor (getShallow m "color") opt)
                     then getProp (if truthy g then g else VObj ∅) "color"
                     else getAutoColor (getShallow m "color") opt)) eqn:Hb.
  - destruct (effectiveCheckInside opt) as [f|] eqn:Hc.
    + destruct (Hret eq_refl f eq_refl) as [v Hv]. rewrite (H4 f v eq_refl eq_refl Hv).
      by destruct (truthy v).
    + by rewrite (H2 eq_refl eq_refl).
  - by rewrite (H1 eq_refl).
Qed.

Section setText_facts.
Context `{Radians}.

(** [setTextStyleCommon] is the resolution of the block node on the
    style record with the rect-text properties and [rich] written, when
    every rich token resolves. *)
Lemma setTextStyleCommon_block ts m opt noDefault :
  (∀ name, is_Some (setTokenTextStyle ∅ (getModel m ["rich"; name]) (globalTextStyleOf m)
                      (default EMPTY_OBJ opt) noDefault false)) →
  ∃ rich,
    fst <$> setTextStyleCommon ts m opt noDefault
    = setTokenTextStyle
        (<["rich" := rich]> (writeRectText ts m (default EMPTY_OBJ opt) noDefault))
        m (globalTextStyleOf m) (default EMPTY_OBJ opt) noDefault true.
Proof.
  intros Htok. unfold setTextStyleCommon.
  destruct (getRichItemNames m) as [names|].
  - destruct (resolveRichItems_spec m (globalTextStyleOf m) (default EMPTY_OBJ opt)
                noDefault names Htok) as (r & -> & _).
    exists (VObj r). cbn [fmap option_fmap option_map mbind option_bind].
    by destruct (setTokenTextStyle _ m _ _ noDefault true).
  - exists VUndef. cbn [mbind option_bind].
    by destruct (setTokenTextStyle _ m _ _ noDefault true).
Qed.

Lemma setText_eq ts m c :
  ∃ rich,
    setText ts m c
    = setTokenTextStyle
        (<["rich" := rich]> (writeRectText ts m (setTextOpt c).1 (setTextOpt c).2))
        m (globalTextStyleOf m) (setTextOpt c).1 (setTextOpt c).2 true.
Proof.
  unfold setText. destruct (setTextOpt c) as [o nd] eqn:Ho. cbn [fst snd].
  apply (setTextStyleCommon_block ts m (Some o) nd).
  intros name. apply setTokenTextStyle_total. intros -> f Hf.
  cbn [default] in Hf. unfold get. rewrite lookup_empty. cbn [default].
  assert (f = defaultCheckInside) as ->.
  { unfold setTextOpt in Ho.
    destruct c as [| |[]| | | |]; injection Ho as <-; try discriminate;
      by injection Hf as <-. }
  done.
Qed.

(** X16. [setText] with a default colour, for a label with no colour declared
    or themed: the label is positioned in the rectangle, ['inside'] by
    default; when the position holds ['inside'] the fill is white, with a
    stroke in the default colour of width 2 unless one is declared or
    themed; otherwise the fill is the default colour. A position that is
    neither falsy, a string nor an array makes [setText] raise. *)
Theorem setText_default_color ts m c :
  c ≠ VBool false →
  let opt := (setTextOpt c).1 in
  let g := globalTextStyleOf m in
  let pos := blockTextPosition ts m opt false in
  nullish (themedFill m g opt) = true →
  (defaultCheckInside m pos = None → setText ts m c = None) ∧
  (∀ v, defaultCheckInside m pos = Some v →
     ∃ out, setText ts m c = Some out ∧
       get out "textPosition" = pos ∧
       (truthy v = true →
          get out "textFill" = VStr "#fff" ∧
          get out "textStroke"
            = (if nullish (themedStroke m g opt) then c else themedStroke m g opt) ∧
          get out "textLineWidth"
            = (if nullish (themedStroke m g opt) && nullish (themedLineWidth m g)
               then VNum 2 else themedLineWidth m g)) ∧
       (truthy v = false → get out "textFill" = c)).
Proof.
  intros Hc opt g pos Hfill.
  assert (setTextOpt c
          = (mkOpt false true c (CheckInsideFn defaultCheckInside) false
                   VUndef VUndef None VUndef VUndef, false)) as Hopt.
  { unfold setTextOpt. by destruct c as [| |[]| | | |]. }
  destruct (setText_eq ts m c) as (rich & Heq). rewrite Heq.
  fold opt. rewrite Hopt. cbn [snd].
  assert (effectiveCheckInside opt = Some defaultCheckInside) as Heff.
  { subst opt. by rewrite Hopt. }
  assert (autoColor opt = c) as Hauto by (subst opt; by rewrite Hopt).
  rewrite (setTokenTextStyle_checked _ m g opt true defaultCheckInside Hfill Heff).
  rewrite writeRectText_textPosition. fold pos.
  split; [by intros ->|]. intros v ->. cbn [mbind option_bind].
  eexists. split; [reflexivity|]. split.
  { unfold get.
    destruct (truthy v); rewrite writeTokenTextStyle_textPosition;
      apply writeRectText_textPosition. }
  rewrite <- Hauto. split; intros ->.
  - destruct (writeTokenTextStyle_fill
                (<["rich" := rich]> (writeRectText ts m opt false)) m
                (if truthy g then g else VObj ∅) opt true (VStr "#fff")
                (if nullish (themedStroke m g opt) then autoColor opt
                 else themedStroke m g opt)
                (if nullish (themedStroke m g opt)
                 then if nullish (themedLineWidth m g) then VNum 2
                      else themedLineWidth m g
                 else themedLineWidth m g)) as (Hf & Hs & Hlw).
    split; [exact Hf|]. split; [exact Hs|]. etransitivity; [exact Hlw|].
    by destruct (nullish (themedStroke m g opt)), (nullish (themedLineWidth m g)).
  - apply writeTokenTextStyle_fill.
Qed.

(** X17. [setText] with [false] as default colour always returns, and gives
    no default: the fill and stroke are the declared colours, with
    ['auto'] read as [null], and the position and distance the declared
    ones; the theme's colours are not looked at. *)
Theorem setText_false_no_default ts m :
  ∃ out, setText ts m (VBool false) = Some out ∧
    get out "textFill"
      = (if isStr (getShallow m "color") "auto" then VNull else getShallow m "color") ∧
    get out "textStroke"
      = (if isStr (getShallow m "textBorderColor") "auto" then VNull
         else getShallow m "textBorderColor") ∧
    get out "textLineWidth" = getShallow m "textBorderWidth" ∧
    get out "textPosition"
      = (if isStr (getShallow m "position") "outside" then VStr "top"
         else jsOr (getShallow m "position") VNull) ∧
    get out "textDistance" = retrieve2 (getShallow m "distance") VNull.
Proof.
  destruct (setText_eq ts m (VBool false)) as (rich & Heq). rewrite Heq.
  change (setTextOpt (VBool false))
    with (mkOpt false true VUndef CheckInsideUnset false VUndef VUndef None VUndef VUndef,
          true).
  cbn [fst snd].
  destruct (setTokenTextStyle_returns
              (<["rich" := rich]>
                 (writeRectText ts m
                    (mkOpt false true VUndef CheckInsideUnset false VUndef VUndef None
                           VUndef VUndef) true))
              m (globalTextStyleOf m)
              (mkOpt false true VUndef CheckInsideUnset false VUndef VUndef None
                     VUndef VUndef) true true) as [out Hout]; [by left|].
  exists out. split; [done|].
  apply setTokenTextStyle_inv in Hout as (f & s & l & Hcol & ->).
  injection Hcol as -> -> ->.
  destruct (writeTokenTextStyle_fill
              (<["rich" := rich]>
                 (writeRectText ts m
                    (mkOpt false true VUndef CheckInsideUnset false VUndef VUndef None
                           VUndef VUndef) true))
              m (if negb true && truthy (globalTextStyleOf m)
                 then globalTextStyleOf m else VObj ∅)
              (mkOpt false true VUndef CheckInsideUnset false VUndef VUndef None
                     VUndef VUndef) true
              (getAutoColor (getShallow m "color")
                 (mkOpt false true VUndef CheckInsideUnset false VUndef VUndef None
                        VUndef VUndef))
              (getAutoColor (getShallow m "textBorderColor")
                 (mkOpt false true VUndef CheckInsideUnset false VUndef VUndef None
                        VUndef VUndef))
              (getShallow m "textBorderWidth")) as (-> & -> & ->).
  unfold getAutoColor. cbn [autoColor truthy].
  split; [by destruct (isStr (getShallow m "color") "auto")|].
  split; [by destruct (isStr (getShallow m "textBorderColor") "auto")|].
  split; [done|].
  unfold get. rewrite !writeTokenTextStyle_frame by (by apply (bool_decide_unpack _)).
  rewrite !lookup_insert_ne by done.
  unfold writeRectText. cbn [isRectText]. split.
  - lookup_stack. unfold jsOr.
    destruct (isStr (getShallow m "position") "outside") eqn:Ho.
    + assert (truthy (getShallow m "position") = true) as ->.
      { by destruct (getShallow m "position") as [| | | |[|? ?]| |]. }
      by rewrite Ho.
    + destruct (truthy (getShallow m "position")); [by rewrite Ho | done].
  - by lookup_stack.
Qed.

(** X18. The emphasis text falls back on the normal text: with no formatter,
    or one that gives nothing for the emphasis state, a shown emphasis
    label carries the text of the normal state, which is [null] when the
    normal label is hidden, whatever the default text. *)
Theorem emphasis_text_fallback normalStyle emphasisStyle nm em opt nspec espec ns es calls :
  setLabelStyle normalStyle emphasisStyle nm em opt nspec espec = Some (ns, es, calls) →
  truthy (getShallow em "show") = true →
  match labelFetcher (default EMPTY_OBJ opt) with
  | Some getFormattedLabel =>
      nullish (getFormattedLabel (labelDataIndex (default EMPTY_OBJ opt)) "emphasis"
                                 (labelDimIndex (default EMPTY_OBJ opt))) = true
  | None => True
  end →
  get es "text" = get ns "text" ∧
  (truthy (getShallow nm "show") = false → get es "text" = VNull).
Proof.
  intros Hs Hshow Hfetch.
  destruct (setLabelStyle_texts _ _ _ _ _ _ _ _ _ _ Hs) as (Hn & He & _).
  assert (∀ fallback, labelText (default EMPTY_OBJ opt) em "emphasis" fallback = fallback)
    as Hfall.
  { intros fallback. unfold labelText, retrieve2. rewrite Hshow.
    destruct (labelFetcher (default EMPTY_OBJ opt)); [by rewrite Hfetch | done]. }
  rewrite Hfall in He. rewrite He, Hn. split; [done|].
  intros Hnm. unfold labelText. by rewrite Hnm.
Qed.

End setText_facts.

(** *** Examples *)

Lemma default_text_fill_witness :
  nullish (themedFill exampleHiddenModel VUndef optRectText) = true ∧
  effectiveCheckInside optRectText = Some defaultCheckInside ∧
  ∃ out,
    setTokenTextStyle {["textPosition" := VStr "insideLeft"]} exampleHiddenModel VUndef
                      optRectText false true = Some out ∧
    get out "textFill" = VStr "#fff" ∧
    get out "textStroke" = VStr "#123456" ∧
    get out "textLineWidth" = VNum 2.
Proof.
  split; [reflexivity|]. split; [reflexivity|].
  destruct (default_text_fill {["textPosition" := VStr "insideLeft"]} exampleHiddenModel
              VUndef optRectText true) as (_ & _ & Hinside & _).
  apply (Hinside defaultCheckInside (VBool true)); reflexivity.
Defined.

Lemma auto_color_resolved_witness :
  ∃ out,
    setTokenTextStyle ∅ exampleAutoModel VUndef optRectText true false = Some out ∧
    get out "textFill" = VStr "#123456" ∧
    get out "textStroke" = VStr "#123456".
Proof.
  eexists. split; [reflexivity|].
  destruct (auto_color_resolved ∅ exampleAutoModel VUndef optRectText true false _ eq_refl)
    as [Hauto _].
  destruct (Hauto eq_refl) as (Hfill & Hstroke & _).
  split; [exact (Hfill eq_refl) | exact (Hstroke eq_refl)].
Defined.

Lemma resolver_frame_witness :
  ∃ out opt',
    @setTextStyleCommon exampleRadians {["text" := VStr "label"]} exampleEmphasisModel
       (Some optRectText) true = Some (out, opt') ∧
    out !! "text" = ({["text" := VStr "label"]} : obj) !! "text".
Proof.
  eexists _, _. split; [reflexivity|].
  apply (@resolver_frame exampleRadians {["text" := VStr "label"]} exampleEmphasisModel
           (Some optRectText) true _ _ "text" eq_refl).
  - by apply (bool_decide_unpack _).
  - discriminate.
  - intros _. by apply (bool_decide_unpack _).
Defined.

Lemma rect_text_defaults_witness :
  ∃ out opt',
    @setTextStyleCommon exampleRadians ∅ exampleEmphasisModel (Some optRectText) false
      = Some (out, opt') ∧
    get out "textPosition" = VStr "inside" ∧
    get out "textDistance" = VNum 5.
Proof.
  eexists _, _. split; [reflexivity|].
  destruct (@rect_text_defaults exampleRadians ∅ exampleEmphasisModel (Some optRectText)
              false _ _ eq_refl) as [Hrect _].
  destruct (Hrect eq_refl) as (_ & Hpos & _ & Hdist & _).
  split; [exact (Hpos eq_refl) | exact Hdist].
Defined.

Lemma specified_style_wins_witness :
  ∃ out opt' common,
    @setTextStyle exampleRadians ∅ exampleEmphasisModel
       (Some {["textFill" := VStr "blue"]}) (Some optRectText) false = Some (out, opt') ∧
    @setTextStyleCommon exampleRadians ∅ exampleEmphasisModel (Some optRectText) false
      = Some (common, opt') ∧
    get common "textFill" = VStr "#333" ∧
    out !! "textFill" = Some (VStr "blue").
Proof.
  eexists _, _.
  destruct (@specified_style_wins exampleRadians ∅ exampleEmphasisModel
              {["textFill" := VStr "blue"]} (Some optRectText) false _ _ eq_refl)
    as (common & Hc & Hk).
  exists common. split; [reflexivity|]. split; [exact Hc|]. split.
  - injection Hc as <-. reflexivity.
  - exact (Hk "textFill").
Defined.

Lemma setText_default_color_witness :
  ∃ out,
    @setText exampleRadians ∅ exampleHiddenModel (VStr "#123456") = Some out ∧
    get out "textPosition" = VStr "inside" ∧
    get out "textFill" = VStr "#fff" ∧
    get out "textStroke" = VStr "#123456" ∧
    get out "textLineWidth" = VNum 2.
Proof.
  destruct (@setText_default_color exampleRadians ∅ exampleHiddenModel (VStr "#123456"))
    as [_ Hin]; [discriminate | reflexivity |].
  destruct (Hin (VBool true) eq_refl) as (out & Hs & Hpos & Hinside & _).
  exists out. split; [exact Hs|]. split; [exact Hpos|]. exact (Hinside eq_refl).
Defined.

Lemma setText_false_no_default_witness :
  ∃ out,
    @setText exampleRadians ∅ exampleAutoModel (VBool false) = Some out ∧
    get out "textFill" = VNull ∧ get out "textStroke" = VNull ∧
    get out "textPosition" = VNull ∧ get out "textDistance" = VNull.
Proof.
  destruct (@setText_false_no_default exampleRadians ∅ exampleAutoModel)
    as (out & Hs & Hf & Hst & _ & Hp & Hd).
  exists out. split; [exact Hs|]. by repeat split.
Defined.

Lemma emphasis_text_fallback_witness :
  ∃ ns es calls,
    @setLabelStyle exampleRadians ∅ ∅ exampleEmphasisModel exampleEmphasisModel
       (Some optDefaultText) None None = Some (ns, es, calls) ∧
    get ns "text" = VStr "default" ∧
    get es "text" = get ns "text".
Proof.
  eexists _, _, _. split; [reflexivity|].
  split; [reflexivity|].
  apply (@emphasis_text_fallback exampleRadians ∅ ∅ exampleEmphasisModel
           exampleEmphasisModel (Some optDefaultText) None None _ _ _ eq_refl);
    [reflexivity | exact I].
Defined.

(** * Fonts, pixel snapping and clipping *)

Lemma toString_array l : toString (VArr l) = join l ",".
Proof.
  induction l as [|v [|v' l] IH]; [done..|].
  change (toString (VArr (v :: v' :: l)))
    with ((if nullish v then "" else toString v) +:+ "," +:+ toString (VArr (v' :: l))).
  by rewrite IH.
Qed.

(** X19. [getFont] raises when it is given no global model. Given one, it
    reads the fallback of a font property from the top level of that
    model's option and never from its [textStyle]; with nothing
    declared the font is 12px sans-serif, after two separators. *)
Theorem getFont_global_model opt :
  getFont opt None = None ∧
  (∀ o parent ec isEc v,
     getFont opt (Some (mkModel (VObj (<["textStyle" := v]> o)) parent ec isEc))
     = getFont opt (Some (mkModel (VObj o) parent ec isEc))) ∧
  (∀ m, Forall (λ key, truthy (get opt key) = false ∧ truthy (getShallow m key) = false)
               ["fontStyle"; "fontWeight"; "fontSize"; "fontFamily"] →
        getFont opt (Some m) = Some "  12px sans-serif").
Proof.
  split; [done|]. split.
  - intros o parent ec isEc v. unfold getFont.
    assert (∀ key, key ≠ "textStyle" →
              getShallow (mkModel (VObj (<["textStyle" := v]> o)) parent ec isEc) key
              = getShallow (mkModel (VObj o) parent ec isEc) key) as Hkey.
    { intros key Hne. cbn [getShallow nullish getProp]. unfold get.
      by rewrite lookup_insert_ne. }
    by rewrite !Hkey.
  - intros m Hunset. unfold getFont, jsOr.
    repeat (apply Forall_cons in Hunset as [[-> ->] Hunset]). done.
Qed.

Lemma getFont_global_model_witness :
  getFont ∅ (Some exampleGlobalModel) = Some "  12px sans-serif".
Proof.
  destruct (getFont_global_model ∅) as (_ & _ & Hunset).
  apply (Hunset exampleGlobalModel). repeat constructor.
Defined.

(** *** Pixel snapping *)

Ltac halves := unfold Qdiv; change (/ 2)%Q with (1 # 2)%Q.


Lemma round_half_integer n : round (inject_Z n / 2 * 2)%Q = n.
Proof.
  unfold round.
  assert (inject_Z n / 2 * 2 + (1 # 2) == inject_Z n + (1 # 2))%Q as ->
    by (set (a := inject_Z n); halves; lra).
  pose proof (Qfloor_le (inject_Z n + (1 # 2))%Q) as Hle.
  pose proof (Qlt_floor (inject_Z n + (1 # 2))%Q) as Hlt.
  set (f := Qfloor (inject_Z n + (1 # 2))%Q) in *.
  assert (inject_Z f < inject_Z (n + 1))%Q as Hup.
  { rewrite inject_Z_plus. change (inject_Z 1) with (1 # 1)%Q. lra. }
  assert (n ≤ f)%Z as Hlow.
  { rewrite <- (Qfloor_Z n). apply Qfloor_resp_le. set (a := inject_Z n). lra. }
  rewrite <- Zlt_Qlt in Hup. lia.
Qed.

(** The doubled result of [subPixelOptimize]: an integer whose sum with
    the rounded line width is even. *)
Lemma subPixelOptimize_doubled position lineWidth (positiveOrNegative : bool) :
  ∃ n : Z,
    subPixelOptimize position (Some lineWidth) positiveOrNegative = (inject_Z n / 2)%Q ∧
    Z.rem (n + round lineWidth) 2 = 0%Z ∧
    (round (position * 2)%Q - (if positiveOrNegative then 0 else 1)
     ≤ n ≤ round (position * 2)%Q + (if positiveOrNegative then 1 else 0))%Z.
Proof.
  unfold subPixelOptimize.
  destruct (Z.rem (round (position * 2)%Q + round lineWidth) 2 =? 0)%Z eqn:Hpar.
  - exists (round (position * 2)%Q). split; [done|]. split; [by apply Z.eqb_eq|].
    destruct positiveOrNegative; lia.
  - exists (round (position * 2)%Q + (if positiveOrNegative then 1 else -1))%Z.
    split; [done|]. apply Z.eqb_neq in Hpar. split; [|destruct positiveOrNegative; lia].
    set (s := (round (position * 2)%Q + round lineWidth)%Z) in *.
    replace (round (position * 2)%Q + (if positiveOrNegative then 1 else -1)
             + round lineWidth)%Z
      with (s + (if positiveOrNegative then 1 else -1))%Z by (subst s; lia).
    pose proof (Z.quot_rem' s 2) as Hs.
    pose proof (Z.quot_rem' (s + (if positiveOrNegative then 1 else -1)) 2) as Hs'.
    pose proof (Z.rem_bound_abs s 2) as Hb.
    pose proof (Z.rem_bound_abs (s + (if positiveOrNegative then 1 else -1)) 2) as Hb'.
    destruct positiveOrNegative; lia.
Qed.

Lemma half_integer_on_border lineWidth n :
  Z.rem (n + round lineWidth) 2 = 0%Z → onPixelBorder lineWidth (inject_Z n / 2)%Q.
Proof.
  intros Hpar. exists (Z.quot (n + round lineWidth) 2).
  pose proof (Z.quot_rem' (n + round lineWidth) 2) as Hq. rewrite Hpar in Hq.
  assert (inject_Z n + inject_Z (round lineWidth)
          == 2 * inject_Z (Z.quot (n + round lineWidth) 2))%Q as Hsum.
  { rewrite <- inject_Z_plus. rewrite Hq at 1.
    rewrite Z.add_0_r, inject_Z_mult. reflexivity. }
  set (a := inject_Z n) in *. set (b := inject_Z (round lineWidth)) in *.
  set (c := inject_Z (Z.quot (n + round lineWidth) 2)) in *.
  halves. lra.
Qed.

Lemma onPixelBorder_shift lineWidth position (c : Z) :
  onPixelBorder lineWidth position →
  onPixelBorder lineWidth (position + inject_Z c)%Q.
Proof.
  intros [k Hk]. exists (k + c)%Z. rewrite inject_Z_plus, <- Hk.
  set (a := inject_Z c). set (b := (inject_Z (round lineWidth) / 2)%Q). lra.
Qed.

Lemma onPixelBorder_Qeq lineWidth p q :
  (p == q)%Q → onPixelBorder lineWidth p → onPixelBorder lineWidth q.
Proof. intros Hpq [k Hk]. exists k. by rewrite <- Hpq. Qed.

(** X20. With a line width, the snapped position and half the rounded line
    width add up to an integer: both edges of the stroke fall on pixel
    borders, whatever the position and the direction. *)
Theorem subPixelOptimize_on_pixel_border position lineWidth positiveOrNegative :
  onPixelBorder lineWidth (subPixelOptimize position (Some lineWidth) positiveOrNegative).
Proof.
  destruct (subPixelOptimize_doubled position lineWidth positiveOrNegative)
    as (n & -> & Hpar & _).
  by apply half_integer_on_border.
Qed.


(** X22. Snapping is idempotent when there is a line width; without one every
    call moves the position on by half a pixel in the given direction. *)
Theorem subPixelOptimize_again position (positiveOrNegative : bool) :
  (∀ lineWidth,
     subPixelOptimize (subPixelOptimize position (Some lineWidth) positiveOrNegative)
                      (Some lineWidth) positiveOrNegative
     = subPixelOptimize position (Some lineWidth) positiveOrNegative) ∧
  (subPixelOptimize (subPixelOptimize position None positiveOrNegative)
                    None positiveOrNegative
   == subPixelOptimize position None positiveOrNegative
      + (if positiveOrNegative then 1 # 2 else - (1 # 2)))%Q.
Proof.
  split.
  - intros lineWidth.
    destruct (subPixelOptimize_doubled position lineWidth positiveOrNegative)
      as (n & -> & Hpar & _).
    unfold subPixelOptimize. rewrite round_half_integer, Hpar. reflexivity.
  - unfold subPixelOptimize. rewrite round_half_integer.
    rewrite (inject_Z_plus (_ + _)).
    set (d := inject_Z (round (position * 2)%Q + _)) in *.
    destruct positiveOrNegative.
    + change (inject_Z 1) with (1 # 1)%Q. halves. lra.
    + change (inject_Z (-1)) with (-1 # 1)%Q. halves. lra.
Qed.

(** X23. A line is snapped once and for all: optimising an optimised line
    changes nothing. A line whose ends have the same doubled and rounded
    abscissa becomes vertical, on a pixel border when there is a line
    width; one whose ends differ in both coordinates is left as it is. *)
Theorem subPixelOptimizeLine_snaps shape lineWidth :
  subPixelOptimizeLine (subPixelOptimizeLine shape (Some lineWidth)) (Some lineWidth)
  = subPixelOptimizeLine shape (Some lineWidth) ∧
  (round (LineShape.x1 shape * 2)%Q = round (LineShape.x2 shape * 2)%Q →
     LineShape.x1 (subPixelOptimizeLine shape (Some lineWidth))
     = LineShape.x2 (subPixelOptimizeLine shape (Some lineWidth)) ∧
     onPixelBorder lineWidth (LineShape.x1 (subPixelOptimizeLine shape (Some lineWidth)))) ∧
  (round (LineShape.x1 shape * 2)%Q ≠ round (LineShape.x2 shape * 2)%Q →
   round (LineShape.y1 shape * 2)%Q ≠ round (LineShape.y2 shape * 2)%Q →
     ∀ lw, subPixelOptimizeLine shape lw = shape).
Proof.
  destruct shape as [x1 y1 x2 y2]. unfold subPixelOptimizeLine. cbn [LineShape.x1
    LineShape.x2 LineShape.y1 LineShape.y2].
  destruct (subPixelOptimize_doubled x1 lineWidth true) as (n & Hn & Hpar & _).
  destruct (subPixelOptimize_doubled y1 lineWidth true) as (k & Hk & Hkpar & _).
  assert (subPixelOptimize (inject_Z n / 2)%Q (Some lineWidth) true = (inject_Z n / 2)%Q)
    as Hnn.
  { unfold subPixelOptimize. by rewrite round_half_integer, Hpar. }
  assert (subPixelOptimize (inject_Z k / 2)%Q (Some lineWidth) true = (inject_Z k / 2)%Q)
    as Hkk.
  { unfold subPixelOptimize. by rewrite round_half_integer, Hkpar. }
  split; [|split].
  - destruct (round (x1 * 2)%Q =? round (x2 * 2)%Q)%Z eqn:Hx;
      destruct (round (y1 * 2)%Q =? round (y2 * 2)%Q)%Z eqn:Hy;
      cbn [LineShape.x1 LineShape.x2 LineShape.y1 LineShape.y2];
      rewrite ?Hy; cbn [LineShape.x1 LineShape.x2 LineShape.y1 LineShape.y2];
      rewrite ?Hn, ?Hk, ?Z.eqb_refl, ?Hx, ?Hy;
      cbn [LineShape.x1 LineShape.x2 LineShape.y1 LineShape.y2];
      rewrite ?Hnn, ?Hkk, ?Z.eqb_refl, ?Hx, ?Hy;
      cbn [LineShape.x1 LineShape.x2 LineShape.y1 LineShape.y2];
      rewrite ?Hnn, ?Hkk; reflexivity.
  - intros Hx. apply Z.eqb_eq in Hx. rewrite Hx.
    cbn [LineShape.x1 LineShape.x2 LineShape.y1 LineShape.y2].
    destruct (round (y1 * 2)%Q =? round (y2 * 2)%Q)%Z;
      cbn [LineShape.x1 LineShape.x2]; (split; [done|]);
      rewrite Hn; by apply half_integer_on_border.
  - intros Hx Hy lw. apply Z.eqb_neq in Hx, Hy. rewrite Hx.
    cbn [LineShape.x1 LineShape.x2 LineShape.y1 LineShape.y2]. by rewrite Hy.
Qed.

(** X24. Whatever the rounding of the sums, a rectangle optimised with a line
    width has its four sides on pixel borders, and it keeps a width and a
    height of at least one pixel unless the given one is zero. *)
Theorem subPixelOptimizeRect_sides add shape lineWidth :
  let optimized := subPixelOptimizeRect add shape (Some lineWidth) in
  onPixelBorder lineWidth (RectShape.x optimized) ∧
  onPixelBorder lineWidth (RectShape.x optimized + RectShape.width optimized)%Q ∧
  onPixelBorder lineWidth (RectShape.y optimized) ∧
  onPixelBorder lineWidth (RectShape.y optimized + RectShape.height optimized)%Q ∧
  (0 <= RectShape.width optimized)%Q ∧ (0 <= RectShape.height optimized)%Q ∧
  (¬ (RectShape.width shape == 0)%Q → (1 <= RectShape.width optimized)%Q) ∧
  (¬ (RectShape.height shape == 0)%Q → (1 <= RectShape.height optimized)%Q).
Proof.
  assert (∀ origin size,
    let side := subPixelOptimize origin (Some lineWidth) true in
    let extent := Qmax (subPixelOptimize (add origin size) (Some lineWidth) false - side)%Q
                       (if Qeq_bool size 0 then 0 else 1)%Q in
    onPixelBorder lineWidth side ∧ onPixelBorder lineWidth (side + extent)%Q ∧
    (0 <= extent)%Q ∧ (¬ (size == 0)%Q → (1 <= extent)%Q)) as Hside.
  { intros origin size side extent.
    assert (∀ position positiveOrNegative,
              onPixelBorder lineWidth
                (subPixelOptimize position (Some lineWidth) positiveOrNegative)) as Hborder.
    { intros position positiveOrNegative.
      destruct (subPixelOptimize_doubled position lineWidth positiveOrNegative)
        as (n & -> & Hpar & _).
      by apply half_integer_on_border. }
    assert (onPixelBorder lineWidth side) as Hb by apply Hborder.
    split; [done|].
    set (far := subPixelOptimize (add origin size) (Some lineWidth) false) in *.
    set (least := (if Qeq_bool size 0 then 0 else 1)%Q) in *.
    assert ((0 <= least)%Q ∧ (¬ (size == 0)%Q → least = 1%Q)) as [Hl0 Hl1].
    { subst least. destruct (Qeq_bool size 0) eqn:Hz.
      - apply Qeq_bool_iff in Hz. split; [lra | done].
      - split; [lra | done]. }
    pose proof (Q.le_max_r (far - side)%Q least) as Hle. fold extent in Hle.
    split; [|split; [lra|]].
    - destruct (Q.max_spec (far - side)%Q least) as [[_ Hmax]|[_ Hmax]];
        fold extent in Hmax.
      + apply (onPixelBorder_Qeq lineWidth
                 (side + inject_Z (if Qeq_bool size 0 then 0 else 1))%Q).
        * rewrite Hmax. subst least. by destruct (Qeq_bool size 0).
        * by apply onPixelBorder_shift.
      + apply (onPixelBorder_Qeq lineWidth far); [rewrite Hmax; lra | apply Hborder].
    - intros Hnz. rewrite (Hl1 Hnz) in Hle. done. }
  intros optimized. subst optimized. unfold subPixelOptimizeRect.
  cbn [RectShape.x RectShape.y RectShape.width RectShape.height].
  destruct (Hside (RectShape.x shape) (RectShape.width shape)) as (? & ? & ? & ?).
  destruct (Hside (RectShape.y shape) (RectShape.height shape)) as (? & ? & ? & ?).
  by repeat split.
Qed.

(** *** Clipping *)

(** X25. A clipped list has as many points as the given one; a point inside
    the rectangle stays where it is; when the rectangle has no negative
    size every clipped point is inside it, so that clipping again changes
    nothing. *)
Theorem clipPointsByRect_inside points rect :
  length (clipPointsByRect points rect) = length points ∧
  (Forall (contains rect) points → clipPointsByRect points rect = points) ∧
  ((0 ≤ Rect.width rect)%Z → (0 ≤ Rect.height rect)%Z →
     Forall (contains rect) (clipPointsByRect points rect) ∧
     clipPointsByRect (clipPointsByRect points rect) rect = clipPointsByRect points rect).
Proof.
  assert (Forall (contains rect) points → clipPointsByRect points rect = points) as Hin.
  { clear. induction 1 as [|[px py] ps [Hx Hy] _ IH]; [done|].
    cbn [clipPointsByRect map fst snd] in *. fold (clipPointsByRect ps rect).
    rewrite IH. f_equal. f_equal; lia. }
  unfold clipPointsByRect at 1. rewrite length_map. split; [done|]. split; [done|].
  intros Hw Hh.
  assert (Forall (contains rect) (clipPointsByRect points rect)) as Hall.
  { unfold clipPointsByRect. apply Forall_map, Forall_forall. intros [px py] _.
    unfold contains. cbn [fst snd]. lia. }
  split; [done|]. clear Hin. revert Hall. generalize (clipPointsByRect points rect).
  clear. induction 1 as [|[px py] ps [Hx Hy] _ IH]; [done|].
  cbn [clipPointsByRect map fst snd] in *. fold (clipPointsByRect ps rect).
  rewrite IH. f_equal. f_equal; lia.
Qed.

(** X26. [clipRectByRect] gives the common part of the two rectangles: a
    point is in the result exactly when it is in both, and there is no
    result exactly when no point is in both. The result has no negative
    size, and the order of the arguments does not matter. *)
Theorem clipRectByRect_intersection targetRect rect :
  match clipRectByRect targetRect rect with
  | Some clipped =>
      (0 ≤ Rect.width clipped)%Z ∧ (0 ≤ Rect.height clipped)%Z ∧
      ∀ point, contains clipped point ↔ contains targetRect point ∧ contains rect point
  | None => ∀ point, ¬ (contains targetRect point ∧ contains rect point)
  end ∧
  clipRectByRect targetRect rect = clipRectByRect rect targetRect.
Proof.
  split.
  - unfold clipRectByRect.
    destruct (_ >=? _)%Z eqn:Hx; [destruct (Z.min (Rect.y targetRect + _) _ >=? _)%Z eqn:Hy|];
      cbn [andb].
    + apply Z.geb_le in Hx, Hy. cbn [Rect.width Rect.height].
      split; [lia|]. split; [lia|]. intros [px py]. unfold contains.
      cbn [fst snd Rect.x Rect.y Rect.width Rect.height]. lia.
    + intros [px py]. unfold contains. cbn [fst snd].
      rewrite Z.geb_leb in Hy. apply Z.leb_gt in Hy. lia.
    + intros [px py]. unfold contains. cbn [fst snd].
      rewrite Z.geb_leb in Hx. apply Z.leb_gt in Hx. lia.
  - unfold clipRectByRect.
    by rewrite (Z.max_comm (Rect.x rect)), (Z.max_comm (Rect.y rect)),
      (Z.min_comm (Rect.x rect + _)), (Z.min_comm (Rect.y rect + _)).
Qed.

Lemma clipPointsByRect_inside_witness :
  Forall (contains (Rect.make 0 0 10 10))
         (clipPointsByRect [(-3, 4); (12, 20); (5, 5)]%Z (Rect.make 0 0 10 10)) ∧
  clipPointsByRect [(5, 5)]%Z (Rect.make 0 0 10 10) = [(5, 5)]%Z.
Proof.
  destruct (clipPointsByRect_inside [(-3, 4); (12, 20); (5, 5)]%Z (Rect.make 0 0 10 10))
    as (_ & _ & Hin).
  destruct (clipPointsByRect_inside [(5, 5)]%Z (Rect.make 0 0 10 10)) as (_ & Hsame & _).
  split.
  - apply Hin; cbn; lia.
  - apply Hsame. repeat constructor; cbn; lia.
Defined.

Lemma subPixelOptimizeLine_snaps_witness :
  LineShape.x1 (subPixelOptimizeLine (LineShape.make (1 # 3) 0 (2 # 5) 7) (Some 1%Q))
  = LineShape.x2 (subPixelOptimizeLine (LineShape.make (1 # 3) 0 (2 # 5) 7) (Some 1%Q)) ∧
  onPixelBorder 1
    (LineShape.x1 (subPixelOptimizeLine (LineShape.make (1 # 3) 0 (2 # 5) 7) (Some 1%Q))).
Proof.
  destruct (subPixelOptimizeLine_snaps (LineShape.make (1 # 3) 0 (2 # 5) 7) 1%Q)
    as (_ & Hvertical & _).
  apply Hvertical. reflexivity.
Defined.

Lemma subPixelOptimizeRect_sides_witness :
  (1 <= RectShape.width
          (subPixelOptimizeRect Qplus (RectShape.make (1 # 3) 0 (1 # 5) 0) (Some 1%Q)))%Q.
Proof.
  destruct (subPixelOptimizeRect_sides Qplus (RectShape.make (1 # 3) 0 (1 # 5) 0) 1%Q)
    as (_ & _ & _ & _ & _ & _ & Hwidth & _).
  apply Hwidth. discriminate.
Defined.
